(** * Reavix: routing trie, request pipeline, WebSocket framing and IPC arena

  A shallow embedding of the C sources of the Reavix backend and the
  properties stated about them.  Three files hold a routing trie:
  [backend/src/libreavix.c] (module [Backend], with the server state and
  the dispatch pipeline in [Server]), [backend/include/libreavix.c]
  (modules [Legacy] and [LegacyHttp]) and the router source with
  [router_add] and [router_match] (module [RouterC], [router_match] only).
  [src/core/ipc.c] is module [Ipc].

  Conventions:
  - a C string is a [string], a byte a character; a pointer argument the
    source tests against NULL is an [option];
  - an array together with its element count is a [list];
  - [size_t] is 64 bits wide; [size_t] and [uint32_t] values are [Z] with
    the wrap-around written out;
  - an allocation whose result the source tests is answered by an
    [oracle]; an allocation whose result the source never tests is taken
    to succeed, and the properties are about the runs in which it does;
  - where the C program becomes undefined (a store or a read outside an
    array, a use of freed memory) the function that models it returns
    [None]: nothing is said about what follows. *)

From Stdlib Require Import ZArith List String Ascii Bool Lia Arith DecimalString.
Set Warnings "-register-all".
Import ListNotations.
Local Open Scope string_scope.
Local Open Scope Z_scope.

(** ** C string helpers *)

Module CStr.

(** [strcmp(a, b) == 0]. *)
Definition streq (a b : string) : bool := String.eqb a b.

(** The successive results of [strtok_r(s, delim, &saveptr)]: the maximal
    non-empty runs of characters other than the delimiter.  [acc] is the
    token being read. *)
Fixpoint strtok_from (delim : ascii) (s : string) (acc : string) : list string :=
  match s with
  | EmptyString =>
      match acc with EmptyString => [] | _ => [acc] end
  | String c rest =>
      if Ascii.eqb c delim then
        match acc with
        | EmptyString => strtok_from delim rest EmptyString
        | _ => acc :: strtok_from delim rest EmptyString
        end
      else strtok_from delim rest (acc ++ String c EmptyString)
  end.

Definition strtok_all (delim : ascii) (s : string) : list string :=
  strtok_from delim s EmptyString.

(** The segments of a path: [strtok_r(path_copy, "/", &saveptr)] until NULL. *)
Definition path_segments (path : string) : list string :=
  strtok_all "/"%char path.

(** [segment[0] == ':'] *)
Definition is_param_segment (seg : string) : bool :=
  match seg with
  | String c _ => Ascii.eqb c ":"%char
  | EmptyString => false
  end.

(** [segment + 1]: the text after the first character. *)
Definition skip1 (seg : string) : string :=
  match seg with
  | String _ t => t
  | EmptyString => EmptyString
  end.

(** [tolower] in the C locale, on the character code. *)
Definition tolower (c : ascii) : Z :=
  let n := Z.of_nat (nat_of_ascii c) in
  if (65 <=? n)%Z && (n <=? 90)%Z then (n + 32)%Z else n.

(** [strcasecmp(a, b)]: the difference of the first pair of characters
    that differ after [tolower], 0 when both strings end together. *)
Fixpoint strcasecmp (a b : string) : Z :=
  match a, b with
  | EmptyString, EmptyString => 0%Z
  | EmptyString, String cb _ => (0 - tolower cb)%Z
  | String ca _, EmptyString => tolower ca
  | String ca ta, String cb tb =>
      if (tolower ca =? tolower cb)%Z then strcasecmp ta tb
      else (tolower ca - tolower cb)%Z
  end.

(** The lower-cased character codes of a string. *)
Fixpoint lower_codes (s : string) : list Z :=
  match s with
  | EmptyString => []
  | String c t => tolower c :: lower_codes t
  end.

(** No character of the string is NUL, as for every C string. *)
Fixpoint nul_free (s : string) : Prop :=
  match s with
  | EmptyString => True
  | String c t => c <> zero /\ nul_free t
  end.

End CStr.

(** Sequencing of steps that may be undefined. *)
Notation "' p <- e ;; f" :=
  (match e with Some p => f | None => None end)
  (at level 61, p pattern, e at next level, right associativity).

(** ** Allocation oracle *)

(** Each tested allocation consumes one answer; an exhausted oracle answers
    "success". *)
Definition oracle := list bool.

Definition alloc (o : oracle) : bool * oracle :=
  match o with
  | [] => (true, [])
  | b :: o' => (b, o')
  end.

(** ** The routing trie

  [TrieNode] of [libreavix.h]: the [children] array with [child_count] is
  a list; [rate_limit] takes no part in insertion or matching and is left
  out. *)

Section Trie.

Variable RouteHandler : Type.

Inductive TrieNode : Type :=
  mkTrieNode {
    segment : string;
    handler : option RouteHandler;
    children : list TrieNode;
    param_child : option TrieNode
  }.

(** [PathParam]: a captured name and value. *)
Record PathParam : Type := mkPathParam { pp_name : string; pp_value : string }.

Definition MAX_PARAMS : nat := 10.

Definition set_handler (n : TrieNode) (h : option RouteHandler) : TrieNode :=
  mkTrieNode (segment n) h (children n) (param_child n).

Definition set_children (n : TrieNode) (cs : list TrieNode) : TrieNode :=
  mkTrieNode (segment n) (handler n) cs (param_child n).

Definition set_param_child (n : TrieNode) (p : option TrieNode) : TrieNode :=
  mkTrieNode (segment n) (handler n) (children n) p.

(** The root as [reavix_init] leaves it. *)
Definition empty_root : TrieNode := mkTrieNode "" None [] None.

(** The loop
    [for (i = 0; i < child_count; i++) if (strcmp(children[i].segment, segment) == 0) { current = &children[i]; found = true; break; }]:
    the first child with that segment, with the children before and
    after it. *)
Fixpoint find_child (cs : list TrieNode) (seg : string)
  : option (list TrieNode * TrieNode * list TrieNode) :=
  match cs with
  | [] => None
  | c :: rest =>
      if CStr.streq (segment c) seg then Some ([], c, rest)
      else match find_child rest seg with
           | Some (before, hit, after) => Some (c :: before, hit, after)
           | None => None
           end
  end.

(** [create_trie_node] (router source, called by [trie_insert] of
    [backend/src/libreavix.c]): [calloc] then [strdup], NULL when either
    fails. *)
Definition create_trie_node (seg : string) (o : oracle) : option TrieNode * oracle :=
  let (ok_node, o1) := alloc o in
  if ok_node then
    let (ok_seg, o2) := alloc o1 in
    if ok_seg then (Some (mkTrieNode seg None [] None), o2) else (None, o2)
  else (None, o1).

End Trie.

Arguments mkTrieNode {RouteHandler}.
Arguments segment {RouteHandler}.
Arguments handler {RouteHandler}.
Arguments children {RouteHandler}.
Arguments param_child {RouteHandler}.
Arguments set_handler {RouteHandler}.
Arguments set_children {RouteHandler}.
Arguments set_param_child {RouteHandler}.
Arguments empty_root {RouteHandler}.
Arguments find_child {RouteHandler}.
Arguments create_trie_node {RouteHandler}.
Arguments mkPathParam : clear implicits.

(** The result of a match as the caller sees it: the returned flag and the
    two out-parameters [*out_handler] and [params[0 .. *param_count)]. *)
Record MatchResult (H : Type) : Type :=
  mkMatchResult {
    matched : bool;
    out_handler : option H;
    out_params : list PathParam
  }.

Arguments mkMatchResult {H}.
Arguments matched {H}.
Arguments out_handler {H}.
Arguments out_params {H}.

(** ** backend/src/libreavix.c: trie_insert and trie_match *)

Module Backend.

(** The [while (segment)] loop of [trie_insert].  A parameter segment never
    looks at the existing parameter child: a new node always takes the
    slot.  The second component is the trie as the call leaves it.  It is
    [None] when [realloc] of a [children] array fails: the source has then
    already incremented [child_count] and stores the NULL result in
    [children] (lines 523-529), which leaves a node whose [child_count]
    exceeds its NULL array.  No [TrieNode] stands for such a node, and a
    later walk over its children reads through NULL. *)
Fixpoint insert_loop {H : Type} (segs : list string) (h : option H)
  (current : TrieNode H) (o : oracle) : bool * option (TrieNode H) * oracle :=
  match segs with
  | [] => (true, Some (set_handler current h), o)
  | seg :: rest =>
      let is_param := CStr.is_param_segment seg in
      match (if is_param then None else find_child (children current) seg) with
      | Some (before, hit, after) =>
          let '(ok, hit', o') := insert_loop rest h hit o in
          (ok,
           option_map (fun n => set_children current (before ++ n :: after)) hit',
           o')
      | None =>
          match create_trie_node seg o with
          | (None, o1) => (false, Some current, o1)
          | (Some new_node, o1) =>
              if is_param then
                let '(ok, n', o2) := insert_loop rest h new_node o1 in
                (ok, option_map (fun n => set_param_child current (Some n)) n', o2)
              else
                let (ok_arr, o2) := alloc o1 in
                if ok_arr then
                  let '(ok, n', o3) := insert_loop rest h new_node o2 in
                  (ok,
                   option_map
                     (fun n => set_children current (children current ++ [n])) n',
                   o3)
                else (false, None, o2)
          end
      end
  end.

(** [trie_insert(root, path, handler)] with [root] and [path] not NULL:
    [strdup(path)], then the loop. *)
Definition trie_insert {H : Type} (root : TrieNode H) (path : string)
  (h : option H) (o : oracle) : bool * option (TrieNode H) * oracle :=
  let (ok_copy, o1) := alloc o in
  if ok_copy then insert_loop (CStr.path_segments path) h root o1
  else (false, Some root, o1).

(** The [while (segment)] loop of [trie_match]: [None] is the early
    [return false].  [is_param] is computed from the segment of the
    request path. *)
Fixpoint match_loop {H : Type} (segs : list string) (current : TrieNode H)
  (params : list PathParam) : option (TrieNode H * list PathParam) :=
  match segs with
  | [] => Some (current, params)
  | seg :: rest =>
      let is_param := CStr.is_param_segment seg in
      match (if is_param then None else find_child (children current) seg) with
      | Some (_, hit, _) => match_loop rest hit params
      | None =>
          match param_child current with
          | Some p =>
              if is_param && (List.length params <? MAX_PARAMS)%nat then
                match_loop rest p
                  (params ++ [mkPathParam (CStr.skip1 (segment p)) seg])
              else None
          | None => None
          end
      end
  end.

(** [trie_match(root, path, params, &param_count, &out_handler)] called as
    [handle_request] does, with [param_count = 0] and [out_handler = NULL]
    beforehand; a NULL [path] or a failed [strdup(path)] returns false at
    once. *)
Definition trie_match {H : Type} (root : TrieNode H) (path : option string)
  (o : oracle) : MatchResult H * oracle :=
  match path with
  | None => (mkMatchResult false None [], o)
  | Some p =>
      let (ok_copy, o1) := alloc o in
      if ok_copy then
        match match_loop (CStr.path_segments p) root [] with
        | None => (mkMatchResult false None [], o1)
        | Some (last, params) =>
            (mkMatchResult
               (match handler last with Some _ => true | None => false end)
               (handler last) params, o1)
        end
      else (mkMatchResult false None [], o1)
  end.

End Backend.

(** ** backend/include/libreavix.c: trie_match

    The [trie_insert] of this file is not embedded: its lines 500, 521 and
    534 assign a [TrieNode**] to a [TrieNode*] and a [TrieNode*] to a
    [TrieNode], so that the function has no meaning as C. *)

Module Legacy.

(** The loop of [trie_match]: exact match first, then the parameter child.
    [params] holds the entries below [*param_count]; the walk goes on
    through the parameter child also when the cap is reached.  The second
    component is [*param_count] as the loop leaves it, also on failure. *)
Fixpoint match_loop {H : Type} (segs : list string) (current : TrieNode H)
  (params : list PathParam) : option (TrieNode H) * list PathParam :=
  match segs with
  | [] => (Some current, params)
  | seg :: rest =>
      match find_child (children current) seg with
      | Some (_, hit, _) => match_loop rest hit params
      | None =>
          match param_child current with
          | Some p =>
              match_loop rest p
                (if (List.length params <? MAX_PARAMS)%nat
                 then params ++ [mkPathParam (CStr.skip1 (segment p)) seg]
                 else params)
          | None => (None, params)
          end
      end
  end.

(** [trie_match]: true whenever the walk reaches a node, whether or not
    that node has a handler.  [params0] is what the caller's array holds
    below the initial [*param_count]; [out_handler] keeps the caller's NULL
    when the walk fails or [strdup(path)] does. *)
Definition trie_match {H : Type} (root : TrieNode H) (path : option string)
  (params0 : list PathParam) (o : oracle) : MatchResult H * oracle :=
  match path with
  | None => (mkMatchResult false None params0, o)
  | Some p =>
      let (ok_copy, o1) := alloc o in
      if ok_copy then
        match match_loop (CStr.path_segments p) root params0 with
        | (None, params) => (mkMatchResult false None params, o1)
        | (Some last, params) => (mkMatchResult true (handler last) params, o1)
        end
      else (mkMatchResult false None params0, o1)
  end.

End Legacy.

(** ** The flat route table *)

(** [RouteEntry]: method, path and handler of one registered route. *)
Record RouteEntry (H : Type) : Type :=
  mkRouteEntry { re_method : string; re_path : string; re_handler : H }.

Arguments mkRouteEntry {H}.
Arguments re_method {H}.
Arguments re_path {H}.
Arguments re_handler {H}.

(** [strcmp(routes[i].method, method) == 0 && strcmp(routes[i].path, path) == 0] *)
Definition same_route {H : Type} (method path : string) (e : RouteEntry H) : bool :=
  CStr.streq (re_method e) method && CStr.streq (re_path e) path.

(** ** The router source file: router_match *)

Module RouterC.

(** The fields of [Router] that [router_match] reads. *)
Record Router (H : Type) : Type :=
  mkRouter { root : TrieNode H; routes : list (RouteEntry H) }.

Arguments mkRouter {H}.
Arguments root {H}.
Arguments routes {H}.

(** The [while (segment)] loop of [router_match]: static children first,
    then the parameter child.  [have_params] is [params != NULL]. *)
Fixpoint match_loop {H : Type} (have_params : bool) (segs : list string)
  (current : TrieNode H) (params : list PathParam)
  : option (TrieNode H) * list PathParam :=
  match segs with
  | [] => (Some current, params)
  | seg :: rest =>
      match find_child (children current) seg with
      | Some (_, hit, _) => match_loop have_params rest hit params
      | None =>
          match param_child current with
          | Some p =>
              match_loop have_params rest p
                (if have_params && (List.length params <? MAX_PARAMS)%nat
                 then params ++ [mkPathParam (CStr.skip1 (segment p)) seg]
                 else params)
          | None => (None, params)
          end
      end
  end.

(** [router_match(method, path, params, &param_count, &handler)]:
    [strdup(path)], [*param_count] is reset, the trie is walked, and when
    [method] is given the route table must hold an entry with the handler
    found and that method.  [handler_eqb] is the comparison of two handler
    pointers. *)
Definition router_match {H : Type} (handler_eqb : H -> H -> bool)
  (r : Router H) (method path : option string) (have_params : bool)
  (o : oracle) : MatchResult H * oracle :=
  match path with
  | None => (mkMatchResult false None [], o)
  | Some p =>
      let (ok_copy, o1) := alloc o in
      if ok_copy then
        match match_loop have_params (CStr.path_segments p) (root r) [] with
        | (None, params) => (mkMatchResult false None params, o1)
        | (Some last, params) =>
            match method with
            | Some m =>
                (mkMatchResult
                   (existsb
                      (fun e =>
                         match handler last with
                         | Some h => handler_eqb (re_handler e) h
                         | None => false
                         end && CStr.streq (re_method e) m)
                      (routes r))
                   (handler last) params, o1)
            | None => (mkMatchResult true (handler last) params, o1)
            end
        end
      else (mkMatchResult false None [], o1)
  end.

End RouterC.

(** ** Requests, responses and the state of one dispatch *)

Inductive CompressionType : Type :=
  | COMPRESSION_NONE
  | COMPRESSION_GZIP
  | COMPRESSION_BROTLI
  | COMPRESSION_DEFLATE.

(** The fields of [Request] used below: the parallel arrays
    [header_names]/[header_values] and [param_names]/[param_values] are
    lists of pairs. *)
Record Request : Type :=
  mkRequest {
    req_method : option string;
    req_path : option string;
    req_query : option string;
    req_body : option string;
    req_headers : list (string * string);
    req_params : list (string * string)
  }.

(** The fields of [Response] used below: [content] is the allocated block
    (NULL is [None]), of which the first [content_length] bytes are the
    body; [client] identifies the stream. *)
Record Response : Type :=
  mkResponse {
    status_code : Z;
    content : option string;
    content_length : Z;
    res_headers : list (string * string);
    client : option nat;
    headers_sent : bool;
    compression : CompressionType
  }.

(** The first [n] characters of a block. *)
Fixpoint str_take (n : nat) (s : string) : string :=
  match n, s with
  | S n', String c t => String c (str_take n' t)
  | _, _ => EmptyString
  end.

(** The body of a response: the first [content_length] bytes of [content]. *)
Definition body (r : Response) : string :=
  match content r with
  | Some block => str_take (Z.to_nat (content_length r)) block
  | None => EmptyString
  end.

(** The NUL character that ends a C string. *)
Definition NUL : ascii := zero.

(** The block [strdup(s)] returns: the characters and the terminator. *)
Definition strdup_block (s : string) : string := s ++ String NUL EmptyString.

(** [strlen(s)] as a [size_t]. *)
Definition strlen (s : string) : Z := Z.of_nat (String.length s).

Definition set_status (r : Response) (code : Z) : Response :=
  mkResponse code (content r) (content_length r) (res_headers r) (client r)
    (headers_sent r) (compression r).

Definition set_content (r : Response) (c : option string) (len : Z) : Response :=
  mkResponse (status_code r) c len (res_headers r) (client r)
    (headers_sent r) (compression r).

Definition set_headers (r : Response) (hs : list (string * string)) : Response :=
  mkResponse (status_code r) (content r) (content_length r) hs (client r)
    (headers_sent r) (compression r).

Definition set_headers_sent (r : Response) (b : bool) : Response :=
  mkResponse (status_code r) (content r) (content_length r) (res_headers r)
    (client r) b (compression r).

Definition set_params (q : Request) (ps : list (string * string)) : Request :=
  mkRequest (req_method q) (req_path q) (req_query q) (req_body q)
    (req_headers q) ps.

(** [size_t] arithmetic wraps at [2^64]. *)
Definition SIZE_MOD : Z := 2 ^ 64.

Definition wrap_size (z : Z) : Z := z mod SIZE_MOD.

(** The double quote, carriage return and line feed. *)
Definition DQ : string := String "034"%char EmptyString.
Definition CRLF : string := String "013"%char (String "010"%char EmptyString).

(** [%d] and [%zu], for a value in the range of its C type. *)
Definition decimal (z : Z) : string := NilEmpty.string_of_int (Z.to_int z).

(** [snprintf(buf, size, ...)] into a fresh buffer leaves at most [size - 1]
    characters of the formatted text. *)
Definition snprintf_fit (size : nat) (text : string) : string :=
  str_take (size - 1) text.

(** Overwrite the beginning of [block] with [bytes]; [None] when [block]
    is too short. *)
Fixpoint str_overwrite (block bytes : string) {struct bytes} : option string :=
  match bytes, block with
  | EmptyString, _ => Some block
  | String b bs, String _ t => option_map (String b) (str_overwrite t bs)
  | String _ _, EmptyString => None
  end.

(** [memcpy(block + off, bytes, strlen bytes)]; [None] when the copy would
    leave the block. *)
Fixpoint str_write (block : string) (off : nat) (bytes : string) {struct off}
  : option string :=
  match off, block with
  | O, _ => str_overwrite block bytes
  | S k, String c t => option_map (String c) (str_write t k bytes)
  | S _, EmptyString => None
  end.

(** [n] NUL bytes. *)
Fixpoint nul_bytes (n : nat) : string :=
  match n with
  | O => EmptyString
  | S k => String NUL (nul_bytes k)
  end.

(** The block [realloc(old, size)] returns on success: the old bytes up to
    the smaller of the two sizes.  What lies beyond the old bytes is
    indeterminate in C; the model writes NUL there. *)
Definition realloc_block (old : option string) (size : nat) : string :=
  let kept := match old with Some b => str_take size b | None => EmptyString end in
  kept ++ nul_bytes (size - String.length kept).

(** ** backend/include/libreavix.c: request and response helpers *)

Module LegacyHttp.

(** [req_get_header]: the value of the first header whose name equals
    [header_key] under [strcasecmp]. *)
Fixpoint lookup_nocase (key : string) (entries : list (string * string))
  : option string :=
  match entries with
  | [] => None
  | (name, value) :: rest =>
      if (CStr.strcasecmp name key =? 0)%Z then Some value
      else lookup_nocase key rest
  end.

Definition req_get_header (request : option Request) (header_key : option string)
  : option string :=
  match request, header_key with
  | Some q, Some k => lookup_nocase k (req_headers q)
  | _, _ => None
  end.

(** [req_get_param]: the same loop over the captured path parameters. *)
Definition req_get_param (request : option Request) (param_name : option string)
  : option string :=
  match request, param_name with
  | Some q, Some k => lookup_nocase k (req_params q)
  | _, _ => None
  end.

(** [res_set_header] on a response that is not NULL.  Both arrays are
    reallocated before either result is tested.  When both calls succeed
    the header is appended; when both fail nothing changes.  When exactly
    one fails, the source frees the array that was reallocated while the
    response still refers to it (lines 216-220): the response is left
    with a freed array, which no [Response] stands for, and the outcome is
    [None]. *)
Definition res_set_header (r : Response) (name value : option string) (o : oracle)
  : option (Response * oracle) :=
  match name, value with
  | Some n, Some v =>
      let (ok_names, o1) := alloc o in
      let (ok_values, o2) := alloc o1 in
      match ok_names, ok_values with
      | true, true => Some (set_headers r (res_headers r ++ [(n, v)]), o2)
      | false, false => Some (r, o2)
      | _, _ => None
      end
  | _, _ => Some (r, o)
  end.

(** [res_send_json]: sets the status to 200, replaces the content by a
    copy of [json_body] and adds the content type. *)
Definition res_send_json (r : Response) (json_body : option string) (o : oracle)
  : option (Response * oracle) :=
  match json_body with
  | None => Some (r, o)
  | Some j =>
      let r1 := set_status r 200 in
      let r2 := set_content r1 (Some (strdup_block j)) (strlen j) in
      res_set_header r2 (Some "Content-Type") (Some "application/json") o
  end.

(** The text [snprintf] formats for an error body. *)
Definition error_json (code : Z) (message : string) : string :=
  "{" ++ DQ ++ "error" ++ DQ ++ ":{" ++ DQ ++ "code" ++ DQ ++ ":"
    ++ decimal code ++ "," ++ DQ ++ "message" ++ DQ ++ ":" ++ DQ
    ++ message ++ DQ ++ "}}".

(** [res_send_error]: stores [code], formats the body into a 512-byte
    buffer and hands it to [res_send_json]. *)
Definition res_send_error (r : Response) (code : Z) (message : option string)
  (o : oracle) : option (Response * oracle) :=
  match message with
  | None => Some (r, o)
  | Some m =>
      let r1 := set_status r code in
      let json := snprintf_fit 512 (error_json code m) in
      res_send_json r1 (Some json) o
  end.

(** [res_write(res, data, len)].  [data] is the buffer behind the pointer.
    The outer [None] stands for undefined behaviour: [memcpy] reading past
    [data], or a store past the reallocated block. *)
Definition res_write (res : option Response) (data : option string) (len : Z)
  (o : oracle) : option (bool * option Response * oracle) :=
  match res, data with
  | Some r, Some d =>
      let size := wrap_size (content_length r + len + 1) in
      let (ok, o1) := alloc o in
      if ok then
        if (Z.of_nat (String.length d) <? len)%Z then None
        else
          let block := realloc_block (content r) (Z.to_nat size) in
          match str_write block (Z.to_nat (content_length r))
                  (str_take (Z.to_nat len) d) with
          | None => None
          | Some block1 =>
              let new_len := wrap_size (content_length r + len) in
              match str_write block1 (Z.to_nat new_len) (String NUL EmptyString) with
              | None => None
              | Some block2 =>
                  Some (true, Some (set_content r (Some block2) new_len), o1)
              end
          end
      else Some (false, Some r, o1)
  | _, _ => Some (false, res, o)
  end.

End LegacyHttp.

(** ** backend/src/libreavix.c: the server state and the dispatch pipeline *)

(** [ClientContext] *)
Record ClientContext : Type :=
  mkClientContext {
    stream : nat;
    is_websocket : bool;
    websocket_connected : bool
  }.

(** Every [uv_write] in order: the stream and the bytes handed to it. *)
Definition Wire : Type := list (nat * string).

(** What one stage of the pipeline can see and change: the request, the
    response, the bytes written so far and the allocator. *)
Record Exchange : Type :=
  mkExchange {
    ex_req : Request;
    ex_res : Response;
    ex_wire : Wire;
    ex_oracle : oracle
  }.

(** A middleware, a plugin hook or a route handler: arbitrary code run on
    the exchange.  The [next] continuation [handle_request] passes to a
    middleware has an empty body, so calling it changes nothing.  The route
    table, plugin list and middleware list are fixed during dispatch. *)
Definition Stage : Type := Exchange -> Exchange.

(** [Plugin]; [init] runs at registration only. *)
Record Plugin : Type :=
  mkPlugin {
    plugin_name : string;
    pre_handler : option Stage;
    post_handler : option Stage
  }.

(** The fields of the global [reavix_state] used below.  [root_node] is
    [None] once a failed [realloc] inside [trie_insert] has left a node
    with [child_count] above its NULL [children] array. *)
Record reavix_state (H : Type) : Type :=
  mk_reavix_state {
    routes : list (RouteEntry H);
    route_capacity : nat;
    root_node : option (TrieNode H);
    plugins : list Plugin;
    middleware : list Stage;
    clients : list ClientContext
  }.

Arguments mk_reavix_state {H}.
Arguments routes {H}.
Arguments route_capacity {H}.
Arguments root_node {H}.
Arguments plugins {H}.
Arguments middleware {H}.
Arguments clients {H}.

(** The stages of [handle_request], for the record of what ran. *)
Inductive StageId : Type :=
  | MiddlewareAt (i : nat)
  | PreHandlerAt (i : nat)
  | RouteHandlerCall
  | NotFoundReply
  | PostHandlerAt (i : nat).

(** Each stage that ran, with the exchange as it left it. *)
Definition Trace : Type := list (StageId * Exchange).


Module Server.

(** The state [reavix_init(capacity)] leaves when it returns true: no
    route, plugin, middleware or client, and the empty root. *)
Definition init_state {H : Type} (capacity : nat) : reavix_state H :=
  mk_reavix_state [] capacity (Some empty_root) [] [] [].

(** [reavix_init(max_routes)]: [None] is the false return, for
    [max_routes == 0] or a failed [malloc] of the table. *)
Definition reavix_init {H : Type} (max_routes : nat) (o : oracle)
  : option (reavix_state H) * oracle :=
  match max_routes with
  | O => (None, o)
  | _ =>
      let (ok_table, o1) := alloc o in
      if ok_table then (Some (init_state max_routes), o1) else (None, o1)
  end.

(** [reavix_route(method, path, handler)]: capacity test, duplicate scan,
    append to the table, then [trie_insert]; the oracle answers the
    allocations inside [trie_insert].  The outcome is [None] when
    [trie_insert] has to walk a trie that an earlier call left with a
    NULL [children] array. *)
Definition reavix_route {H : Type} (st : reavix_state H)
  (method path : option string) (h : option H) (o : oracle)
  : option (bool * reavix_state H * oracle) :=
  match method, path, h with
  | Some m, Some p, Some f =>
      if (route_capacity st <=? List.length (routes st))%nat
      then Some (false, st, o)
      else if existsb (same_route m p) (routes st) then Some (false, st, o)
      else
        let table := (routes st ++ [mkRouteEntry m p f])%list in
        ' root <- root_node st ;;
        let '(ok, root', o') := Backend.trie_insert root p (Some f) o in
        Some (ok,
              mk_reavix_state table (route_capacity st) root' (plugins st)
                (middleware st) (clients st),
              o')
  | _, _, _ => Some (false, st, o)
  end.

(** [get_status_text] *)
Definition get_status_text (code : Z) : string :=
  if (code =? 200)%Z then "OK"
  else if (code =? 201)%Z then "Created"
  else if (code =? 204)%Z then "No Content"
  else if (code =? 400)%Z then "Bad Request"
  else if (code =? 401)%Z then "Unauthorized"
  else if (code =? 403)%Z then "Forbidden"
  else if (code =? 404)%Z then "Not Found"
  else if (code =? 500)%Z then "Internal Server Error"
  else if (code =? 503)%Z then "Service Unavailable"
  else "Unknown".

(** [find_client_context(stream)]; a NULL stream belongs to no client. *)
Definition find_client_context (cs : list ClientContext) (s : option nat)
  : option ClientContext :=
  match s with
  | Some id => find (fun c => Nat.eqb (stream c) id) cs
  | None => None
  end.

(** The text the successive [snprintf] calls of [send_response] format:
    status line, one line per header, [Content-Length] and the blank line. *)
Definition header_text (r : Response) : string :=
  "HTTP/1.1 " ++ decimal (status_code r) ++ " " ++ get_status_text (status_code r)
    ++ CRLF
    ++ String.concat ""
         (map (fun nv => fst nv ++ ": " ++ snd nv ++ CRLF) (res_headers r))
    ++ "Content-Length: " ++ decimal (content_length r) ++ CRLF ++ CRLF.

(** What [uv_buf_init(headers, headers_len)] hands over from the 4096-byte
    [headers] array: the whole text when it is shorter than the array, the
    first 4095 characters and the terminator when it is exactly 4096 long;
    [None] when it is longer, where the source reads and writes past the
    array. *)
Definition header_bytes (r : Response) : option string :=
  let text := header_text r in
  let n := String.length text in
  if (n <? 4096)%nat then Some text
  else if (n =? 4096)%nat then Some (str_take 4095 text ++ String NUL EmptyString)
  else None.

(** [send_response]: nothing when the headers were already sent or the
    client is unknown; otherwise the header block, then the body when
    [content_length > 0] and [content] is not NULL, and the latch is set. *)
Definition send_response (cs : list ClientContext) (r : Response) (w : Wire)
  : option (Response * Wire) :=
  if headers_sent r then Some (r, w)
  else
    match find_client_context cs (client r) with
    | None => Some (r, w)
    | Some ctx =>
        match header_bytes r with
        | None => None
        | Some hb =>
            let w1 := (w ++ [(stream ctx, hb)])%list in
            let w2 :=
              match content r with
              | Some _ =>
                  if (0 <? content_length r)%Z
                  then (w1 ++ [(stream ctx, body r)])%list
                  else w1
              | None => w1
              end in
            Some (set_headers_sent r true, w2)
        end
    end.

Section WithZlib.

(** What zlib's [deflate] makes of the input for a compression type,
    [None] when [compress_data] fails (allocation or zlib error). *)
Variable deflate : CompressionType -> string -> option string.

(** [compress_data(input, input_len, &output, &output_len, type)] *)
Definition compress_data (input : option string) (input_len : Z)
  (type : CompressionType) : option string :=
  match type, input with
  | COMPRESSION_NONE, _ => None
  | _, None => None
  | _, Some block => deflate type (str_take (Z.to_nat input_len) block)
  end.

(** The [Content-Encoding] token chosen by the [switch]. *)
Definition encoding_token (type : CompressionType) : string :=
  match type with
  | COMPRESSION_GZIP => "gzip"
  | COMPRESSION_BROTLI => "br"
  | COMPRESSION_DEFLATE => "deflate"
  | COMPRESSION_NONE => ""
  end.

(** The [if (res->_internal.compression != COMPRESSION_NONE)] block of
    [res_send_json]: on success the body is replaced by the compressed
    bytes and [Content-Encoding] is added; on failure nothing changes.
    [None] as for [res_set_header]. *)
Definition compress_body (r : Response) (o : oracle) : option (Response * oracle) :=
  match compression r with
  | COMPRESSION_NONE => Some (r, o)
  | type =>
      match compress_data (content r) (content_length r) type with
      | Some packed =>
          LegacyHttp.res_set_header
            (set_content r (Some packed) (strlen packed))
            (Some "Content-Encoding") (Some (encoding_token type)) o
      | None => Some (r, o)
      end
  end.

(** [res_send_json] of [backend/src/libreavix.c]: the content is replaced,
    the content type added, the body compressed when asked for, and the
    response sent.  The status is not assigned.  [None] as for
    [res_set_header] and [send_response]. *)
Definition res_send_json (cs : list ClientContext) (r : Response)
  (json : option string) (w : Wire) (o : oracle)
  : option (Response * Wire * oracle) :=
  match json with
  | None => Some (r, w, o)
  | Some j =>
      let r1 := set_content r (Some (strdup_block j)) (strlen j) in
      ' (r2, o2) <- LegacyHttp.res_set_header r1 (Some "Content-Type")
                      (Some "application/json") o ;;
      ' (r3, o3) <- compress_body r2 o2 ;;
      ' (r4, w4) <- send_response cs r3 w ;;
      Some (r4, w4, o3)
  end.

(** [res_send_error] as [handle_request] calls it.  The function is
    defined in [backend/include/libreavix.c] only (lines 258-265): it
    stores [code], formats the body into a 512-byte buffer and calls
    [res_send_json], which in the program that holds [handle_request] is
    the [res_send_json] of [backend/src/libreavix.c] above. *)
Definition res_send_error (cs : list ClientContext) (r : Response) (code : Z)
  (message : option string) (w : Wire) (o : oracle)
  : option (Response * Wire * oracle) :=
  match message with
  | None => Some (r, w, o)
  | Some m =>
      let r1 := set_status r code in
      let json := snprintf_fit 512 (LegacyHttp.error_json code m) in
      res_send_json cs r1 (Some json) w o
  end.

(** The middleware loop: [false] is the [return] taken when a middleware
    leaves [headers_sent] set. *)
Fixpoint run_middleware (ms : list Stage) (i : nat) (ex : Exchange) (tr : Trace)
  : bool * Exchange * Trace :=
  match ms with
  | [] => (true, ex, tr)
  | m :: rest =>
      let ex' := m ex in
      let tr' := (tr ++ [(MiddlewareAt i, ex')])%list in
      if headers_sent (ex_res ex') then (false, ex', tr')
      else run_middleware rest (S i) ex' tr'
  end.

(** The pre-handler loop over the plugins; a plugin without [pre_handler]
    is skipped. *)
Fixpoint run_pre_handlers (ps : list Plugin) (i : nat) (ex : Exchange) (tr : Trace)
  : bool * Exchange * Trace :=
  match ps with
  | [] => (true, ex, tr)
  | p :: rest =>
      match pre_handler p with
      | Some hook =>
          let ex' := hook ex in
          let tr' := (tr ++ [(PreHandlerAt i, ex')])%list in
          if headers_sent (ex_res ex') then (false, ex', tr')
          else run_pre_handlers rest (S i) ex' tr'
      | None => run_pre_handlers rest (S i) ex tr
      end
  end.

(** The post-handler loop; nothing is tested between the hooks. *)
Fixpoint run_post_handlers (ps : list Plugin) (i : nat) (ex : Exchange) (tr : Trace)
  : Exchange * Trace :=
  match ps with
  | [] => (ex, tr)
  | p :: rest =>
      match post_handler p with
      | Some hook =>
          let ex' := hook ex in
          run_post_handlers rest (S i) ex' (tr ++ [(PostHandlerAt i, ex')])%list
      | None => run_post_handlers rest (S i) ex tr
      end
  end.

(** The route step: [trie_match] on [req->path]; with a match and a handler
    the captured parameters are stored in the request and the handler runs,
    otherwise [res_send_error(res, 404, "Not Found")].  [None] when the
    trie was left with a NULL [children] array, and as for
    [res_send_error]. *)
Definition route_step (st : reavix_state Stage) (ex : Exchange) (tr : Trace)
  : option (Exchange * Trace) :=
  ' root <- root_node st ;;
  let (m, o1) := Backend.trie_match root (req_path (ex_req ex)) (ex_oracle ex) in
  match matched m, out_handler m with
  | true, Some route_handler =>
      let q := set_params (ex_req ex)
                 (map (fun p => (pp_name p, pp_value p)) (out_params m)) in
      let ex' := route_handler (mkExchange q (ex_res ex) (ex_wire ex) o1) in
      Some (ex', (tr ++ [(RouteHandlerCall, ex')])%list)
  | _, _ =>
      ' (r, w, o2) <- res_send_error (clients st) (ex_res ex) 404
                        (Some "Not Found") (ex_wire ex) o1 ;;
      let ex' := mkExchange (ex_req ex) r w o2 in
      Some (ex', (tr ++ [(NotFoundReply, ex')])%list)
  end.

(** [handle_request(req, res)] *)
Definition handle_request (st : reavix_state Stage) (ex : Exchange)
  : option (Exchange * Trace) :=
  match run_middleware (middleware st) 0 ex [] with
  | (false, ex1, tr1) => Some (ex1, tr1)
  | (true, ex1, tr1) =>
      match run_pre_handlers (plugins st) 0 ex1 tr1 with
      | (false, ex2, tr2) => Some (ex2, tr2)
      | (true, ex2, tr2) =>
          ' (ex3, tr3) <- route_step st ex2 tr2 ;;
          Some (run_post_handlers (plugins st) 0 ex3 tr3)
      end
  end.

End WithZlib.

(** A value stored into a [char]: its low eight bits. *)
Definition byte_of (z : Z) : ascii := ascii_of_nat (Z.to_nat (z mod 256)).

(** The frame [reavix_ws_send] builds for [message], [None] where it frees
    the frame and returns without writing. *)
Definition ws_frame (message : string) : option string :=
  let msg_len := strlen message in
  if (msg_len <=? 125)%Z then
    Some (String (byte_of 129) (String (byte_of msg_len) message))
  else if (msg_len <=? 65535)%Z then
    Some (String (byte_of 129)
           (String (byte_of 126)
             (String (byte_of (Z.land (Z.shiftr msg_len 8) 255))
               (String (byte_of (Z.land msg_len 255)) message))))
  else None.

(** [reavix_ws_send(res, message)]: nothing is written unless the response
    has a client that is a WebSocket connection. *)
Definition reavix_ws_send (cs : list ClientContext) (res : option Response)
  (message : option string) (w : Wire) : Wire :=
  match res, message with
  | Some r, Some m =>
      match client r with
      | None => w
      | Some _ =>
          match find_client_context cs (client r) with
          | Some ctx =>
              if is_websocket ctx then
                match ws_frame m with
                | Some frame => (w ++ [(stream ctx, frame)])%list
                | None => w
                end
              else w
          | None => w
          end
      end
  | _, _ => w
  end.

End Server.

(** ** The xxHash32 function of the xxhash library

    [ipc.c] calls [XXH32] from [<xxhash.h>]; it is written here from the
    published algorithm, on a list of bytes. *)

Module XXHash.

Definition PRIME32_1 : Z := 2654435761.
Definition PRIME32_2 : Z := 2246822519.
Definition PRIME32_3 : Z := 3266489917.
Definition PRIME32_4 : Z := 668265263.
Definition PRIME32_5 : Z := 374761393.

Definition u32 (z : Z) : Z := z mod 2 ^ 32.

Definition rotl32 (x r : Z) : Z :=
  u32 (Z.lor (Z.shiftl x r) (Z.shiftr x (32 - r))).

Definition read32le (b0 b1 b2 b3 : Z) : Z :=
  b0 + 256 * b1 + 65536 * b2 + 16777216 * b3.

Definition round (acc input : Z) : Z :=
  u32 (rotl32 (u32 (acc + input * PRIME32_2)) 13 * PRIME32_1).

Fixpoint consume_stripes (l : list Z) (v : Z * Z * Z * Z)
  : (Z * Z * Z * Z) * list Z :=
  match l with
  | a0 :: a1 :: a2 :: a3 :: b0 :: b1 :: b2 :: b3
      :: c0 :: c1 :: c2 :: c3 :: d0 :: d1 :: d2 :: d3 :: rest =>
      let '(v1, v2, v3, v4) := v in
      consume_stripes rest
        (round v1 (read32le a0 a1 a2 a3), round v2 (read32le b0 b1 b2 b3),
         round v3 (read32le c0 c1 c2 c3), round v4 (read32le d0 d1 d2 d3))
  | _ => (v, l)
  end.

Fixpoint consume_words (l : list Z) (h : Z) : Z * list Z :=
  match l with
  | a :: b :: c :: d :: rest =>
      consume_words rest
        (u32 (rotl32 (u32 (h + read32le a b c d * PRIME32_3)) 17 * PRIME32_4))
  | _ => (h, l)
  end.

Fixpoint consume_bytes (l : list Z) (h : Z) : Z :=
  match l with
  | b :: rest =>
      consume_bytes rest (u32 (rotl32 (u32 (h + b * PRIME32_5)) 11 * PRIME32_1))
  | [] => h
  end.

Definition avalanche (h : Z) : Z :=
  let h1 := Z.lxor h (Z.shiftr h 15) in
  let h2 := u32 (h1 * PRIME32_2) in
  let h3 := Z.lxor h2 (Z.shiftr h2 13) in
  let h4 := u32 (h3 * PRIME32_3) in
  Z.lxor h4 (Z.shiftr h4 16).

Definition XXH32 (input : list Z) (seed : Z) : Z :=
  let len := Z.of_nat (List.length input) in
  let '(h0, tail0) :=
    if (16 <=? len)%Z then
      let '((v1, v2, v3, v4), rest) :=
        consume_stripes input
          (u32 (seed + PRIME32_1 + PRIME32_2), u32 (seed + PRIME32_2),
           u32 seed, u32 (seed - PRIME32_1)) in
      (u32 (rotl32 v1 1 + rotl32 v2 7 + rotl32 v3 12 + rotl32 v4 18), rest)
    else (u32 (seed + PRIME32_5), input) in
  let h1 := u32 (h0 + len) in
  let '(h2, tail1) := consume_words tail0 h1 in
  avalanche (consume_bytes tail1 h2).

End XXHash.

(** ** src/core/ipc.c: the bump arena *)

Module Ipc.

Definition IPC_MAGIC : Z := 1380270422.          (* 0x52454156 *)
Definition IPC_BUFFER_SIZE : Z := Z.shiftl 1 22.

(** [uint8_t buffer[IPC_BUFFER_SIZE]]: the byte found at each index of the
    array.  Only the indices from 0 to [IPC_BUFFER_SIZE - 1] belong to it:
    every store and every read below is checked against them, and one that
    leaves the array is undefined ([None]). *)
Definition Buffer : Type := Z -> Z.

Record IPCArena : Type :=
  mkIPCArena { write_offset : Z; read_offset : Z; buffer : Buffer }.

(** [ipc_arena_init] *)
Definition ipc_arena_init : IPCArena := mkIPCArena 0 0 (fun _ => 0).

(** The [len] bytes from offset [off] lie inside the array. *)
Definition within (off len : Z) : bool :=
  (0 <=? off) && (0 <=? len) && (off + len <=? IPC_BUFFER_SIZE).

(** The array after [n] bytes from [off] were set to [c]. *)
Definition filled (b : Buffer) (off c n : Z) : Buffer :=
  fun i => if (off <=? i) && (i <? off + n) then c else b i.

(** [memset(buffer + off, c, n)] *)
Definition memset (b : Buffer) (off c n : Z) : option Buffer :=
  if within off n then Some (filled b off c n) else None.

(** The array after the four bytes of [v] were stored at [off],
    little-endian as on x86-64. *)
Definition with32 (b : Buffer) (off v : Z) : Buffer :=
  fun i =>
    if i =? off then v mod 256
    else if i =? off + 1 then (v / 256) mod 256
    else if i =? off + 2 then (v / 65536) mod 256
    else if i =? off + 3 then (v / 16777216) mod 256
    else b i.

(** A [uint32_t] store at byte offset [off]. *)
Definition store32 (b : Buffer) (off v : Z) : option Buffer :=
  if within off 4 then Some (with32 b off v) else None.

(** The little-endian value of the four bytes at [off]. *)
Definition word_at (b : Buffer) (off : Z) : Z :=
  b off + 256 * b (off + 1) + 65536 * b (off + 2) + 16777216 * b (off + 3).

(** A [uint32_t] load at byte offset [off]. *)
Definition load32 (b : Buffer) (off : Z) : option Z :=
  if within off 4 then Some (word_at b off) else None.

(** The [n] bytes found from [off] on. *)
Definition bytes_at (b : Buffer) (off : Z) (n : nat) : list Z :=
  map (fun k => b (off + Z.of_nat k)) (seq 0 n).

(** Reading the [len] bytes from offset [off]. *)
Definition read_bytes (b : Buffer) (off len : Z) : option (list Z) :=
  if within off len then Some (bytes_at b off (Z.to_nat len)) else None.

(** The array after the bytes of [payload] were copied to [off]. *)
Fixpoint with_bytes (b : Buffer) (off : Z) (payload : list Z) : Buffer :=
  match payload with
  | [] => b
  | x :: rest =>
      with_bytes (fun i => if i =? off then x else b i) (off + 1) rest
  end.

(** The caller filling the region it was given: [memcpy(ptr, payload, n)]. *)
Definition write_bytes (b : Buffer) (off : Z) (payload : list Z)
  : option Buffer :=
  if within off (Z.of_nat (List.length payload))
  then Some (with_bytes b off payload)
  else None.

(** [(size + 15) & ~15] in [size_t]. *)
Definition aligned (size : Z) : Z :=
  Z.land (wrap_size (size + 15)) (wrap_size (Z.lnot 15)).

(** What a call returns and leaves: the pointer as an offset into [buffer]
    ([None] is NULL) and the arena afterwards. *)
Record Allocation : Type :=
  mkAllocation { ret_ptr : option Z; arena_after : IPCArena }.

(** The capacity test of [ipc_arena_allocate]:
    [current_offset + aligned_size > IPC_BUFFER_SIZE]. *)
Definition refused (arena : IPCArena) (size : Z) : bool :=
  IPC_BUFFER_SIZE <? wrap_size (write_offset arena + aligned size).

(** The ranges [(offset, length)] a call that passes the capacity test
    stores to, in program order. *)
Definition stores (arena : IPCArena) (size : Z) : list (Z * Z) :=
  let header := write_offset arena in
  [(header, 4); (header + 4, 4); (header + 12, 4); (header + 16, size);
   (header + 8, 4)].

Section WithHash.

(** [XXH32(input, length, seed)] of the xxhash library. *)
Variable XXH32 : list Z -> Z -> Z.

(** [ipc_arena_allocate(arena, size)].  The source line reads
    [n(size + 15) & ~ 15]; the stray [n] is taken as a typing slip.  The
    outcome is [None] when one of the stores leaves the array. *)
Definition ipc_arena_allocate (arena : IPCArena) (size : Z) : option Allocation :=
  let aligned_size := aligned size in
  let current_offset := write_offset arena in
  if IPC_BUFFER_SIZE <? wrap_size (current_offset + aligned_size) then
    Some (mkAllocation None arena)
  else
    let header := current_offset in
    ' b0 <- store32 (buffer arena) header IPC_MAGIC ;;
    ' b1 <- store32 b0 (header + 4) (size mod 2 ^ 32) ;;
    ' b3 <- store32 b1 (header + 12) 0 ;;
    let ptr := current_offset + 16 in
    ' bz <- memset b3 ptr 0 size ;;
    ' input <- read_bytes bz ptr size ;;
    let sum := XXH32 input IPC_MAGIC in
    ' b2 <- store32 bz (header + 8) sum ;;
    Some (mkAllocation (Some ptr)
            (mkIPCArena (wrap_size (current_offset + aligned_size + 16))
               (read_offset arena) b2)).

(** The calls [ipc_arena_allocate(arena, s)] for each [s] of [sizes] in
    turn: the pointer and the size of every call that did not return
    NULL, and the arena after the last call. *)
Fixpoint allocate_all (arena : IPCArena) (sizes : list Z)
  : option (list (Z * Z) * IPCArena) :=
  match sizes with
  | [] => Some ([], arena)
  | s :: rest =>
      ' a <- ipc_arena_allocate arena s ;;
      ' (got, final) <- allocate_all (arena_after a) rest ;;
      Some (match ret_ptr a with
            | Some p => (p, s) :: got
            | None => got
            end, final)
  end.

(** The checksum field of the header that precedes the payload at [ptr]. *)
Definition stored_checksum (b : Buffer) (ptr : Z) : option Z :=
  load32 b (ptr - 8).

End WithHash.

(** A range [(offset, length)] lies inside the buffer. *)
Definition in_buffer (range : Z * Z) : Prop :=
  0 <= fst range /\ fst range + snd range <= IPC_BUFFER_SIZE.

(** Two ranges [(offset, length)] share no byte. *)
Definition disjoint (r1 r2 : Z * Z) : Prop :=
  fst r1 + snd r1 <= fst r2 \/ fst r2 + snd r2 <= fst r1.

End Ipc.

(** ** backend/include/libreavix.c: the flat router *)

Module LegacyRouter.

(** The file-level [routes], [route_count] and [route_capacity]: [routes]
    is NULL ([None]) until [reavix_init] succeeds, and [route_count] is the
    length of the list. *)
Record RouteTable (H : Type) : Type :=
  mkRouteTable { lt_routes : option (list (RouteEntry H)); lt_capacity : nat }.

Arguments mkRouteTable {H}.
Arguments lt_routes {H}.
Arguments lt_capacity {H}.

(** The table before [reavix_init]. *)
Definition no_table {H : Type} : RouteTable H := mkRouteTable None 0.

(** The entries below [route_count]. *)
Definition entries {H : Type} (t : RouteTable H) : list (RouteEntry H) :=
  match lt_routes t with
  | Some l => l
  | None => []
  end.

(** [reavix_init(max_routes)]: false for [max_routes == 0], for a router
    that is already initialised, and when [malloc] fails. *)
Definition reavix_init {H : Type} (t : RouteTable H) (max_routes : nat)
  (o : oracle) : bool * RouteTable H * oracle :=
  match max_routes with
  | O => (false, t, o)
  | _ =>
      match lt_routes t with
      | Some _ => (false, t, o)
      | None =>
          let (ok, o1) := alloc o in
          if ok then (true, mkRouteTable (Some []) max_routes, o1)
          else (false, t, o1)
      end
  end.

(** [reavix_route(method, path, handler)]: the table alone is extended;
    both copies are allocated before either result is tested. *)
Definition reavix_route {H : Type} (t : RouteTable H)
  (method path : option string) (h : option H) (o : oracle)
  : bool * RouteTable H * oracle :=
  match method, path, h with
  | Some m, Some p, Some f =>
      if (lt_capacity t <=? List.length (entries t))%nat then (false, t, o)
      else if existsb (same_route m p) (entries t) then (false, t, o)
      else
        let (ok_method, o1) := alloc o in
        let (ok_path, o2) := alloc o1 in
        if ok_method && ok_path then
          (true,
           mkRouteTable (Some (entries t ++ [mkRouteEntry m p f])%list)
             (lt_capacity t),
           o2)
        else (false, t, o2)
  | _, _, _ => (false, t, o)
  end.

(** The scan of [dispatch_request(method, path, req, res)]: the handler of
    the first entry with that method and path, which is then invoked;
    [None] is the false return. *)
Definition dispatch_request {H : Type} (t : RouteTable H) (method path : string)
  : option H :=
  option_map re_handler (find (same_route method path) (entries t)).

End LegacyRouter.

(** ** backend/include/libreavix.c: header test and file reply *)

Module LegacyFile.



(** [strrchr(s, c)] for a character [c] other than NUL: the text from the
    last [c] on, NULL when there is none. *)
Fixpoint strrchr (s : string) (c : ascii) : option string :=
  match s with
  | EmptyString => None
  | String a t =>
      match strrchr t c with
      | Some suffix => Some suffix
      | None => if Ascii.eqb a c then Some s else None
      end
  end.

(** The content type [res_send_file] derives from the file name. *)
Definition content_type_of (filepath : string) : string :=
  match strrchr filepath "."%char with
  | Some ext =>
      if CStr.streq ext ".html" then "text/html"
      else if CStr.streq ext ".css" then "text/css"
      else if CStr.streq ext ".js" then "text/javascript"
      else "application/octet-stream"
  | None => "application/octet-stream"
  end.

(** What the system answers to the calls of one [res_send_file]: whether
    [open] succeeds, the [st_size] from [fstat] ([None] when it fails), and
    the result of each successive [read]: [None] for a result [<= 0],
    otherwise the bytes delivered. *)
Record FileWorld : Type :=
  mkFileWorld {
    fw_open : bool;
    fw_stat : option Z;
    fw_reads : list (option string)
  }.

(** [10 * 1024 * 1024] *)
Definition MAX_FILE_SIZE : Z := 10 * 1024 * 1024.

(** The loop [while (bytes_read < st_size)]: [remaining] is
    [st_size - bytes_read]; a [read] delivers at most that many bytes.
    The result is the buffer when it was filled, [None] when a [read]
    returned [<= 0], and the reads not yet performed. *)
Fixpoint read_loop (reads : list (option string)) (remaining : nat) (acc : string)
  {struct reads} : option string * list (option string) :=
  match remaining with
  | O => (Some acc, reads)
  | S _ =>
      match reads with
      | [] => (None, [])
      | None :: rest => (None, rest)
      | Some chunk :: rest =>
          match str_take remaining chunk with
          | EmptyString => (None, rest)
          | got =>
              read_loop rest (remaining - String.length got) (acc ++ got)
          end
      end
  end.

(** [res_send_file(response, filepath)] on a response that is not NULL.
    The first component is the response with the allocator, [None] as for
    [res_set_header]; the second is what is left of the reads. *)
Definition res_send_file (r : Response) (filepath : option string)
  (world : FileWorld) (o : oracle)
  : option (Response * oracle) * list (option string) :=
  match filepath with
  | None => (Some (r, o), fw_reads world)
  | Some path =>
      if negb (fw_open world) then
        (LegacyHttp.res_send_error r 404 (Some "File not found") o,
         fw_reads world)
      else
        match fw_stat world with
        | None =>
            (LegacyHttp.res_send_error r 500 (Some "File stat failed") o,
             fw_reads world)
        | Some st_size =>
            if (MAX_FILE_SIZE <? st_size)%Z then
              (LegacyHttp.res_send_error r 413 (Some "File too large") o,
               fw_reads world)
            else
              let (ok, o1) := alloc o in
              if negb ok then
                (LegacyHttp.res_send_error r 500
                   (Some "Memory allocation failed") o1,
                 fw_reads world)
              else
                match read_loop (fw_reads world) (Z.to_nat st_size) EmptyString with
                | (None, unread) =>
                    (LegacyHttp.res_send_error r 500 (Some "File read failed") o1,
                     unread)
                | (Some file_content, unread) =>
                    let r1 := set_content (set_status r 200) (Some file_content)
                                (wrap_size st_size) in
                    (LegacyHttp.res_set_header r1 (Some "Content-Type")
                       (Some (content_type_of path)) o1,
                     unread)
                end
        end
  end.

End LegacyFile.

(** ** backend/src/libreavix.c: middleware registration *)

Module Registry.

Definition MAX_MIDDLEWARE : nat := 10.

(** [reavix_use(middleware)]: ignored once [MAX_MIDDLEWARE] are
    registered. *)
Definition reavix_use {H : Type} (st : reavix_state H) (m : Stage)
  : reavix_state H :=
  if (MAX_MIDDLEWARE <=? List.length (middleware st))%nat then st
  else
    mk_reavix_state (routes st) (route_capacity st) (root_node st) (plugins st)
      (middleware st ++ [m])%list (clients st).

End Registry.

(** ** Notions used in the statements *)

(** Two names are equal up to ASCII case. *)
Definition eq_nocase (a b : string) : Prop :=
  CStr.lower_codes a = CStr.lower_codes b.

(** No entry of the list has a name equal to [key] up to case. *)
Definition no_name_matches (key : string) (entries : list (string * string)) : Prop :=
  Forall (fun nv => ~ eq_nocase (fst nv) key) entries.

(** The two reallocations of one [res_set_header] call, answered from [o],
    both succeed or both fail. *)
Definition reallocs_agree (o : oracle) : Prop :=
  fst (alloc o) = fst (alloc (snd (alloc o))).

(** The first [content_length] bytes of the response exist in its block. *)
Definition wf_response (r : Response) : Prop :=
  0 <= content_length r /\
  match content r with
  | Some block => content_length r <= Z.of_nat (String.length block)
  | None => content_length r = 0
  end.

(** The characters of a block from position [n] on. *)
Fixpoint str_drop (n : nat) (s : string) : string :=
  match n, s with
  | S n', String _ t => str_drop n' t
  | _, _ => s
  end.


(** A middleware or a pre-handler hook: the stages after which
    [handle_request] tests [headers_sent]. *)
Definition before_routing (s : StageId) : Prop :=
  match s with
  | MiddlewareAt _ | PreHandlerAt _ => True
  | _ => False
  end.

(** No stage before routing recorded in the trace left [headers_sent] set. *)
Definition none_sent (tr : Trace) : Prop :=
  Forall (fun se => before_routing (fst se) ->
                    headers_sent (ex_res (snd se)) = false) tr.

(** What a loop that tests [headers_sent] leaves behind: either it ran to
    its end and nothing was sent, or it stopped at the stage whose exchange
    it returns, the last one recorded. *)
Definition loop_outcome (res : bool * Exchange * Trace) : Prop :=
  let '(continue, ex', tr') := res in
  if continue then none_sent tr'
  else exists tr0 s, tr' = (tr0 ++ [(s, ex')])%list /\ none_sent tr0.

(** ** Sample configurations *)

Module Sample.

(** One HTTP client on stream 7. *)
Definition one_client : list ClientContext := [mkClientContext 7 false false].

(** A middleware that refuses the request: status 403, body ["denied"],
    then [send_response]. *)
Definition reject : Stage :=
  fun ex =>
    let r := set_content (set_status (ex_res ex) 403)
               (Some (strdup_block "denied")) 6 in
    match Server.send_response one_client r (ex_wire ex) with
    | Some (r', w') => mkExchange (ex_req ex) r' w' (ex_oracle ex)
    | None => ex
    end.

(** A stage that leaves a visible mark: it sets the status to 299. *)
Definition mark : Stage :=
  fun ex =>
    mkExchange (ex_req ex) (set_status (ex_res ex) 299) (ex_wire ex)
      (ex_oracle ex).

(** [reject] first, then a second middleware, a plugin with both hooks and
    a route for ["/x"]. *)
Definition guarded_state : reavix_state Stage :=
  mk_reavix_state [mkRouteEntry "GET" "/x" mark] 4
    (snd (fst (Backend.trie_insert empty_root "/x" (Some mark) [])))
    [mkPlugin "audit" (Some mark) (Some mark)] [reject; mark] one_client.

(** What [deflate] returns when zlib cannot be used: [compress_data]
    fails for every input. *)
Definition no_zlib : CompressionType -> string -> option string :=
  fun _ _ => None.

(** A request for [path] with an empty response bound to stream 7. *)
Definition request_for (path : string) : Exchange :=
  mkExchange (mkRequest (Some "GET") (Some path) None None [] [])
    (mkResponse 0 None 0 [] (Some 7%nat) false COMPRESSION_NONE) [] [].

(** The state right after [reavix_init(4)]: no route, middleware or plugin. *)
Definition fresh_state : reavix_state Stage := Server.init_state 4.


(** The result of [handle_request] when zlib cannot be used; the request
    itself with an empty record when the run is undefined. *)
Definition outcome (st : reavix_state Stage) (ex : Exchange) : Exchange * Trace :=
  match Server.handle_request no_zlib st ex with
  | Some result => result
  | None => (ex, [])
  end.

(** The trie after [trie_insert] of each pattern in turn, from the empty
    root, with every allocation succeeding. *)
Definition backend_trie {H : Type} (patterns : list (string * H)) : TrieNode H :=
  fold_left
    (fun root ph =>
       match snd (fst (Backend.trie_insert root (fst ph) (Some (snd ph)) [])) with
       | Some root' => root'
       | None => root
       end)
    patterns empty_root.

(** The state after [reavix_route("GET", path, handler)] for each pair in
    turn, with every allocation succeeding. *)
Definition register_all {H : Type} (st : reavix_state H)
  (patterns : list (string * H)) : reavix_state H :=
  fold_left
    (fun st' ph =>
       match Server.reavix_route st' (Some "GET") (Some (fst ph))
               (Some (snd ph)) [] with
       | Some (_, st2, _) => st2
       | None => st'
       end)
    patterns st.

(** Two middleware, three plugins of which the first has only a
    pre-handler and the second only a post-handler, and a route for
    ["/x"]; none of the stages sends anything. *)
Definition open_state : reavix_state Stage :=
  mk_reavix_state [mkRouteEntry "GET" "/x" mark] 4
    (snd (fst (Backend.trie_insert empty_root "/x" (Some mark) [])))
    [mkPlugin "a" (Some mark) None; mkPlugin "b" None (Some mark);
     mkPlugin "c" (Some mark) (Some mark)]
    [mark; mark] one_client.

End Sample.







(** The ranges of a list are pairwise disjoint. *)
Definition pairwise_disjoint (ranges : list (Z * Z)) : Prop :=
  ForallOrdPairs Ipc.disjoint ranges.

(** The method and path of a table entry. *)
Definition route_key {H : Type} (e : RouteEntry H) : string * string :=
  (re_method e, re_path e).

(** The table is within its capacity and no two entries share a method and
    a path. *)
Definition table_ok {H : Type} (st : reavix_state H) : Prop :=
  (List.length (routes st) <= route_capacity st)%nat /\
  NoDup (map route_key (routes st)).

(** Every handler stored in a trie, in any order. *)
Fixpoint trie_handlers {H : Type} (n : TrieNode H) : list H :=
  match n with
  | mkTrieNode _ h cs p =>
      (match h with Some f => [f] | None => [] end
       ++ (fix of_children (l : list (TrieNode H)) : list H :=
             match l with
             | [] => []
             | c :: rest => trie_handlers c ++ of_children rest
             end) cs
       ++ match p with Some q => trie_handlers q | None => [] end)%list
  end.

(** Every handler of the trie [root] is the handler of an entry of
    [table]. *)
Definition within_table {H : Type} (table : list (RouteEntry H))
  (root : TrieNode H) : Prop :=
  forall f, In f (trie_handlers root) ->
            exists e, In e table /\ re_handler e = f.

(** The state has a trie, and every handler it holds is the handler of a
    table entry. *)
Definition trie_within_table {H : Type} (st : reavix_state H) : Prop :=
  exists root, root_node st = Some root /\ within_table (routes st) root.

(** A concrete list of segments fits a pattern: same length, and equal
    wherever the pattern segment is not a parameter. *)
Fixpoint instantiates (pattern concrete : list string) : Prop :=
  match pattern, concrete with
  | [], [] => True
  | p :: ps, c :: cs =>
      (CStr.is_param_segment p = false -> p = c) /\ instantiates ps cs
  | _, _ => False
  end.

(** The parameters a pattern binds on a concrete list of segments, in the
    order of the pattern. *)
Fixpoint bindings (pattern concrete : list string) : list PathParam :=
  match pattern, concrete with
  | p :: ps, c :: cs =>
      if CStr.is_param_segment p
      then mkPathParam (CStr.skip1 p) c :: bindings ps cs
      else bindings ps cs
  | _, _ => []
  end.

(** The number of parameter segments of a pattern. *)
Definition param_count (segs : list string) : nat :=
  List.length (filter CStr.is_param_segment segs).

(** A node without children of either kind. *)
Definition bare {H : Type} (n : TrieNode H) : Prop :=
  children n = [] /\ param_child n = None.

(** The stage identifiers of the plugins that have the hook selected by
    [sel], numbered from [i]. *)
Fixpoint hook_ids (mk : nat -> StageId) (sel : Plugin -> option Stage)
  (ps : list Plugin) (i : nat) : list StageId :=
  match ps with
  | [] => []
  | p :: rest =>
      match sel p with
      | Some _ => mk i :: hook_ids mk sel rest (S i)
      | None => hook_ids mk sel rest (S i)
      end
  end.

(** The middleware of a state with their stage identifiers. *)
Definition middleware_stages {H : Type} (st : reavix_state H)
  : list (StageId * Stage) :=
  combine (map MiddlewareAt (seq 0 (List.length (middleware st))))
    (middleware st).

(** The hooks selected by [sel] with their stage identifiers, the plugins
    being numbered from [i]. *)
Fixpoint hook_stages (mk : nat -> StageId) (sel : Plugin -> option Stage)
  (ps : list Plugin) (i : nat) : list (StageId * Stage) :=
  match ps with
  | [] => []
  | p :: rest =>
      match sel p with
      | Some hook => (mk i, hook) :: hook_stages mk sel rest (S i)
      | None => hook_stages mk sel rest (S i)
      end
  end.

(** The record of running the given stages one after the other from [ex]:
    each stage is applied to the exchange the stage before it left. *)
Fixpoint chain (stages : list (StageId * Stage)) (ex : Exchange) : Trace :=
  match stages with
  | [] => []
  | (id, f) :: rest => (id, f ex) :: chain rest (f ex)
  end.

(** The exchange a trace ends with, [ex] when it is empty. *)
Definition last_of (tr : Trace) (ex : Exchange) : Exchange :=
  last (map snd tr) ex.

(** The arena after a call, the arena itself when the call is undefined. *)
Definition after_call (XXH32 : list Z -> Z -> Z) (arena : Ipc.IPCArena)
  (size : Z) : Ipc.IPCArena :=
  match Ipc.ipc_arena_allocate XXH32 arena size with
  | Some a => Ipc.arena_after a
  | None => arena
  end.

(** The sizes the calls need in the arena when none is refused: for each,
    the header and the size rounded up to a multiple of 16. *)
Definition total_need (sizes : list Z) : Z :=
  fold_right (fun s acc => 16 + Ipc.aligned s + acc) 0 sizes.

(** What a failure path of [res_send_file] leaves as response: an outcome
    whenever the two reallocations answered from [o] agree, and in every
    outcome the status 200 and the JSON error body for [code] and
    [message]. *)
Definition error_reply (out : option (Response * oracle)) (o : oracle)
  (code : Z) (message : string) : Prop :=
  (reallocs_agree o -> out <> None) /\
  forall r' o', out = Some (r', o') ->
                status_code r' = 200 /\
                body r' = LegacyHttp.error_json code message.

(** A character occurs in a string. *)
Fixpoint has_char (c : ascii) (s : string) : bool :=
  match s with
  | EmptyString => false
  | String a t => Ascii.eqb a c || has_char c t
  end.

(** A path made of the given segments, each preceded by a slash. *)
Fixpoint join_path (segs : list string) : string :=
  match segs with
  | [] => EmptyString
  | s :: rest => "/" ++ s ++ join_path rest
  end.

(** A segment as [strtok_r] can return it: not empty and without a slash. *)
Fixpoint slash_free (s : string) : Prop :=
  match s with
  | EmptyString => True
  | String c t => c <> "/"%char /\ slash_free t
  end.

Definition proper_segment (s : string) : Prop :=
  s <> EmptyString /\ slash_free s.


(** Registering the middleware of a list one after the other. *)
Definition use_all {H : Type} (st : reavix_state H) (ms : list Stage)
  : reavix_state H :=
  fold_left Registry.reavix_use ms st.

(** * Properties *)

(** ** Path-parameter lookup *)

Module ParamLookup.

Import CStr LegacyHttp.

Lemma tolower_zero (c : ascii) : tolower c = 0 -> c = zero.
Proof.
  unfold tolower. intros Hc.
  assert (Hn : nat_of_ascii c = O).
  { destruct ((65 <=? Z.of_nat (nat_of_ascii c)) && (Z.of_nat (nat_of_ascii c) <=? 90)) eqn:E.
    - apply andb_prop in E as [E1 E2]. apply Z.leb_le in E1. lia.
    - lia. }
  rewrite <- (ascii_nat_embedding c), Hn. reflexivity.
Qed.

Lemma strcasecmp_zero_iff (a : string) :
  forall b, nul_free a -> nul_free b ->
            (strcasecmp a b = 0 <-> lower_codes a = lower_codes b).
Proof.
  induction a as [|ca ta IH]; intros [|cb tb] Ha Hb; simpl in *.
  - split; reflexivity.
  - destruct Hb as [Hcb _]. split; intros E.
    + exfalso. apply Hcb, tolower_zero. lia.
    + discriminate.
  - destruct Ha as [Hca _]. split; intros E.
    + exfalso. apply Hca, tolower_zero. exact E.
    + discriminate.
  - destruct Ha as [_ Ha], Hb as [_ Hb].
    destruct (tolower ca =? tolower cb) eqn:E.
    + apply Z.eqb_eq in E. rewrite (IH tb Ha Hb), E.
      split; intros F; [now rewrite F | now inversion F].
    + apply Z.eqb_neq in E. split; intros F; [lia | inversion F; contradiction].
Qed.

Lemma lookup_nocase_spec (key : string) (entries : list (string * string)) :
  nul_free key ->
  Forall (fun nv => nul_free (fst nv)) entries ->
  match lookup_nocase key entries with
  | Some v =>
      exists before name after,
        entries = (before ++ (name, v) :: after)%list /\
        eq_nocase name key /\ no_name_matches key before
  | None => no_name_matches key entries
  end.
Proof.
  intros Hkey. induction entries as [|[name value] rest IH]; intros Hall; simpl.
  - constructor.
  - inversion Hall as [|? ? Hname Hrest]; subst. simpl in Hname.
    destruct (strcasecmp name key =? 0) eqn:E.
    + apply Z.eqb_eq in E. apply (strcasecmp_zero_iff name key Hname Hkey) in E.
      exists [], name, rest. repeat split; [exact E | constructor].
    + apply Z.eqb_neq in E.
      assert (Hne : ~ eq_nocase name key).
      { intros F. apply E. now apply (strcasecmp_zero_iff name key Hname Hkey). }
      specialize (IH Hrest). destruct (lookup_nocase key rest) as [v|].
      * destruct IH as (before & n & after & -> & Hn & Hb).
        exists ((name, value) :: before), n, after.
        repeat split; [exact Hn | constructor; [exact Hne | exact Hb]].
      * constructor; [exact Hne | exact IH].
Qed.

(** C10: [req_get_param] returns NULL for a NULL request or key, and
    otherwise the value of the first captured parameter whose name equals
    the key up to ASCII case, NULL when there is none. *)
Theorem req_get_param_first_nocase (q : Request) (key : string) :
  nul_free key ->
  Forall (fun nv => nul_free (fst nv)) (req_params q) ->
  req_get_param None (Some key) = None /\
  req_get_param (Some q) None = None /\
  match req_get_param (Some q) (Some key) with
  | Some v =>
      exists before name after,
        req_params q = (before ++ (name, v) :: after)%list /\
        eq_nocase name key /\ no_name_matches key before
  | None => no_name_matches key (req_params q)
  end.
Proof.
  intros Hkey Hall. split; [reflexivity|]. split; [reflexivity|].
  simpl. apply lookup_nocase_spec; assumption.
Qed.

(** A lookup for ["ID"] finds the parameter captured for [":id"], also
    behind a parameter of another name. *)
Lemma req_get_param_ID_witness :
  req_get_param
    (Some (mkRequest (Some "GET") (Some "/orgs/7/users/42") None None []
             [("org", "7"); ("id", "42")]))
    (Some "ID") = Some "42" /\
  exists before name after,
    [("org", "7"); ("id", "42")] = (before ++ (name, "42") :: after)%list /\
    eq_nocase name "ID" /\ no_name_matches "ID" before.
Proof.
  split; [reflexivity|].
  refine (proj2 (proj2
    (req_get_param_first_nocase
       (mkRequest (Some "GET") (Some "/orgs/7/users/42") None None []
          [("org", "7"); ("id", "42")]) "ID" _ _))).
  - simpl. repeat split; discriminate.
  - repeat constructor; simpl; repeat split; discriminate.
Defined.

End ParamLookup.

(** ** WebSocket framing *)

Module WsFraming.

Import Server.

Lemma byte_of_code (z : Z) : 0 <= z < 256 -> Z.of_nat (nat_of_ascii (byte_of z)) = z.
Proof.
  intros Hz. unfold byte_of. rewrite Z.mod_small by lia.
  rewrite nat_ascii_embedding by lia. lia.
Qed.

Lemma extended_length_bytes (len : Z) :
  0 <= len <= 65535 ->
  256 * Z.land (Z.shiftr len 8) 255 + Z.land len 255 = len /\
  0 <= Z.land (Z.shiftr len 8) 255 < 256 /\ 0 <= Z.land len 255 < 256.
Proof.
  intros Hlen.
  change 255 with (Z.ones 8). rewrite !Z.land_ones by lia.
  rewrite Z.shiftr_div_pow2 by lia. change (2 ^ 8) with 256.
  assert (0 <= len / 256 < 256) by (split; [apply Z.div_pos | apply Z.div_lt_upper_bound]; lia).
  rewrite (Z.mod_small (len / 256)) by lia.
  pose proof (Z.div_mod len 256 ltac:(lia)).
  pose proof (Z.mod_pos_bound len 256 ltac:(lia)). lia.
Qed.

(** C7: on a WebSocket connection [reavix_ws_send] writes one frame that
    starts with the byte 0x81; a message of at most 125 bytes is preceded
    by its length in one byte, a message of 126 to 65535 bytes by the byte
    126 and its length in two bytes, most significant first; a longer
    message writes nothing at all. *)
Theorem reavix_ws_send_frame (cs : list ClientContext) (r : Response)
  (ctx : ClientContext) (message : string) (w : Wire) :
  find_client_context cs (client r) = Some ctx ->
  is_websocket ctx = true ->
  let len := strlen message in
  let hi := Z.land (Z.shiftr len 8) 255 in
  let lo := Z.land len 255 in
  (len <= 125 ->
   reavix_ws_send cs (Some r) (Some message) w
   = (w ++ [(stream ctx, String (byte_of 129) (String (byte_of len) message))])%list
   /\ Z.of_nat (nat_of_ascii (byte_of 129)) = 129
   /\ Z.of_nat (nat_of_ascii (byte_of len)) = len) /\
  (125 < len <= 65535 ->
   reavix_ws_send cs (Some r) (Some message) w
   = (w ++ [(stream ctx,
             String (byte_of 129) (String (byte_of 126)
               (String (byte_of hi) (String (byte_of lo) message))))])%list
   /\ Z.of_nat (nat_of_ascii (byte_of 126)) = 126
   /\ 256 * Z.of_nat (nat_of_ascii (byte_of hi))
      + Z.of_nat (nat_of_ascii (byte_of lo)) = len) /\
  (65535 < len -> reavix_ws_send cs (Some r) (Some message) w = w).
Proof.
  intros Hctx Hws len hi lo.
  assert (Hlen : 0 <= len) by (unfold len, strlen; lia).
  assert (Hsend : reavix_ws_send cs (Some r) (Some message) w
                  = match ws_frame message with
                    | Some frame => (w ++ [(stream ctx, frame)])%list
                    | None => w
                    end).
  { unfold reavix_ws_send. destruct (client r) as [id|] eqn:Hc.
    - rewrite Hctx, Hws. reflexivity.
    - simpl in Hctx. discriminate. }
  rewrite Hsend. unfold ws_frame. fold len. fold hi. fold lo.
  split; [|split]; intros Hcase.
  - destruct (len <=? 125) eqn:E; [|apply Z.leb_gt in E; lia].
    split; [reflexivity|]. split; apply byte_of_code; lia.
  - destruct (len <=? 125) eqn:E; [apply Z.leb_le in E; lia|].
    destruct (len <=? 65535) eqn:E2; [|apply Z.leb_gt in E2; lia].
    split; [reflexivity|].
    destruct (extended_length_bytes len ltac:(lia)) as (Hsum & Hhi & Hlo).
    fold hi in Hsum, Hhi. fold lo in Hsum, Hlo.
    split; [apply byte_of_code; lia|].
    rewrite !byte_of_code by lia. exact Hsum.
  - destruct (len <=? 125) eqn:E; [apply Z.leb_le in E; lia|].
    destruct (len <=? 65535) eqn:E2; [apply Z.leb_le in E2; lia|].
    reflexivity.
Qed.

(** A 70000-byte message is not sent; a 2-byte and a 300-byte message are
    framed with a 1-byte and a 2-byte length. *)
Lemma reavix_ws_send_frame_witness :
  reavix_ws_send [mkClientContext 3 true true]
    (Some (mkResponse 0 None 0 [] (Some 3%nat) false COMPRESSION_NONE))
    (Some (string_of_list_ascii (repeat "a"%char (Z.to_nat 70000)))) [] = [] /\
  reavix_ws_send [mkClientContext 3 true true]
    (Some (mkResponse 0 None 0 [] (Some 3%nat) false COMPRESSION_NONE))
    (Some "hi") []
  = [(3%nat, String (byte_of 129) (String (byte_of 2) "hi"))] /\
  reavix_ws_send [mkClientContext 3 true true]
    (Some (mkResponse 0 None 0 [] (Some 3%nat) false COMPRESSION_NONE))
    (Some (string_of_list_ascii (repeat "a"%char (Z.to_nat 300)))) []
  = [(3%nat,
      String (byte_of 129) (String (byte_of 126)
        (String (byte_of 1) (String (byte_of 44)
          (string_of_list_ascii (repeat "a"%char (Z.to_nat 300)))))))].
Proof.
  split; [|split].
  - apply (proj2 (proj2
      (reavix_ws_send_frame [mkClientContext 3 true true]
         (mkResponse 0 None 0 [] (Some 3%nat) false COMPRESSION_NONE)
         (mkClientContext 3 true true)
         (string_of_list_ascii (repeat "a"%char (Z.to_nat 70000))) []
         eq_refl eq_refl))).
    vm_compute. reflexivity.
  - apply (proj1
      (reavix_ws_send_frame [mkClientContext 3 true true]
         (mkResponse 0 None 0 [] (Some 3%nat) false COMPRESSION_NONE)
         (mkClientContext 3 true true) "hi" [] eq_refl eq_refl)).
    vm_compute. discriminate.
  - apply (proj1 (proj2
      (reavix_ws_send_frame [mkClientContext 3 true true]
         (mkResponse 0 None 0 [] (Some 3%nat) false COMPRESSION_NONE)
         (mkClientContext 3 true true)
         (string_of_list_ascii (repeat "a"%char (Z.to_nat 300))) []
         eq_refl eq_refl))).
    vm_compute. split; [reflexivity | discriminate].
Defined.

End WsFraming.

(** ** Appending to the response body *)

Module BodyWrite.

Import LegacyHttp.

Lemma length_app (a b : string) :
  String.length (a ++ b) = (String.length a + String.length b)%nat.
Proof. induction a as [|c a IH]; simpl; [reflexivity | now rewrite IH]. Qed.

Lemma length_take (n : nat) (s : string) :
  String.length (str_take n s) = Nat.min n (String.length s).
Proof.
  revert s. induction n as [|n IH]; intros [|c s]; simpl; try reflexivity.
  now rewrite IH.
Qed.

Lemma length_nul_bytes (n : nat) : String.length (nul_bytes n) = n.
Proof. induction n as [|n IH]; simpl; [reflexivity | now rewrite IH]. Qed.

Lemma take_app_left (n : nat) (a b : string) :
  (n <= String.length a)%nat -> str_take n (a ++ b) = str_take n a.
Proof.
  revert a. induction n as [|n IH]; intros [|c a] Hn; simpl in *;
    try reflexivity; try lia.
  rewrite IH by lia. reflexivity.
Qed.

Lemma take_take (n m : nat) (s : string) :
  (n <= m)%nat -> str_take n (str_take m s) = str_take n s.
Proof.
  revert m s. induction n as [|n IH]; intros [|m] [|c s] Hn; simpl;
    try reflexivity; try lia.
  rewrite IH by lia. reflexivity.
Qed.

Lemma take_all (n : nat) (s : string) :
  (String.length s <= n)%nat -> str_take n s = s.
Proof.
  revert s. induction n as [|n IH]; intros [|c s] Hn; simpl in *;
    try reflexivity; try lia.
  rewrite IH by lia. reflexivity.
Qed.

Lemma take_app_exact (a b : string) : str_take (String.length a) (a ++ b) = a.
Proof.
  rewrite take_app_left by lia. apply take_all. lia.
Qed.

Lemma length_realloc_block (old : option string) (size : nat) :
  String.length (realloc_block old size) = size.
Proof.
  unfold realloc_block. rewrite length_app, length_nul_bytes.
  destruct old as [b|]; simpl; [rewrite length_take|]; lia.
Qed.

Lemma take_realloc_block (b : string) (n size : nat) :
  (n <= size)%nat -> (n <= String.length b)%nat ->
  str_take n (realloc_block (Some b) size) = str_take n b.
Proof.
  intros Hs Hb. unfold realloc_block.
  rewrite take_app_left by (rewrite length_take; lia).
  apply take_take. exact Hs.
Qed.

Lemma str_overwrite_spec (bytes : string) :
  forall block, (String.length bytes <= String.length block)%nat ->
    str_overwrite block bytes
    = Some (bytes ++ str_drop (String.length bytes) block).
Proof.
  induction bytes as [|b bs IH]; intros [|c t] Hlen; simpl in *;
    try reflexivity; try lia.
  rewrite IH by lia. reflexivity.
Qed.

Lemma str_write_spec (off : nat) :
  forall block bytes,
    (off + String.length bytes <= String.length block)%nat ->
    str_write block off bytes
    = Some (str_take off block ++ bytes
              ++ str_drop (off + String.length bytes) block).
Proof.
  induction off as [|off IH]; intros block bytes Hlen.
  - simpl in *. rewrite str_overwrite_spec by lia. reflexivity.
  - destruct block as [|c t]; simpl in *; [lia|].
    rewrite IH by lia. reflexivity.
Qed.

Lemma length_drop (n : nat) (s : string) :
  String.length (str_drop n s) = (String.length s - n)%nat.
Proof.
  revert s. induction n as [|n IH]; intros [|c s]; simpl; try reflexivity; try lia.
  apply IH.
Qed.

Lemma app_assoc (a b c : string) : (a ++ b) ++ c = a ++ (b ++ c).
Proof. induction a as [|x a IH]; simpl; [reflexivity | now rewrite IH]. Qed.

Lemma get_app_at_length (a : string) (c : ascii) (rest : string) :
  String.get (String.length a) (a ++ String c rest) = Some c.
Proof. induction a as [|x a IH]; simpl; [reflexivity | exact IH]. Qed.

(** The two stores of [res_write] into the reallocated block, on sizes. *)
Lemma append_into_block (old : option string) (n m : nat) (d : string) :
  (m <= String.length d)%nat ->
  match old with Some b => (n <= String.length b)%nat | None => n = O end ->
  exists block2,
    match str_write (realloc_block old (n + m + 1)) n (str_take m d) with
    | Some block1 => str_write block1 (n + m) (String NUL EmptyString)
    | None => None
    end = Some block2 /\
    str_take (n + m) block2
    = match old with Some b => str_take n b | None => EmptyString end
        ++ str_take m d /\
    String.get (n + m) block2 = Some NUL.
Proof.
  intros Hd Hold.
  set (block := realloc_block old (n + m + 1)).
  assert (Hblock : String.length block = (n + m + 1)%nat)
    by apply length_realloc_block.
  assert (Htake : String.length (str_take m d) = m)
    by (rewrite length_take; lia).
  set (A := str_take n block).
  assert (HA : String.length A = n) by (unfold A; rewrite length_take; lia).
  assert (HAold : A = match old with Some b => str_take n b | None => EmptyString end).
  { unfold A, block. destruct old as [b|].
    - apply take_realloc_block; lia.
    - subst n. reflexivity. }
  rewrite str_write_spec by lia. rewrite Htake.
  set (C := str_drop (n + m) block).
  assert (HC : String.length C = 1%nat) by (unfold C; rewrite length_drop; lia).
  fold A.
  assert (HAB : String.length (A ++ str_take m d) = (n + m)%nat)
    by (rewrite length_app; lia).
  rewrite <- app_assoc.
  rewrite str_write_spec by (simpl; rewrite !length_app; lia).
  assert (Htk : str_take (n + m) ((A ++ str_take m d) ++ C) = A ++ str_take m d)
    by (rewrite <- HAB; apply take_app_exact).
  rewrite Htk.
  eexists. split; [reflexivity|]. split.
  - rewrite <- HAB at 1. rewrite take_app_exact, HAold. reflexivity.
  - rewrite <- HAB at 1. apply get_app_at_length.
Qed.

(** C9: [res_write] either returns true, and then the body is the old body
    followed by the [len] bytes of [data], [content_length] has grown by
    [len], the block ends with NUL right after the body and nothing else
    in the response has changed; or it returns false (NULL response, NULL
    data, failed [realloc]) and the response is as before.  The response
    is well formed, [data] holds [len] bytes, and the new size fits
    [size_t], as it does for buffers that exist in memory. *)
Theorem res_write_appends (r : Response) (data : string) (len : Z) (o : oracle) :
  wf_response r ->
  0 <= len <= Z.of_nat (String.length data) ->
  content_length r + len + 1 < SIZE_MOD ->
  res_write None (Some data) len o = Some (false, None, o) /\
  res_write (Some r) None len o = Some (false, Some r, o) /\
  (fst (alloc o) = false ->
   res_write (Some r) (Some data) len o = Some (false, Some r, snd (alloc o))) /\
  (fst (alloc o) = true ->
   exists block,
     res_write (Some r) (Some data) len o
     = Some (true, Some (set_content r (Some block) (content_length r + len)),
             snd (alloc o)) /\
     body (set_content r (Some block) (content_length r + len))
     = body r ++ str_take (Z.to_nat len) data /\
     String.get (Z.to_nat (content_length r + len)) block = Some NUL).
Proof.
  intros [Hcl Hwf] Hlen Hfit.
  split; [reflexivity|]. split; [reflexivity|].
  unfold res_write. destruct (alloc o) as [ok o1]; simpl fst; simpl snd.
  split; intros Hok; subst ok; [reflexivity|].
  unfold wrap_size.
  assert (HM : SIZE_MOD = 2 ^ 64) by reflexivity.
  rewrite !Z.mod_small by lia.
  destruct (Z.of_nat (String.length data) <? len) eqn:E;
    [apply Z.ltb_lt in E; lia|].
  replace (Z.to_nat (content_length r + len + 1))
    with (Z.to_nat (content_length r) + Z.to_nat len + 1)%nat by lia.
  replace (Z.to_nat (content_length r + len))
    with (Z.to_nat (content_length r) + Z.to_nat len)%nat by lia.
  destruct (append_into_block (content r) (Z.to_nat (content_length r))
              (Z.to_nat len) data) as (block2 & Hrun & Hbody & Hnul).
  - lia.
  - destruct (content r); lia.
  - exists block2.
    destruct (str_write _ _ (str_take (Z.to_nat len) data)) as [block1|];
      [|discriminate].
    rewrite Hrun. split; [reflexivity|]. split; [|exact Hnul].
    unfold body at 1. simpl.
    replace (Z.to_nat (content_length r + len))
      with (Z.to_nat (content_length r) + Z.to_nat len)%nat by lia.
    rewrite Hbody. unfold body. destruct (content r); reflexivity.
Qed.

(** Two writes in a row on an empty response, and a failed [realloc]. *)
Lemma res_write_appends_witness :
  (exists block,
     res_write (Some (mkResponse 200 (Some (strdup_block "ab")) 2 [] None false
                        COMPRESSION_NONE))
       (Some "cde") 3 []
     = Some (true,
             Some (set_content
                     (mkResponse 200 (Some (strdup_block "ab")) 2 [] None false
                        COMPRESSION_NONE) (Some block) (2 + 3)), []) /\
     body (set_content
             (mkResponse 200 (Some (strdup_block "ab")) 2 [] None false
                COMPRESSION_NONE) (Some block) (2 + 3))
     = "ab" ++ "cde" /\
     String.get (Z.to_nat (2 + 3)) block = Some NUL) /\
  res_write (Some (mkResponse 200 (Some (strdup_block "ab")) 2 [] None false
                     COMPRESSION_NONE))
    (Some "cde") 3 [false]
  = Some (false,
          Some (mkResponse 200 (Some (strdup_block "ab")) 2 [] None false
                  COMPRESSION_NONE), []).
Proof.
  assert (Hwf : wf_response
                  (mkResponse 200 (Some (strdup_block "ab")) 2 [] None false
                     COMPRESSION_NONE))
    by (unfold wf_response; simpl; lia).
  assert (Hlen : 0 <= 3 <= Z.of_nat (String.length "cde")) by (simpl; lia).
  assert (Hfit : content_length
                   (mkResponse 200 (Some (strdup_block "ab")) 2 [] None false
                      COMPRESSION_NONE) + 3 + 1 < SIZE_MOD)
    by (vm_compute; reflexivity).
  split.
  - exact (proj2 (proj2 (proj2
      (res_write_appends _ "cde" 3 [] Hwf Hlen Hfit))) eq_refl).
  - exact (proj1 (proj2 (proj2
      (res_write_appends _ "cde" 3 [false] Hwf Hlen Hfit))) eq_refl).
Defined.

End BodyWrite.

(** ** The dispatch pipeline *)

Module Pipeline.

Import Server.

Lemma none_sent_snoc (tr : Trace) (s : StageId) (e : Exchange) :
  none_sent tr ->
  (before_routing s -> headers_sent (ex_res e) = false) ->
  none_sent (tr ++ [(s, e)])%list.
Proof.
  intros Htr He. apply Forall_app. split; [exact Htr|].
  constructor; [exact He | constructor].
Qed.

Lemma run_middleware_outcome (ms : list Stage) :
  forall i ex tr, none_sent tr -> loop_outcome (run_middleware ms i ex tr).
Proof.
  induction ms as [|m rest IH]; intros i ex tr Htr; simpl.
  - exact Htr.
  - destruct (headers_sent (ex_res (m ex))) eqn:E.
    + simpl. exists tr, (MiddlewareAt i). split; [reflexivity | exact Htr].
    + apply IH. apply none_sent_snoc; [exact Htr | intros _; exact E].
Qed.

Lemma run_pre_handlers_outcome (ps : list Plugin) :
  forall i ex tr, none_sent tr -> loop_outcome (run_pre_handlers ps i ex tr).
Proof.
  induction ps as [|p rest IH]; intros i ex tr Htr; simpl.
  - exact Htr.
  - destruct (pre_handler p) as [hook|]; [|apply IH; exact Htr].
    destruct (headers_sent (ex_res (hook ex))) eqn:E.
    + simpl. exists tr, (PreHandlerAt i). split; [reflexivity | exact Htr].
    + apply IH. apply none_sent_snoc; [exact Htr | intros _; exact E].
Qed.

Lemma run_post_handlers_none_sent (ps : list Plugin) :
  forall i ex tr, none_sent tr -> none_sent (snd (run_post_handlers ps i ex tr)).
Proof.
  induction ps as [|p rest IH]; intros i ex tr Htr; simpl.
  - exact Htr.
  - destruct (post_handler p) as [hook|]; [|apply IH; exact Htr].
    apply IH. apply none_sent_snoc; [exact Htr | intros []].
Qed.

Lemma route_step_none_sent
  (deflate : CompressionType -> string -> option string)
  (st : reavix_state Stage) (ex ex' : Exchange) (tr tr' : Trace) :
  route_step deflate st ex tr = Some (ex', tr') ->
  none_sent tr -> none_sent tr'.
Proof.
  intros Hstep Htr. unfold route_step in Hstep.
  destruct (root_node st) as [root|]; [|discriminate].
  destruct (Backend.trie_match _ _ _) as [m o1].
  destruct (res_send_error deflate (clients st) (ex_res ex) 404
              (Some "Not Found") (ex_wire ex) o1) as [[[r w] o2]|];
    destruct (matched m); try destruct (out_handler m); try discriminate;
    inversion Hstep; subst;
    apply none_sent_snoc; try exact Htr; intros [].
Qed.

(** An entry of a trace that ends with [last] is [last] itself or lies
    before it. *)
Lemma snoc_split {A : Type} (tr0 pre post : list A) (last x : A) :
  (tr0 ++ [last] = pre ++ x :: post)%list ->
  (post = [] /\ x = last) \/ In x tr0.
Proof.
  revert pre. induction tr0 as [|y tr0 IH]; intros pre Heq.
  - destruct pre as [|z pre]; simpl in Heq.
    + inversion Heq. left. split; reflexivity.
    + inversion Heq. destruct pre; discriminate.
  - destruct pre as [|z pre]; simpl in Heq.
    + inversion Heq. right. left. reflexivity.
    + inversion Heq as [[Hy Hrest]]. destruct (IH pre Hrest) as [Hl|Hr].
      * left. exact Hl.
      * right. right. exact Hr.
Qed.

Lemma none_sent_excludes (tr pre post : Trace) (s : StageId) (e : Exchange) :
  none_sent tr -> tr = (pre ++ (s, e) :: post)%list ->
  before_routing s -> headers_sent (ex_res e) = true -> False.
Proof.
  intros Htr -> Hs He.
  apply Forall_app in Htr as [_ Htr]. inversion Htr as [|? ? Hx _]; subst.
  simpl in Hx. rewrite (Hx Hs) in He. discriminate.
Qed.

(** C8: once a middleware or a pre-handler hook has left [headers_sent]
    set, it is the last stage [handle_request] runs: no later middleware,
    pre-handler hook, route handler, not-found reply or post-handler hook
    is invoked, and the request, the response and the bytes written are
    returned exactly as that stage left them. *)
Theorem headers_sent_stops_dispatch
  (deflate : CompressionType -> string -> option string)
  (st : reavix_state Stage) (ex : Exchange)
  (final : Exchange) (tr pre post : Trace) (s : StageId) (e : Exchange) :
  handle_request deflate st ex = Some (final, tr) ->
  tr = (pre ++ (s, e) :: post)%list ->
  before_routing s ->
  headers_sent (ex_res e) = true ->
  post = [] /\ final = e.
Proof.
  intros Hrun Htr Hs He. unfold handle_request in Hrun.
  pose proof (run_middleware_outcome (middleware st) 0 ex [] (Forall_nil _)) as Hm.
  destruct (run_middleware (middleware st) 0 ex []) as [[c1 ex1] tr1].
  simpl in Hm. destruct c1.
  - pose proof (run_pre_handlers_outcome (plugins st) 0 ex1 tr1 Hm) as Hp.
    destruct (run_pre_handlers (plugins st) 0 ex1 tr1) as [[c2 ex2] tr2].
    simpl in Hp. destruct c2.
    + exfalso.
      destruct (route_step deflate st ex2 tr2) as [[ex3 tr3]|] eqn:Hstep;
        [|discriminate].
      pose proof (route_step_none_sent deflate st ex2 ex3 tr2 tr3 Hstep Hp) as Hr.
      pose proof (run_post_handlers_none_sent (plugins st) 0 ex3 tr3 Hr) as Hq.
      inversion Hrun as [Hfinal]. rewrite Hfinal in Hq. simpl in Hq.
      exact (none_sent_excludes tr pre post s e Hq Htr Hs He).
    + inversion Hrun; subst final tr2. destruct Hp as (tr0 & s0 & Heq & H0).
      rewrite Heq in Htr. destruct (snoc_split _ _ _ _ _ Htr) as [[Hpost Hx]|Hin].
      * inversion Hx. split; [exact Hpost | reflexivity].
      * exfalso. unfold none_sent in H0. rewrite Forall_forall in H0.
        specialize (H0 _ Hin Hs). simpl in H0. rewrite H0 in He. discriminate.
  - inversion Hrun; subst final tr1. destruct Hm as (tr0 & s0 & Heq & H0).
    rewrite Heq in Htr. destruct (snoc_split _ _ _ _ _ Htr) as [[Hpost Hx]|Hin].
    + inversion Hx. split; [exact Hpost | reflexivity].
    + exfalso. unfold none_sent in H0. rewrite Forall_forall in H0.
      specialize (H0 _ Hin Hs). simpl in H0. rewrite H0 in He. discriminate.
Qed.

(** [handle_request] stops after the refusing middleware: neither the
    second middleware, nor the plugin hooks, nor the route handler run. *)
Lemma headers_sent_stops_dispatch_witness :
  handle_request Sample.no_zlib Sample.guarded_state (Sample.request_for "/x")
  = Some (Sample.reject (Sample.request_for "/x"),
          [(MiddlewareAt 0, Sample.reject (Sample.request_for "/x"))]) /\
  @nil (StageId * Exchange) = [] /\
  Sample.reject (Sample.request_for "/x")
  = Sample.reject (Sample.request_for "/x").
Proof.
  split; [vm_compute; reflexivity|].
  apply (headers_sent_stops_dispatch Sample.no_zlib Sample.guarded_state
           (Sample.request_for "/x")
           (Sample.reject (Sample.request_for "/x"))
           [(MiddlewareAt 0, Sample.reject (Sample.request_for "/x"))]
           [] [] (MiddlewareAt 0) (Sample.reject (Sample.request_for "/x"))).
  - vm_compute. reflexivity.
  - reflexivity.
  - exact I.
  - vm_compute. reflexivity.
Defined.

(** Whatever [res_set_header] leaves differs from the response it was
    given in the headers only. *)
Lemma res_set_header_shape (r r' : Response) (name value : option string)
  (o o' : oracle) :
  LegacyHttp.res_set_header r name value o = Some (r', o') ->
  r' = r \/
  exists n v, name = Some n /\ value = Some v /\
              r' = set_headers r (res_headers r ++ [(n, v)]).
Proof.
  unfold LegacyHttp.res_set_header. intros Hset.
  destruct name as [n|], value as [v|];
    try (inversion Hset; left; reflexivity).
  destruct (alloc o) as [a o1]. destruct (alloc o1) as [b o2].
  destruct a, b; inversion Hset; subst.
  - right. exists n, v. repeat split.
  - left. reflexivity.
Qed.

Lemma res_set_header_keeps (r r' : Response) (name value : option string)
  (o o' : oracle) :
  LegacyHttp.res_set_header r name value o = Some (r', o') ->
  status_code r' = status_code r /\
  content r' = content r /\
  content_length r' = content_length r /\
  compression r' = compression r /\
  client r' = client r /\
  headers_sent r' = headers_sent r.
Proof.
  intros Hset.
  destruct (res_set_header_shape _ _ _ _ _ _ Hset) as [->|(n & v & _ & _ & ->)];
    repeat split; reflexivity.
Qed.

(** [res_set_header] has an outcome whenever its two reallocations agree. *)
Lemma res_set_header_defined (r : Response) (n v : string) (o : oracle) :
  reallocs_agree o ->
  LegacyHttp.res_set_header r (Some n) (Some v) o
  = Some (if fst (alloc o) then set_headers r (res_headers r ++ [(n, v)]) else r,
          snd (alloc (snd (alloc o)))).
Proof.
  unfold reallocs_agree, LegacyHttp.res_set_header. intros Hagree.
  destruct (alloc o) as [a o1]. cbn [fst snd] in *.
  destruct (alloc o1) as [b o2]. cbn [fst snd] in *. subst b.
  destruct a; reflexivity.
Qed.

Lemma body_of_strdup (r : Response) (text : string) :
  body (set_content r (Some (strdup_block text)) (strlen text)) = text.
Proof.
  unfold body. cbn [content content_length set_content].
  unfold strlen, strdup_block. rewrite Nat2Z.id. apply BodyWrite.take_app_exact.
Qed.

(** What [res_send_error] of [backend/include/libreavix.c] leaves in the
    response: the [res_send_json] of that file sets the status to 200
    after [res_send_error] stored the code. *)
Lemma res_send_error_result (r r' : Response) (code : Z) (message : string)
  (o o' : oracle) :
  LegacyHttp.res_send_error r code (Some message) o = Some (r', o') ->
  status_code r' = 200 /\
  body r' = snprintf_fit 512 (LegacyHttp.error_json code message).
Proof.
  unfold LegacyHttp.res_send_error, LegacyHttp.res_send_json.
  set (json := snprintf_fit 512 (LegacyHttp.error_json code message)).
  set (r2 := set_content (set_status (set_status r code) 200)
               (Some (strdup_block json)) (strlen json)).
  intros Hset.
  destruct (res_set_header_keeps _ _ _ _ _ _ Hset) as (Hs & Hc & Hl & _).
  split.
  - rewrite Hs. reflexivity.
  - unfold body. rewrite Hc, Hl.
    exact (body_of_strdup (set_status (set_status r code) 200) json).
Qed.

Lemma res_send_error_defined (r : Response) (code : Z) (message : string)
  (o : oracle) :
  reallocs_agree o ->
  exists r',
    LegacyHttp.res_send_error r code (Some message) o
    = Some (r', snd (alloc (snd (alloc o)))).
Proof.
  intros Hagree. unfold LegacyHttp.res_send_error, LegacyHttp.res_send_json.
  rewrite res_set_header_defined by exact Hagree. eexists. reflexivity.
Qed.

Lemma compress_body_keeps
  (deflate : CompressionType -> string -> option string) (r r' : Response)
  (o o' : oracle) :
  compress_body deflate r o = Some (r', o') ->
  status_code r' = status_code r /\ compression r' = compression r /\
  client r' = client r /\ headers_sent r' = headers_sent r /\
  body r' = match compress_data deflate (content r) (content_length r)
                    (compression r) with
            | Some packed => packed
            | None => body r
            end.
Proof.
  unfold compress_body, compress_data. intros Hc.
  destruct (compression r) eqn:Hcomp.
  - inversion Hc; subst. rewrite Hcomp. repeat split; reflexivity.
  - destruct (content r) as [block|] eqn:Hblock;
      [destruct (deflate _ _) as [packed|]|];
      try (inversion Hc; subst; rewrite Hcomp; repeat split; reflexivity).
    destruct (res_set_header_keeps _ _ _ _ _ _ Hc)
      as (Hs & Hct & Hl & Hcm & Hcl & Hsent).
    repeat split; try assumption; [rewrite Hcm; exact Hcomp|].
    unfold body. rewrite Hct, Hl. cbn [content content_length set_content].
    unfold strlen. rewrite Nat2Z.id. apply BodyWrite.take_all. lia.
  - destruct (content r) as [block|] eqn:Hblock;
      [destruct (deflate _ _) as [packed|]|];
      try (inversion Hc; subst; rewrite Hcomp; repeat split; reflexivity).
    destruct (res_set_header_keeps _ _ _ _ _ _ Hc)
      as (Hs & Hct & Hl & Hcm & Hcl & Hsent).
    repeat split; try assumption; [rewrite Hcm; exact Hcomp|].
    unfold body. rewrite Hct, Hl. cbn [content content_length set_content].
    unfold strlen. rewrite Nat2Z.id. apply BodyWrite.take_all. lia.
  - destruct (content r) as [block|] eqn:Hblock;
      [destruct (deflate _ _) as [packed|]|];
      try (inversion Hc; subst; rewrite Hcomp; repeat split; reflexivity).
    destruct (res_set_header_keeps _ _ _ _ _ _ Hc)
      as (Hs & Hct & Hl & Hcm & Hcl & Hsent).
    repeat split; try assumption; [rewrite Hcm; exact Hcomp|].
    unfold body. rewrite Hct, Hl. cbn [content content_length set_content].
    unfold strlen. rewrite Nat2Z.id. apply BodyWrite.take_all. lia.
Qed.

Lemma send_response_keeps (cs : list ClientContext) (r r' : Response)
  (w w' : Wire) :
  send_response cs r w = Some (r', w') ->
  status_code r' = status_code r /\ content r' = content r /\
  content_length r' = content_length r /\ res_headers r' = res_headers r /\
  compression r' = compression r /\ client r' = client r /\
  body r' = body r.
Proof.
  unfold send_response. intros Hsend.
  destruct (headers_sent r);
    [inversion Hsend; subst; repeat split; reflexivity|].
  destruct (find_client_context cs (client r));
    [|inversion Hsend; subst; repeat split; reflexivity].
  destruct (header_bytes r); [|discriminate].
  inversion Hsend; subst. repeat split; reflexivity.
Qed.

(** What [res_send_json] of [backend/src/libreavix.c] leaves in the
    response: the status and the compression setting as it finds them, and
    as body the JSON text, or its compressed form when a compression is
    set and [compress_data] succeeds. *)
Lemma backend_res_send_json_result
  (deflate : CompressionType -> string -> option string)
  (cs : list ClientContext) (r r' : Response) (json : string)
  (w w' : Wire) (o o' : oracle) :
  res_send_json deflate cs r (Some json) w o = Some (r', w', o') ->
  status_code r' = status_code r /\ compression r' = compression r /\
  body r' = match compression r with
            | COMPRESSION_NONE => json
            | type =>
                match deflate type json with
                | Some packed => packed
                | None => json
                end
            end.
Proof.
  unfold res_send_json.
  set (r1 := set_content r (Some (strdup_block json)) (strlen json)).
  destruct (LegacyHttp.res_set_header r1 (Some "Content-Type")
              (Some "application/json") o) as [[r2 o2]|] eqn:Hset;
    [|discriminate].
  destruct (res_set_header_keeps _ _ _ _ _ _ Hset)
    as (Hs2 & Hc2 & Hl2 & Hcm2 & _).
  destruct (compress_body deflate r2 o2) as [[r3 o3]|] eqn:Hcomp;
    [|discriminate].
  destruct (compress_body_keeps deflate _ _ _ _ Hcomp)
    as (Hs3 & Hcm3 & _ & _ & Hb3).
  destruct (send_response cs r3 w) as [[r4 w4]|] eqn:Hsend; [|discriminate].
  destruct (send_response_keeps _ _ _ _ _ Hsend)
    as (Hs4 & _ & _ & _ & Hcm4 & _ & Hb4).
  intros Hres. inversion Hres; subst r4 w4 o3.
  split; [rewrite Hs4, Hs3, Hs2; reflexivity|].
  split; [rewrite Hcm4, Hcm3, Hcm2; reflexivity|].
  assert (Hb2 : body r2 = json).
  { unfold body. rewrite Hc2, Hl2. exact (body_of_strdup r json). }
  assert (Hin : str_take (Z.to_nat (strlen json)) (strdup_block json) = json).
  { unfold strlen, strdup_block. rewrite Nat2Z.id.
    apply BodyWrite.take_app_exact. }
  rewrite Hb4, Hb3, Hc2, Hl2, Hcm2, Hb2. subst r1.
  cbn [content content_length compression set_content]. unfold compress_data.
  destruct (compression r); try reflexivity;
    rewrite Hin; destruct (deflate _ json); reflexivity.
Qed.













End Pipeline.

(** ** Matching in the trie *)

Module Matching.

Lemma find_child_first {H : Type} (cs : list (TrieNode H)) (seg : string) :
  forall before hit after,
    find_child cs seg = Some (before, hit, after) ->
    cs = (before ++ hit :: after)%list /\ segment hit = seg /\
    Forall (fun c => segment c <> seg) before.
Proof.
  induction cs as [|c rest IH]; intros before hit after Hfind; simpl in Hfind.
  - discriminate.
  - unfold CStr.streq in Hfind. destruct (String.eqb_spec (segment c) seg) as [E|E].
    + inversion Hfind; subst. repeat split. constructor.
    + destruct (find_child rest seg) as [[[b h] a]|]; [|discriminate].
      inversion Hfind; subst. destruct (IH b hit after eq_refl) as (-> & Hs & Hb).
      repeat split; [exact Hs | constructor; assumption].
Qed.

(** In [backend/src/libreavix.c] a request segment that does not start
    with a colon is matched against the static children only. *)
Lemma concrete_segment_needs_static_child {H : Type} (cur : TrieNode H)
  (seg : string) (rest : list string) (params : list PathParam) :
  CStr.is_param_segment seg = false ->
  find_child (children cur) seg = None ->
  Backend.match_loop (seg :: rest) cur params = None.
Proof.
  intros Hseg Hnone. simpl. rewrite Hseg, Hnone.
  destruct (param_child cur); reflexivity.
Qed.

(** C5 on the code: with only [/users/:id] registered, [trie_match] of
    [backend/src/libreavix.c] returns false for [/users/42], while
    [trie_match] of [backend/include/libreavix.c] returns the handler and
    the single parameter [id = 42]. *)
Theorem users_42_backend_no_match (H : Type) (h : H) :
  Backend.trie_match (Sample.backend_trie [("/users/:id", h)])
    (Some "/users/42") []
  = (mkMatchResult false None [], []) /\
  Legacy.trie_match (Sample.backend_trie [("/users/:id", h)])
    (Some "/users/42") [] []
  = (mkMatchResult true (Some h) [mkPathParam "id" "42"], []).
Proof. split; reflexivity. Qed.

(** C6: with [/users/:id] and [/users/me] inserted by [trie_insert] of
    [backend/src/libreavix.c] in either order, [trie_match] of
    [backend/include/libreavix.c] on [/users/me] yields the handler of
    [/users/me] and captures nothing, while [/users/42] still reaches the
    parameter handler; [router_match] run on the same trie agrees; and at
    any node, for any segment that a static child carries, the walk of
    [trie_match] and of [router_match] goes to the first such child,
    whatever the parameter child is. *)
Theorem static_child_first (H : Type) :
  (forall h_id h_me : H,
     Legacy.trie_match
       (Sample.backend_trie [("/users/:id", h_id); ("/users/me", h_me)])
       (Some "/users/me") [] []
     = (mkMatchResult true (Some h_me) [], []) /\
     Legacy.trie_match
       (Sample.backend_trie [("/users/me", h_me); ("/users/:id", h_id)])
       (Some "/users/me") [] []
     = (mkMatchResult true (Some h_me) [], []) /\
     Legacy.trie_match
       (Sample.backend_trie [("/users/:id", h_id); ("/users/me", h_me)])
       (Some "/users/42") [] []
     = (mkMatchResult true (Some h_id) [mkPathParam "id" "42"], []) /\
     Backend.trie_match
       (Sample.backend_trie [("/users/:id", h_id); ("/users/me", h_me)])
       (Some "/users/me") []
     = (mkMatchResult true (Some h_me) [], []) /\
     (forall handler_eqb : H -> H -> bool,
        RouterC.router_match handler_eqb
          (RouterC.mkRouter
             (Sample.backend_trie [("/users/:id", h_id); ("/users/me", h_me)])
             [mkRouteEntry "GET" "/users/:id" h_id;
              mkRouteEntry "GET" "/users/me" h_me])
          None (Some "/users/me") true []
        = (mkMatchResult true (Some h_me) [], []))) /\
  (forall (cur : TrieNode H) (seg : string) (rest : list string)
          (params : list PathParam) (have_params : bool)
          (before : list (TrieNode H)) (hit : TrieNode H)
          (after : list (TrieNode H)),
     find_child (children cur) seg = Some (before, hit, after) ->
     children cur = (before ++ hit :: after)%list /\
     segment hit = seg /\
     Forall (fun c => segment c <> seg) before /\
     Legacy.match_loop (seg :: rest) cur params
     = Legacy.match_loop rest hit params /\
     RouterC.match_loop have_params (seg :: rest) cur params
     = RouterC.match_loop have_params rest hit params).
Proof.
  split.
  - intros h_id h_me. repeat split; intros; reflexivity.
  - intros cur seg rest params have_params before hit after Hfind.
    destruct (find_child_first _ _ _ _ _ Hfind) as (Hc & Hs & Hb).
    repeat split; try assumption; simpl; rewrite Hfind; reflexivity.
Qed.

(** The node for [users] has the static child [me] and the parameter child
    [:id]; the walk for [me] goes to the static child. *)
Lemma static_child_first_witness :
  Legacy.match_loop ["me"]
    (mkTrieNode "users" (@None nat)
       [mkTrieNode "we" None [] None; mkTrieNode "me" (Some 2%nat) [] None]
       (Some (mkTrieNode ":id" (Some 1%nat) [] None))) []
  = Legacy.match_loop [] (mkTrieNode "me" (Some 2%nat) [] None) [].
Proof.
  apply (proj2 (static_child_first nat)
           (mkTrieNode "users" (@None nat)
              [mkTrieNode "we" None [] None; mkTrieNode "me" (Some 2%nat) [] None]
              (Some (mkTrieNode ":id" (Some 1%nat) [] None)))
           "me" [] [] true
           [mkTrieNode "we" None [] None] (mkTrieNode "me" (Some 2%nat) [] None) []).
  reflexivity.
Defined.

End Matching.

(** ** Route registration *)

Module Registration.

Import Server.

(** A registration refused for lack of capacity changes nothing. *)
Lemma reavix_route_full {H : Type} (st : reavix_state H) (m p : string) (h : H)
  (o : oracle) :
  (route_capacity st <= List.length (routes st))%nat ->
  reavix_route st (Some m) (Some p) (Some h) o = Some (false, st, o).
Proof.
  intros Hfull. unfold reavix_route.
  destruct (Nat.leb_spec (route_capacity st) (List.length (routes st)));
    [reflexivity | lia].
Qed.

(** A registration refused as a duplicate changes nothing. *)
Lemma reavix_route_duplicate {H : Type} (st : reavix_state H) (m p : string)
  (h : H) (o : oracle) :
  existsb (same_route m p) (routes st) = true ->
  reavix_route st (Some m) (Some p) (Some h) o = Some (false, st, o).
Proof.
  intros Hdup. unfold reavix_route. rewrite Hdup.
  destruct (route_capacity st <=? List.length (routes st))%nat; reflexivity.
Qed.

(** A registration with a NULL argument changes nothing. *)
Lemma reavix_route_null {H : Type} (st : reavix_state H)
  (m p : option string) (h : option H) (o : oracle) :
  m = None \/ p = None \/ h = None ->
  reavix_route st m p h o = Some (false, st, o).
Proof.
  intros Hnull. unfold reavix_route.
  destruct m, p, h; try reflexivity.
  destruct Hnull as [E|[E|E]]; discriminate.
Qed.

(** After a registration that returned true, registering the same method
    and path again returns false and leaves the state, hence the route
    count, as it was. *)
Lemma reavix_route_twice {H : Type} (st st' : reavix_state H) (m p : string)
  (h h' : H) (o o' o2 : oracle) :
  reavix_route st (Some m) (Some p) (Some h) o = Some (true, st', o') ->
  reavix_route st' (Some m) (Some p) (Some h') o2 = Some (false, st', o2).
Proof.
  intros Hfirst. apply reavix_route_duplicate.
  unfold reavix_route in Hfirst.
  destruct (route_capacity st <=? List.length (routes st))%nat; [discriminate|].
  destruct (existsb (same_route m p) (routes st)); [discriminate|].
  destruct (root_node st) as [root|]; [|discriminate].
  destruct (Backend.trie_insert root p (Some h) o) as [[ok root'] o3].
  inversion Hfirst; subst. simpl.
  rewrite existsb_app. simpl. unfold same_route at 2, CStr.streq. simpl.
  rewrite !String.eqb_refl. simpl. apply orb_true_r.
Qed.

(** When the first allocation of [trie_insert] fails, a registration that
    is neither over capacity nor a duplicate returns false with the route
    already appended to the table and the trie untouched. *)
Lemma reavix_route_alloc_failure {H : Type} (st : reavix_state H) (m p : string)
  (h : H) (o : oracle) (root : TrieNode H) :
  (List.length (routes st) < route_capacity st)%nat ->
  existsb (same_route m p) (routes st) = false ->
  root_node st = Some root ->
  reavix_route st (Some m) (Some p) (Some h) (false :: o)
  = Some (false,
          mk_reavix_state (routes st ++ [mkRouteEntry m p h])%list
            (route_capacity st) (Some root) (plugins st) (middleware st)
            (clients st),
          o).
Proof.
  intros Hroom Hnew Hroot. unfold reavix_route. rewrite Hnew, Hroot.
  destruct (Nat.leb_spec (route_capacity st) (List.length (routes st)));
    [lia | reflexivity].
Qed.

(** C4 on the code.  First, when the first allocation inside
    [trie_insert] fails, [reavix_route] returns false although the route
    is already in the table, which the trie does not hold.  Second, two
    patterns that share a parameter segment are both accepted, yet the
    second insertion replaces the parameter child: the first route stays
    in the table while the trie has lost its handler, for the pattern text
    and for a concrete path alike. *)
Theorem reavix_route_table_trie_diverge (H : Type) (h1 h2 : H) :
  reavix_route (init_state 8) (Some "GET") (Some "/a") (Some h1) [false]
  = Some (false,
          mk_reavix_state [mkRouteEntry "GET" "/a" h1] 8 (Some empty_root)
            [] [] [],
          []) /\
  (reavix_route (init_state 8) (Some "GET") (Some "/users/:id") (Some h1) []
   = Some (true, Sample.register_all (init_state 8) [("/users/:id", h1)], []) /\
   reavix_route (Sample.register_all (init_state 8) [("/users/:id", h1)])
     (Some "GET") (Some "/users/:id/posts") (Some h2) []
   = Some (true,
           Sample.register_all (init_state 8)
             [("/users/:id", h1); ("/users/:id/posts", h2)],
           []) /\
   routes (Sample.register_all (init_state 8)
             [("/users/:id", h1); ("/users/:id/posts", h2)])
   = [mkRouteEntry "GET" "/users/:id" h1;
      mkRouteEntry "GET" "/users/:id/posts" h2] /\
   root_node (Sample.register_all (init_state 8)
                [("/users/:id", h1); ("/users/:id/posts", h2)])
   = Some (Sample.backend_trie [("/users/:id", h1); ("/users/:id/posts", h2)]) /\
   Backend.trie_match
     (Sample.backend_trie [("/users/:id", h1); ("/users/:id/posts", h2)])
     (Some "/users/:id") []
   = (mkMatchResult false None [mkPathParam "id" ":id"], []) /\
   Backend.trie_match
     (Sample.backend_trie [("/users/:id", h1); ("/users/:id/posts", h2)])
     (Some "/users/42") []
   = (mkMatchResult false None [], []) /\
   Legacy.trie_match
     (Sample.backend_trie [("/users/:id", h1); ("/users/:id/posts", h2)])
     (Some "/users/42") [] []
   = (mkMatchResult true None [mkPathParam "id" "42"], [])).
Proof. repeat split; reflexivity. Qed.

End Registration.

(** ** The IPC arena *)

Module Arena.

Import Ipc.

Lemma within_spec (off len : Z) :
  within off len = true <->
  0 <= off /\ 0 <= len /\ off + len <= IPC_BUFFER_SIZE.
Proof.
  unfold within. rewrite !andb_true_iff, !Z.leb_le. tauto.
Qed.

Lemma bytes_at_S (b : Buffer) (off : Z) (n : nat) :
  bytes_at b off (S n) = b off :: bytes_at b (off + 1) n.
Proof.
  unfold bytes_at. simpl. rewrite Z.add_0_r. f_equal.
  rewrite <- seq_shift, map_map. apply map_ext. intros k. f_equal. lia.
Qed.

Lemma bytes_at_ext (b b' : Buffer) (off : Z) (n : nat) :
  (forall i, off <= i < off + Z.of_nat n -> b' i = b i) ->
  bytes_at b' off n = bytes_at b off n.
Proof.
  intros Hsame. unfold bytes_at. apply map_ext_in. intros k Hk.
  apply in_seq in Hk. apply Hsame. lia.
Qed.

Lemma with_bytes_outside (payload : list Z) :
  forall b off i,
    i < off \/ off + Z.of_nat (List.length payload) <= i ->
    with_bytes b off payload i = b i.
Proof.
  induction payload as [|x rest IH]; intros b off i Hi; [reflexivity|].
  cbn [with_bytes]. cbn [List.length] in Hi.
  rewrite IH by lia. destruct (Z.eqb_spec i off); [lia | reflexivity].
Qed.

(** What the caller wrote is what is found there. *)
Lemma payload_roundtrip (payload : list Z) :
  forall b ptr, bytes_at (with_bytes b ptr payload) ptr (List.length payload)
                = payload.
Proof.
  induction payload as [|x rest IH]; intros b ptr; [reflexivity|].
  change (List.length (x :: rest)) with (S (List.length rest)).
  rewrite bytes_at_S. cbn [with_bytes]. rewrite IH. f_equal.
  rewrite with_bytes_outside by lia. rewrite Z.eqb_refl. reflexivity.
Qed.

Lemma with32_other (b : Buffer) (off v i : Z) :
  i < off \/ off + 4 <= i -> with32 b off v i = b i.
Proof.
  intros Hi. unfold with32.
  destruct (Z.eqb_spec i off); [lia|].
  destruct (Z.eqb_spec i (off + 1)); [lia|].
  destruct (Z.eqb_spec i (off + 2)); [lia|].
  destruct (Z.eqb_spec i (off + 3)); [lia|]. reflexivity.
Qed.

Lemma filled_other (b : Buffer) (p c n i : Z) :
  i < p \/ p + n <= i -> filled b p c n i = b i.
Proof.
  intros Hi. unfold filled.
  destruct (Z.leb_spec p i); [|reflexivity].
  destruct (Z.ltb_spec i (p + n)); [lia | reflexivity].
Qed.

Lemma bytes_at_filled (b : Buffer) (n : nat) (ptr size : Z) :
  Z.of_nat n <= size -> bytes_at (filled b ptr 0 size) ptr n = repeat 0 n.
Proof.
  intros Hn. unfold bytes_at.
  assert (Hgen : forall start,
             (start + n <= Z.to_nat size)%nat ->
             map (fun k => filled b ptr 0 size (ptr + Z.of_nat k)) (seq start n)
             = repeat 0 n).
  { induction n as [|n IH]; intros start Hs; [reflexivity|].
    simpl. rewrite IH by lia. f_equal. unfold filled.
    destruct (Z.leb_spec ptr (ptr + Z.of_nat start)); [|lia].
    destruct (Z.ltb_spec (ptr + Z.of_nat start) (ptr + size)); [reflexivity | lia]. }
  apply Hgen. lia.
Qed.

Lemma word_at_with32 (b : Buffer) (off v : Z) :
  word_at (with32 b off v) off = v mod 2 ^ 32.
Proof.
  unfold word_at, with32.
  rewrite Z.eqb_refl.
  destruct (Z.eqb_spec (off + 1) off); [lia|]. rewrite Z.eqb_refl.
  destruct (Z.eqb_spec (off + 2) off); [lia|].
  destruct (Z.eqb_spec (off + 2) (off + 1)); [lia|]. rewrite Z.eqb_refl.
  destruct (Z.eqb_spec (off + 3) off); [lia|].
  destruct (Z.eqb_spec (off + 3) (off + 1)); [lia|].
  destruct (Z.eqb_spec (off + 3) (off + 2)); [lia|]. rewrite Z.eqb_refl.
  change (2 ^ 32) with 4294967296.
  Z.to_euclidean_division_equations. lia.
Qed.

Lemma word_at_ext (b b' : Buffer) (off : Z) :
  (forall i, off <= i < off + 4 -> b' i = b i) ->
  word_at b' off = word_at b off.
Proof.
  intros Hsame. unfold word_at. rewrite !Hsame by lia. reflexivity.
Qed.

Lemma aligned_multiple (size : Z) :
  0 <= size < 2 ^ 63 -> aligned size = 16 * ((size + 15) / 16).
Proof.
  intros Hs. unfold aligned, wrap_size, SIZE_MOD.
  change (2 ^ 63) with 9223372036854775808 in Hs.
  rewrite (Z.mod_small (size + 15))
    by (change (2 ^ 64) with 18446744073709551616; lia).
  rewrite <- (Z.land_ones (Z.lnot 15) 64) by lia.
  rewrite Z.land_assoc, Z.land_ones by lia.
  rewrite <- Z.ldiff_land.
  replace (Z.ldiff (size + 15) 15) with (16 * ((size + 15) / 16)).
  - pose proof (Z.div_mod (size + 15) 16 ltac:(lia)).
    pose proof (Z.mod_pos_bound (size + 15) 16 ltac:(lia)).
    change (2 ^ 64) with 18446744073709551616.
    rewrite Z.mod_small; lia.
  - change (Z.ldiff (size + 15) 15) with (Z.ldiff (size + 15) (Z.ones 4)).
    rewrite Z.ldiff_ones_r by lia.
    rewrite Z.shiftl_mul_pow2, Z.shiftr_div_pow2 by lia.
    change (2 ^ 4) with 16. lia.
Qed.

Lemma aligned_round_up (size : Z) :
  0 <= size < 2 ^ 63 -> size <= aligned size <= size + 15.
Proof.
  intros Hs. rewrite aligned_multiple by exact Hs.
  pose proof (Z.div_mod (size + 15) 16 ltac:(lia)).
  pose proof (Z.mod_pos_bound (size + 15) 16 ltac:(lia)). lia.
Qed.

(** What a call does.  Either the capacity test refuses it and nothing
    changes; or the header and the payload lie inside the array, the
    pointer is 16 past the old offset, no byte below the old offset
    changes, the header holds the magic number, the size, the checksum of
    [size] zero bytes and zero flags, and the payload is zero. *)
Lemma allocate_spec (XXH32 : list Z -> Z -> Z) (arena : IPCArena) (size : Z)
  (a : Allocation) :
  ipc_arena_allocate XXH32 arena size = Some a ->
  (refused arena size = true /\ a = mkAllocation None arena) \/
  (refused arena size = false /\
   0 <= write_offset arena /\ 0 <= size /\
   write_offset arena + 16 + size <= IPC_BUFFER_SIZE /\
   ret_ptr a = Some (write_offset arena + 16) /\
   write_offset (arena_after a)
   = wrap_size (write_offset arena + aligned size + 16) /\
   read_offset (arena_after a) = read_offset arena /\
   (forall i, i < write_offset arena ->
              buffer (arena_after a) i = buffer arena i) /\
   word_at (buffer (arena_after a)) (write_offset arena) = IPC_MAGIC /\
   word_at (buffer (arena_after a)) (write_offset arena + 4)
   = size mod 2 ^ 32 /\
   word_at (buffer (arena_after a)) (write_offset arena + 8)
   = XXH32 (repeat 0 (Z.to_nat size)) IPC_MAGIC mod 2 ^ 32 /\
   word_at (buffer (arena_after a)) (write_offset arena + 12) = 0 /\
   bytes_at (buffer (arena_after a)) (write_offset arena + 16) (Z.to_nat size)
   = repeat 0 (Z.to_nat size)).
Proof.
  unfold ipc_arena_allocate, refused, store32, memset, read_bytes.
  set (h := write_offset arena).
  destruct (IPC_BUFFER_SIZE <? wrap_size (h + aligned size)).
  { intros Ha. inversion Ha. left. split; reflexivity. }
  destruct (within h 4) eqn:W0; [|discriminate].
  destruct (within (h + 4) 4) eqn:W1; [|discriminate].
  destruct (within (h + 12) 4) eqn:W3; [|discriminate].
  destruct (within (h + 16) size) eqn:Wz; [|discriminate].
  destruct (within (h + 8) 4) eqn:W2; [|discriminate].
  apply within_spec in W0, W3, Wz.
  intros Ha. inversion Ha. clear Ha. right.
  cbn [ret_ptr arena_after write_offset read_offset buffer].
  rewrite (bytes_at_filled _ (Z.to_nat size) (h + 16) size)
    by (rewrite Z2Nat.id; lia).
  split; [reflexivity|]. split; [lia|]. split; [lia|]. split; [lia|].
  split; [reflexivity|]. split; [reflexivity|]. split; [reflexivity|].
  split.
  { intros i Hi. rewrite with32_other by lia. rewrite filled_other by lia.
    rewrite !with32_other by lia. reflexivity. }
  split.
  { rewrite (word_at_ext (with32 (buffer arena) h IPC_MAGIC));
      [apply word_at_with32|].
    intros i Hi. rewrite with32_other by lia. rewrite filled_other by lia.
    rewrite !with32_other by lia. reflexivity. }
  split.
  { rewrite (word_at_ext
               (with32 (with32 (buffer arena) h IPC_MAGIC) (h + 4)
                  (size mod 2 ^ 32)));
      [rewrite word_at_with32; apply Z.mod_mod; discriminate|].
    intros i Hi. rewrite with32_other by lia. rewrite filled_other by lia.
    rewrite with32_other by lia. reflexivity. }
  split; [apply word_at_with32|].
  split.
  { rewrite (word_at_ext
               (with32
                  (with32 (with32 (buffer arena) h IPC_MAGIC) (h + 4)
                     (size mod 2 ^ 32)) (h + 12) 0));
      [apply word_at_with32|].
    intros i Hi. rewrite with32_other by lia. rewrite filled_other by lia.
    reflexivity. }
  rewrite (bytes_at_ext
             (filled
                (with32
                   (with32 (with32 (buffer arena) h IPC_MAGIC) (h + 4)
                      (size mod 2 ^ 32)) (h + 12) 0) (h + 16) 0 size));
    [apply bytes_at_filled; rewrite Z2Nat.id; lia|].
  intros i Hi. apply with32_other. lia.
Qed.

(** A call that passes the capacity test and whose header and payload lie
    inside the array returns a pointer. *)
Lemma allocate_granted (XXH32 : list Z -> Z -> Z) (arena : IPCArena) (size : Z) :
  refused arena size = false ->
  0 <= write_offset arena -> 0 <= size ->
  write_offset arena + 16 + size <= IPC_BUFFER_SIZE ->
  exists a, ipc_arena_allocate XXH32 arena size = Some a /\
            ret_ptr a = Some (write_offset arena + 16).
Proof.
  intros Hpass Hoff Hsize Hfit.
  unfold ipc_arena_allocate, store32, memset, read_bytes.
  unfold refused in Hpass. rewrite Hpass.
  rewrite (proj2 (within_spec (write_offset arena) 4)) by lia.
  rewrite (proj2 (within_spec (write_offset arena + 4) 4)) by lia.
  rewrite (proj2 (within_spec (write_offset arena + 12) 4)) by lia.
  rewrite (proj2 (within_spec (write_offset arena + 16) size)) by lia.
  rewrite (proj2 (within_spec (write_offset arena + 8) 4)) by lia.
  eexists. split; reflexivity.
Qed.

(** C3 on the code: the payload written into a region that
    [ipc_arena_allocate] returned is read back unchanged, but the checksum
    in its header is the hash of as many zero bytes, computed before the
    caller wrote anything; it is not recomputed over the payload. *)
Theorem checksum_is_of_zeroed_region (XXH32 : list Z -> Z -> Z)
  (arena arena' : IPCArena) (size ptr : Z) (payload : list Z) :
  ipc_arena_allocate XXH32 arena size = Some (mkAllocation (Some ptr) arena') ->
  Z.of_nat (List.length payload) = size ->
  exists written,
    write_bytes (buffer arena') ptr payload = Some written /\
    read_bytes written ptr size = Some payload /\
    stored_checksum written ptr
    = Some (XXH32 (repeat 0 (List.length payload)) IPC_MAGIC mod 2 ^ 32).
Proof.
  intros Hcall Hsize.
  destruct (allocate_spec XXH32 arena size _ Hcall)
    as [[_ Hnull]|(_ & Hoff & Hpos & Hfit & Hptr & _ & _ & _ & _ & _ & Hsum & _)];
    [discriminate|].
  cbn [ret_ptr arena_after] in *. inversion Hptr; subst ptr. clear Hptr.
  exists (with_bytes (buffer arena') (write_offset arena + 16) payload).
  unfold write_bytes, read_bytes, stored_checksum, load32.
  rewrite Hsize.
  rewrite (proj2 (within_spec (write_offset arena + 16) size)) by lia.
  rewrite (proj2 (within_spec (write_offset arena + 16 - 8) 4)) by lia.
  split; [reflexivity|]. split.
  - rewrite <- Hsize, Nat2Z.id. rewrite payload_roundtrip. reflexivity.
  - f_equal. replace (write_offset arena + 16 - 8) with (write_offset arena + 8)
      by lia.
    rewrite (word_at_ext (buffer arena')).
    + rewrite Hsum, <- Hsize, Nat2Z.id. reflexivity.
    + intros i Hi. apply with_bytes_outside. lia.
Qed.

(** One byte [1] written into a fresh arena: it is read back, and the
    stored checksum, the hash of one zero byte, differs from the hash of
    what is read. *)
Lemma checksum_is_of_zeroed_region_witness :
  exists written,
    write_bytes (buffer (after_call XXHash.XXH32 ipc_arena_init 1)) 16 [1]
    = Some written /\
    read_bytes written 16 1 = Some [1] /\
    stored_checksum written 16 = Some (XXHash.XXH32 [0] IPC_MAGIC mod 2 ^ 32) /\
    XXHash.XXH32 [0] IPC_MAGIC mod 2 ^ 32 = 1511296566 /\
    XXHash.XXH32 [1] IPC_MAGIC = 3525659160.
Proof.
  destruct (checksum_is_of_zeroed_region XXHash.XXH32 ipc_arena_init
              (after_call XXHash.XXH32 ipc_arena_init 1) 1 16 [1]
              eq_refl eq_refl) as (written & Hw & Hr & Hsum).
  exists written. split; [exact Hw|]. split; [exact Hr|]. split; [exact Hsum|].
  split; vm_compute; reflexivity.
Defined.

(** C2 on the code: the capacity test leaves the 16-byte header out.  On a
    fresh arena a request for the whole capacity passes the test, and the
    call then zeroes the range [(16, 4194304)], which ends 16 bytes past
    the buffer: it does not return NULL, it is undefined.  And after a
    first region that ends 16 bytes before the end, a second call passes
    the test with a payload that starts at the very end of the buffer. *)
Theorem allocate_writes_past_buffer (XXH32 : list Z -> Z -> Z) :
  (refused ipc_arena_init 4194304 = false /\
   stores ipc_arena_init 4194304
   = [(0, 4); (4, 4); (12, 4); (16, 4194304); (8, 4)] /\
   ~ in_buffer (16, 4194304) /\
   (forall b, memset b 16 0 4194304 = None) /\
   ipc_arena_allocate XXH32 ipc_arena_init 4194304 = None) /\
  (ipc_arena_allocate XXH32 ipc_arena_init 4194272
   = Some (mkAllocation (Some 16) (after_call XXH32 ipc_arena_init 4194272)) /\
   write_offset (after_call XXH32 ipc_arena_init 4194272) = 4194288 /\
   refused (after_call XXH32 ipc_arena_init 4194272) 16 = false /\
   stores (after_call XXH32 ipc_arena_init 4194272) 16
   = [(4194288, 4); (4194292, 4); (4194300, 4); (4194304, 16); (4194296, 4)] /\
   ~ in_buffer (4194304, 16) /\
   (forall b, memset b 4194304 0 16 = None) /\
   ipc_arena_allocate XXH32 (after_call XXH32 ipc_arena_init 4194272) 16 = None /\
   allocate_all XXH32 ipc_arena_init [4194272; 16] = None).
Proof.
  repeat split; try reflexivity;
    unfold in_buffer, IPC_BUFFER_SIZE; simpl; lia.
Qed.

End Arena.

(** * Further properties of the sources *)

(** ** Splitting a path into segments *)

Module PathSplit.

Import CStr.

Lemma strtok_from_trailing (d : ascii) (s : string) :
  forall acc, strtok_from d (s ++ String d EmptyString) acc = strtok_from d s acc.
Proof.
  induction s as [|c t IH]; intros acc; simpl.
  - rewrite Ascii.eqb_refl. destruct acc; reflexivity.
  - destruct (Ascii.eqb c d); [destruct acc|]; rewrite IH; reflexivity.
Qed.

Lemma strtok_from_slash_free (s : string) :
  forall rest acc,
    slash_free s ->
    strtok_from "/"%char (s ++ rest) acc = strtok_from "/"%char rest (acc ++ s).
Proof.
  induction s as [|c t IH]; intros rest acc Hs; simpl.
  - replace (acc ++ "") with acc; [reflexivity|].
    clear. induction acc as [|a acc IHa]; simpl; [reflexivity | now rewrite <- IHa].
  - destruct Hs as [Hc Ht].
    destruct (Ascii.eqb_spec c "/"%char) as [E|_]; [contradiction|].
    rewrite IH by exact Ht. rewrite BodyWrite.app_assoc. reflexivity.
Qed.

Lemma strtok_from_join (segs : list string) (acc : string) :
  acc <> EmptyString ->
  strtok_from "/"%char (join_path segs) acc
  = acc :: strtok_from "/"%char (join_path segs) EmptyString.
Proof.
  intros Hacc. destruct segs as [|s rest]; simpl.
  - destruct acc; [contradiction | reflexivity].
  - destruct acc; [contradiction | reflexivity].
Qed.

(** A path written as a slash before each segment splits into exactly
    those segments, for segments that are not empty and hold no slash. *)
Theorem path_segments_join (segs : list string) :
  Forall proper_segment segs -> path_segments (join_path segs) = segs.
Proof.
  unfold path_segments, strtok_all.
  induction segs as [|s rest IH]; intros Hall; [reflexivity|].
  inversion Hall as [|? ? [Hne Hfree] Hrest]; subst.
  simpl. rewrite strtok_from_slash_free by exact Hfree. simpl.
  rewrite strtok_from_join by exact Hne. rewrite IH by exact Hrest. reflexivity.
Qed.

Lemma path_segments_join_witness :
  path_segments (join_path ["api"; "users"; ":id"]) = ["api"; "users"; ":id"].
Proof.
  apply path_segments_join.
  repeat constructor; simpl; try discriminate; repeat split; discriminate.
Defined.

Lemma slash_free_app (a b : string) :
  slash_free a -> slash_free b -> slash_free (a ++ b).
Proof.
  induction a as [|c t IH]; simpl; intros Ha Hb; [exact Hb|].
  destruct Ha as [Hc Ht]. split; [exact Hc | exact (IH Ht Hb)].
Qed.

Lemma strtok_from_proper (s : string) :
  forall acc, slash_free acc ->
              Forall proper_segment (strtok_from "/"%char s acc).
Proof.
  induction s as [|c t IH]; intros acc Hacc; simpl.
  - destruct acc; constructor; [|constructor].
    split; [discriminate | exact Hacc].
  - destruct (Ascii.eqb_spec c "/"%char) as [E|E].
    + destruct acc as [|a acc']; [apply IH; exact I|].
      constructor; [split; [discriminate | exact Hacc] | apply IH; exact I].
    + apply IH. apply slash_free_app; [exact Hacc | simpl; auto].
Qed.

(** Every segment [strtok_r] yields is non-empty and holds no slash, so
    leading, trailing and repeated slashes never produce a segment; in
    particular a trailing slash does not change the split. *)
Theorem path_segments_proper (path : string) :
  Forall proper_segment (path_segments path) /\
  path_segments (path ++ "/") = path_segments path /\
  path_segments ("/" ++ path) = path_segments path.
Proof.
  split; [apply strtok_from_proper; exact I|]. split.
  - apply strtok_from_trailing.
  - reflexivity.
Qed.

End PathSplit.

(** ** Insertion followed by matching *)

Module TrieRoundTrip.

Lemma find_child_none {H : Type} (cs : list (TrieNode H)) (seg : string) :
  find_child cs seg = None <-> Forall (fun c => segment c <> seg) cs.
Proof.
  induction cs as [|c rest IH]; simpl.
  - split; [constructor | reflexivity].
  - unfold CStr.streq. destruct (String.eqb_spec (segment c) seg) as [E|E].
    + split; [discriminate|]. intros F. inversion F; contradiction.
    + destruct (find_child rest seg) as [[[b h] a]|].
      * split; [discriminate|]. intros F. inversion F as [|? ? _ Fr]; subst.
        apply IH in Fr. discriminate.
      * split; [|reflexivity]. intros _. constructor; [exact E | now apply IH].
Qed.

Lemma find_child_at {H : Type} (before : list (TrieNode H)) (hit : TrieNode H)
  (after : list (TrieNode H)) (seg : string) :
  Forall (fun c => segment c <> seg) before ->
  segment hit = seg ->
  find_child (before ++ hit :: after) seg = Some (before, hit, after).
Proof.
  intros Hb Hs. induction Hb as [|c rest Hc _ IH]; simpl.
  - unfold CStr.streq. rewrite Hs, String.eqb_refl. reflexivity.
  - unfold CStr.streq. destruct (String.eqb_spec (segment c) seg) as [E|_];
      [contradiction|]. rewrite IH. reflexivity.
Qed.

Lemma find_child_replace {H : Type} (cs before after : list (TrieNode H))
  (hit hit' : TrieNode H) (seg : string) :
  find_child cs seg = Some (before, hit, after) ->
  segment hit' = segment hit ->
  find_child (before ++ hit' :: after) seg = Some (before, hit', after).
Proof.
  intros Hfind Hseg.
  destruct (Matching.find_child_first _ _ _ _ _ Hfind) as (_ & Hs & Hb).
  apply find_child_at; [exact Hb | congruence].
Qed.

Lemma find_child_snoc {H : Type} (cs : list (TrieNode H)) (n : TrieNode H)
  (seg : string) :
  find_child cs seg = None -> segment n = seg ->
  find_child (cs ++ [n]) seg = Some (cs, n, []).
Proof.
  intros Hnone Hs. apply find_child_at; [now apply find_child_none | exact Hs].
Qed.

Lemma create_trie_node_some {H : Type} (seg : string) (o o1 : oracle)
  (n : TrieNode H) :
  create_trie_node seg o = (Some n, o1) -> n = mkTrieNode seg None [] None.
Proof.
  unfold create_trie_node. destruct (alloc o) as [a oa]. destruct a.
  - destruct (alloc oa) as [b ob]. destruct b; intros E; inversion E; reflexivity.
  - intros E; inversion E.
Qed.

(** Insertion never renames the node it starts from. *)
Lemma backend_insert_segment {H : Type} (segs : list string) (h : option H)
  (cur cur' : TrieNode H) (o : oracle) :
  snd (fst (Backend.insert_loop segs h cur o)) = Some cur' ->
  segment cur' = segment cur.
Proof.
  destruct segs as [|seg rest]; simpl;
    [intros E; inversion E; reflexivity|].
  destruct (if CStr.is_param_segment seg then None
            else find_child (children cur) seg) as [[[before hit] after]|].
  - destruct (Backend.insert_loop rest h hit o) as [[ok [hit'|]] o'];
      simpl; intros E; inversion E; reflexivity.
  - destruct (create_trie_node seg o) as [[n|] o1];
      [|simpl; intros E; inversion E; reflexivity].
    destruct (CStr.is_param_segment seg).
    + destruct (Backend.insert_loop rest h n o1) as [[ok [n'|]] o2];
        simpl; intros E; inversion E; reflexivity.
    + destruct (alloc o1) as [a o2]. destruct a; [|discriminate].
      destruct (Backend.insert_loop rest h n o2) as [[ok [n'|]] o3];
        simpl; intros E; inversion E; reflexivity.
Qed.

Lemma param_count_cons (seg : string) (rest : list string) :
  param_count (seg :: rest)
  = ((if CStr.is_param_segment seg then 1 else 0) + param_count rest)%nat.
Proof.
  unfold param_count. simpl. destruct (CStr.is_param_segment seg); reflexivity.
Qed.

Lemma bindings_length (segs : list string) :
  List.length (bindings segs segs) = param_count segs.
Proof.
  induction segs as [|seg rest IH]; [reflexivity|].
  rewrite param_count_cons. simpl.
  destruct (CStr.is_param_segment seg); simpl; rewrite IH; reflexivity.
Qed.

(** [trie_match] of [backend/src/libreavix.c] over the segments just
    inserted: each parameter segment is bound to its own text, while the
    cap on captured parameters is not reached. *)
Lemma backend_loop_roundtrip {H : Type} (segs : list string) (h : option H) :
  forall (cur cur' : TrieNode H) (o o' : oracle) (params : list PathParam),
    Backend.insert_loop segs h cur o = (true, Some cur', o') ->
    (List.length params + param_count segs <= MAX_PARAMS)%nat ->
    exists last,
      Backend.match_loop segs cur' params
      = Some (last, (params ++ bindings segs segs)%list) /\
      handler last = h.
Proof.
  induction segs as [|seg rest IH]; intros cur cur' o o' params Hins Hcap.
  - simpl in Hins. inversion Hins; subst. exists (set_handler cur h).
    simpl. rewrite app_nil_r. split; reflexivity.
  - rewrite param_count_cons in Hcap. simpl in Hins. simpl.
    destruct (CStr.is_param_segment seg) eqn:Hp.
    + destruct (create_trie_node seg o) as [[n|] o1] eqn:Hnew; [|discriminate].
      apply create_trie_node_some in Hnew. subst n.
      destruct (Backend.insert_loop rest h (mkTrieNode seg None [] None) o1)
        as [[ok [n'|]] o2] eqn:Hrec; [|discriminate].
      pose proof (backend_insert_segment rest h (mkTrieNode seg None [] None)
                    n' o1) as Hseg.
      rewrite Hrec in Hseg. specialize (Hseg eq_refl).
      inversion Hins; subst. simpl in Hseg. simpl.
      destruct (Nat.ltb_spec (List.length params) MAX_PARAMS) as [_|Hge]; [|lia].
      rewrite Hseg.
      destruct (IH _ n' o1 o' (params ++ [mkPathParam (CStr.skip1 seg) seg])%list
                  Hrec) as (last & Hm & Hh).
      { rewrite length_app. simpl. lia. }
      exists last. rewrite Hm, <- app_assoc. split; [reflexivity | exact Hh].
    + destruct (find_child (children cur) seg) as [[[before hit] after]|] eqn:Hfind.
      * destruct (Backend.insert_loop rest h hit o) as [[ok [hit'|]] o1] eqn:Hrec;
          [|discriminate].
        pose proof (backend_insert_segment rest h hit hit' o) as Hseg.
        rewrite Hrec in Hseg. specialize (Hseg eq_refl).
        inversion Hins; subst. simpl.
        rewrite (find_child_replace _ _ _ _ hit' _ Hfind Hseg).
        exact (IH hit hit' o o' params Hrec ltac:(lia)).
      * destruct (create_trie_node seg o) as [[n|] o1] eqn:Hnew; [|discriminate].
        apply create_trie_node_some in Hnew. subst n.
        destruct (alloc o1) as [a o2]. destruct a; [|discriminate].
        destruct (Backend.insert_loop rest h (mkTrieNode seg None [] None) o2)
          as [[ok [n'|]] o3] eqn:Hrec; [|discriminate].
        pose proof (backend_insert_segment rest h (mkTrieNode seg None [] None)
                      n' o2) as Hseg.
        rewrite Hrec in Hseg. specialize (Hseg eq_refl).
        inversion Hins; subst. simpl in Hseg. simpl.
        rewrite (find_child_snoc _ n' seg Hfind Hseg).
        exact (IH _ n' o2 o' params Hrec ltac:(lia)).
Qed.

(** After [trie_insert] of [backend/src/libreavix.c] has returned true for
    a pattern with at most [MAX_PARAMS] parameter segments, [trie_match] on
    the text of the pattern returns true with the inserted handler and
    binds every parameter to its own text ([id] to [":id"]); without
    parameter segments nothing is captured. *)
Theorem backend_insert_then_match (H : Type) (root root' : TrieNode H)
  (path : string) (h : H) (o o' o2 : oracle) :
  Backend.trie_insert root path (Some h) o = (true, Some root', o') ->
  (param_count (CStr.path_segments path) <= MAX_PARAMS)%nat ->
  fst (alloc o2) = true ->
  fst (Backend.trie_match root' (Some path) o2)
  = mkMatchResult true (Some h)
      (bindings (CStr.path_segments path) (CStr.path_segments path)).
Proof.
  intros Hins Hcap Hok. unfold Backend.trie_insert in Hins.
  unfold Backend.trie_match.
  destruct (alloc o) as [a o1]. destruct a; [|discriminate].
  destruct (alloc o2) as [b o3]. simpl in Hok. subst b.
  destruct (backend_loop_roundtrip _ (Some h) root root' o1 o' [] Hins)
    as (last & Hm & Hh); [simpl; exact Hcap|].
  rewrite Hm, Hh. reflexivity.
Qed.

Lemma backend_insert_then_match_witness :
  fst (Backend.trie_match
         (Sample.backend_trie [("/users/me", 1%nat); ("/users/:id/posts", 2%nat)])
         (Some "/users/:id/posts") [])
  = mkMatchResult true (Some 2%nat) [mkPathParam "id" ":id"].
Proof.
  apply (backend_insert_then_match nat (Sample.backend_trie [("/users/me", 1%nat)])
           (Sample.backend_trie [("/users/me", 1%nat); ("/users/:id/posts", 2%nat)])
           "/users/:id/posts" 2%nat [] [] []).
  - reflexivity.
  - vm_compute. lia.
  - reflexivity.
Defined.

Lemma firstn_full {A : Type} (l rest : list A) (n : nat) :
  List.length l = n -> firstn n (l ++ rest) = l.
Proof.
  intros Hlen. rewrite firstn_app, Hlen, Nat.sub_diag. cbn [firstn].
  rewrite app_nil_r. rewrite <- Hlen. apply firstn_all.
Qed.

(** A single pattern inserted by [trie_insert] of [backend/src/libreavix.c]
    below a node without children: the walk of [trie_match] of
    [backend/include/libreavix.c] over any segments that fit the pattern
    reaches the handler and binds the parameters in pattern order, up to
    the cap. *)
Lemma single_pattern_loop {H : Type} (ps : list string) (h : option H) :
  forall (cs : list string) (cur cur' : TrieNode H) (o o' : oracle)
         (params : list PathParam),
    bare cur ->
    Backend.insert_loop ps h cur o = (true, Some cur', o') ->
    instantiates ps cs ->
    (List.length params <= MAX_PARAMS)%nat ->
    exists last,
      Legacy.match_loop cs cur' params
      = (Some last, firstn MAX_PARAMS (params ++ bindings ps cs)) /\
      handler last = h.
Proof.
  induction ps as [|p rest IH]; intros cs cur cur' o o' params Hbare Hins Hfit Hcap.
  - destruct cs; [|contradiction]. simpl in Hins. inversion Hins; subst.
    exists (set_handler cur h). cbn [Legacy.match_loop bindings].
    rewrite app_nil_r. rewrite firstn_all2 by exact Hcap. split; reflexivity.
  - destruct cs as [|c cs]; [contradiction|]. destruct Hfit as [Hpc Hfit].
    destruct Hbare as [Hkids Hparam].
    simpl in Hins. rewrite Hkids in Hins.
    replace (if CStr.is_param_segment p then None else find_child [] p)
      with (@None (list (TrieNode H) * TrieNode H * list (TrieNode H))) in Hins
      by (destruct (CStr.is_param_segment p); reflexivity).
    destruct (create_trie_node p o) as [[n|] o1] eqn:Hnew; [|discriminate].
    apply create_trie_node_some in Hnew. subst n.
    assert (Hfresh : bare (mkTrieNode p (@None H) [] None)) by (split; reflexivity).
    cbn [bindings Legacy.match_loop].
    destruct (CStr.is_param_segment p) eqn:Hp.
    + destruct (Backend.insert_loop rest h (mkTrieNode p None [] None) o1)
        as [[ok [n'|]] o2] eqn:Hrec; [|discriminate].
      pose proof (backend_insert_segment rest h (mkTrieNode p None [] None)
                    n' o1) as Hseg.
      rewrite Hrec in Hseg. specialize (Hseg eq_refl).
      inversion Hins; subst. simpl in Hseg.
      cbn [children param_child set_param_child]. rewrite Hkids.
      cbn [find_child]. rewrite Hseg.
      destruct (Nat.ltb_spec (List.length params) MAX_PARAMS) as [Hlt|Hge].
      * destruct (IH cs _ n' o1 o' (params ++ [mkPathParam (CStr.skip1 p) c])%list
                    Hfresh Hrec Hfit) as (last & Hm & Hh).
        { rewrite length_app. simpl. lia. }
        exists last. rewrite Hm, <- app_assoc. split; [reflexivity | exact Hh].
      * destruct (IH cs _ n' o1 o' params Hfresh Hrec Hfit Hcap)
          as (last & Hm & Hh).
        exists last. rewrite Hm. split; [|exact Hh].
        rewrite !firstn_full by lia. reflexivity.
    + specialize (Hpc eq_refl). subst c.
      destruct (alloc o1) as [a o2]. destruct a; [|discriminate].
      destruct (Backend.insert_loop rest h (mkTrieNode p None [] None) o2)
        as [[ok [n'|]] o3] eqn:Hrec; [|discriminate].
      pose proof (backend_insert_segment rest h (mkTrieNode p None [] None)
                    n' o2) as Hseg.
      rewrite Hrec in Hseg. specialize (Hseg eq_refl).
      inversion Hins; subst. simpl in Hseg.
      cbn [children set_children app find_child].
      unfold CStr.streq. rewrite Hseg, String.eqb_refl.
      exact (IH cs _ n' o2 o' params Hfresh Hrec Hfit Hcap).
Qed.

(** With one pattern inserted into the empty root by [trie_insert] of
    [backend/src/libreavix.c], [trie_match] of
    [backend/include/libreavix.c] on any path that fits the pattern
    segment by segment returns the handler and one parameter per [:name]
    segment, named without the colon and bound to the segment at that
    position, in pattern order; of more than [MAX_PARAMS] parameters only
    the first [MAX_PARAMS] are returned. *)
Theorem single_pattern_binds (H : Type) (root' : TrieNode H)
  (pattern path : string) (h : H) (o o' o2 : oracle) :
  Backend.trie_insert empty_root pattern (Some h) o = (true, Some root', o') ->
  instantiates (CStr.path_segments pattern) (CStr.path_segments path) ->
  fst (alloc o2) = true ->
  fst (Legacy.trie_match root' (Some path) [] o2)
  = mkMatchResult true (Some h)
      (firstn MAX_PARAMS
         (bindings (CStr.path_segments pattern) (CStr.path_segments path))).
Proof.
  intros Hins Hfit Hok. unfold Backend.trie_insert in Hins.
  unfold Legacy.trie_match.
  destruct (alloc o) as [a o1]. destruct a; [|discriminate].
  destruct (alloc o2) as [b o3]. simpl in Hok. subst b.
  destruct (single_pattern_loop _ (Some h) _ empty_root root' o1 o' []
              (conj eq_refl eq_refl) Hins Hfit) as (last & Hm & Hh);
    [unfold MAX_PARAMS; simpl; lia|].
  rewrite Hm, Hh. reflexivity.
Qed.

Lemma single_pattern_binds_witness :
  fst (Legacy.trie_match
         (Sample.backend_trie [("/users/:id/posts/:post", 5%nat)])
         (Some "/users/42/posts/7") [] [])
  = mkMatchResult true (Some 5%nat)
      [mkPathParam "id" "42"; mkPathParam "post" "7"].
Proof.
  apply (single_pattern_binds nat
           (Sample.backend_trie [("/users/:id/posts/:post", 5%nat)])
           "/users/:id/posts/:post" "/users/42/posts/7" 5%nat [] [] []).
  - reflexivity.
  - simpl. repeat split; intros; try reflexivity; discriminate.
  - reflexivity.
Defined.

Lemma legacy_params_bounded {H : Type} (segs : list string) :
  forall (cur : TrieNode H) (params : list PathParam),
    (List.length params <= MAX_PARAMS)%nat ->
    (List.length (snd (Legacy.match_loop segs cur params)) <= MAX_PARAMS)%nat.
Proof.
  induction segs as [|seg rest IH]; intros cur params Hlen; simpl; [exact Hlen|].
  destruct (find_child (children cur) seg) as [[[b hit] a]|]; [apply IH; exact Hlen|].
  destruct (param_child cur) as [p|]; [|exact Hlen].
  apply IH. destruct (Nat.ltb_spec (List.length params) MAX_PARAMS); [|exact Hlen].
  rewrite length_app. simpl. lia.
Qed.

Lemma router_params_bounded {H : Type} (have : bool) (segs : list string) :
  forall (cur : TrieNode H) (params : list PathParam),
    (List.length params <= MAX_PARAMS)%nat ->
    (List.length (snd (RouterC.match_loop have segs cur params)) <= MAX_PARAMS)%nat.
Proof.
  induction segs as [|seg rest IH]; intros cur params Hlen; simpl; [exact Hlen|].
  destruct (find_child (children cur) seg) as [[[b hit] a]|]; [apply IH; exact Hlen|].
  destruct (param_child cur) as [p|]; [|exact Hlen].
  apply IH. destruct have; simpl; [|exact Hlen].
  destruct (Nat.ltb_spec (List.length params) MAX_PARAMS); [|exact Hlen].
  rewrite length_app. simpl. lia.
Qed.

Lemma backend_params_bounded {H : Type} (segs : list string) :
  forall (cur last : TrieNode H) (params params' : list PathParam),
    (List.length params <= MAX_PARAMS)%nat ->
    Backend.match_loop segs cur params = Some (last, params') ->
    (List.length params' <= MAX_PARAMS)%nat.
Proof.
  induction segs as [|seg rest IH]; intros cur last params params' Hlen Hm;
    simpl in Hm.
  - inversion Hm; subst. exact Hlen.
  - destruct (if CStr.is_param_segment seg then None
              else find_child (children cur) seg) as [[[b hit] a]|].
    + exact (IH _ _ _ _ Hlen Hm).
    + destruct (param_child cur) as [p|]; [|discriminate].
      destruct (CStr.is_param_segment seg); simpl in Hm; [|discriminate].
      destruct (Nat.ltb_spec (List.length params) MAX_PARAMS); [|discriminate].
      eapply IH; [|exact Hm]. rewrite length_app. simpl. lia.
Qed.

(** None of the three matchers ever reports more than [MAX_PARAMS]
    captured parameters, whatever the trie and the path: the caller's
    array of [MAX_PARAMS] entries is never overrun. *)
Theorem captured_params_bounded (H : Type) (root : TrieNode H)
  (path : option string) (o : oracle) :
  (List.length (out_params (fst (Backend.trie_match root path o)))
   <= MAX_PARAMS)%nat /\
  (forall params0,
     (List.length params0 <= MAX_PARAMS)%nat ->
     (List.length (out_params (fst (Legacy.trie_match root path params0 o)))
      <= MAX_PARAMS)%nat) /\
  (forall handler_eqb routes method have_params,
     (List.length
        (out_params
           (fst (RouterC.router_match handler_eqb (RouterC.mkRouter root routes)
                   method path have_params o)))
      <= MAX_PARAMS)%nat).
Proof.
  assert (H0 : (0 <= MAX_PARAMS)%nat) by (unfold MAX_PARAMS; lia).
  split; [|split].
  - unfold Backend.trie_match. destruct path as [p|]; [|exact H0].
    destruct (alloc o) as [a o1]. destruct a; [|exact H0].
    destruct (Backend.match_loop (CStr.path_segments p) root []) as [[last ps]|] eqn:E;
      [|exact H0].
    simpl. exact (backend_params_bounded _ root last [] ps H0 E).
  - intros params0 Hlen. unfold Legacy.trie_match.
    destruct path as [p|]; [|exact Hlen].
    destruct (alloc o) as [a o1]. destruct a; [|exact Hlen].
    pose proof (legacy_params_bounded (CStr.path_segments p) root params0 Hlen) as Hb.
    destruct (Legacy.match_loop (CStr.path_segments p) root params0) as [[last|] ps];
      exact Hb.
  - intros handler_eqb routes method have_params. unfold RouterC.router_match.
    destruct path as [p|]; [|exact H0].
    destruct (alloc o) as [a o1]. destruct a; [|exact H0].
    pose proof (router_params_bounded have_params (CStr.path_segments p) root [] H0)
      as Hb.
    simpl.
    destruct (RouterC.match_loop have_params (CStr.path_segments p) root [])
      as [[last|] ps]; [|exact Hb].
    destruct method; exact Hb.
Qed.

Lemma captured_params_bounded_witness :
  (List.length
     (out_params
        (fst (Legacy.trie_match
                (Sample.backend_trie
                   [("/:a/:b/:c/:d/:e/:f/:g/:h/:i/:j/:k/:l", 1%nat)])
                (Some "/1/2/3/4/5/6/7/8/9/10/11/12") [] [])))
   <= MAX_PARAMS)%nat.
Proof.
  apply (proj1 (proj2 (captured_params_bounded nat
           (Sample.backend_trie [("/:a/:b/:c/:d/:e/:f/:g/:h/:i/:j/:k/:l", 1%nat)])
           (Some "/1/2/3/4/5/6/7/8/9/10/11/12") []))).
  simpl. lia.
Defined.

End TrieRoundTrip.

(** ** The three matchers compared *)

Module MatcherAgreement.

Lemma router_loop_is_legacy_loop {H : Type} (segs : list string) :
  forall (cur : TrieNode H) (params : list PathParam),
    RouterC.match_loop true segs cur params = Legacy.match_loop segs cur params.
Proof.
  induction segs as [|seg rest IH]; intros cur params; simpl; [reflexivity|].
  destruct (find_child (children cur) seg) as [[[b hit] a]|]; [apply IH|].
  destruct (param_child cur) as [p|]; [apply IH | reflexivity].
Qed.

(** [router_match] called without a method and with a parameter array
    returns exactly what [trie_match] of [backend/include/libreavix.c]
    returns on the same trie, for every path and allocator. *)
Theorem router_match_is_legacy_trie_match (H : Type)
  (handler_eqb : H -> H -> bool) (root : TrieNode H)
  (routes : list (RouteEntry H)) (path : option string) (o : oracle) :
  RouterC.router_match handler_eqb (RouterC.mkRouter root routes) None path true o
  = Legacy.trie_match root path [] o.
Proof.
  unfold RouterC.router_match, Legacy.trie_match.
  destruct path as [p|]; [|reflexivity].
  destruct (alloc o) as [a o1]. destruct a; [|reflexivity].
  simpl. rewrite router_loop_is_legacy_loop.
  destruct (Legacy.match_loop (CStr.path_segments p) root []) as [[last|] ps];
    reflexivity.
Qed.

Lemma backend_static_walk {H : Type} (segs : list string) :
  forall (cur last : TrieNode H) (params params' : list PathParam),
    Forall (fun s => CStr.is_param_segment s = false) segs ->
    Backend.match_loop segs cur params = Some (last, params') ->
    params' = params /\ Legacy.match_loop segs cur params = (Some last, params).
Proof.
  induction segs as [|seg rest IH]; intros cur last params params' Hall Hm;
    simpl in Hm.
  - inversion Hm; subst. split; reflexivity.
  - inversion Hall as [|? ? Hseg Hrest]; subst. rewrite Hseg in Hm. simpl.
    destruct (find_child (children cur) seg) as [[[b hit] a]|].
    + exact (IH _ _ _ _ Hrest Hm).
    + destruct (param_child cur); discriminate.
Qed.

(** For a path none of whose segments starts with a colon, [trie_match]
    of [backend/src/libreavix.c] walks static children only: it never
    captures a parameter, and whenever it returns true, [trie_match] of
    [backend/include/libreavix.c] returns true with the same handler on
    the same trie. *)
Theorem backend_match_static_only (H : Type) (root : TrieNode H) (path : string)
  (o : oracle) :
  Forall (fun s => CStr.is_param_segment s = false) (CStr.path_segments path) ->
  out_params (fst (Backend.trie_match root (Some path) o)) = [] /\
  (matched (fst (Backend.trie_match root (Some path) o)) = true ->
   fst (Legacy.trie_match root (Some path) [] o)
   = fst (Backend.trie_match root (Some path) o)).
Proof.
  intros Hall. unfold Backend.trie_match, Legacy.trie_match.
  destruct (alloc o) as [a o1]. destruct a; [|split; [reflexivity|discriminate]].
  destruct (Backend.match_loop (CStr.path_segments path) root [])
    as [[last ps]|] eqn:E; [|split; [reflexivity|discriminate]].
  destruct (backend_static_walk _ _ _ _ _ Hall E) as [-> Hl].
  rewrite Hl. simpl. split; [reflexivity|].
  destruct (handler last); [reflexivity | discriminate].
Qed.

Lemma backend_match_static_only_witness :
  out_params
    (fst (Backend.trie_match
            (Sample.backend_trie [("/users/:id", 1%nat); ("/users/me", 2%nat)])
            (Some "/users/42") [])) = [] /\
  (matched
     (fst (Backend.trie_match
             (Sample.backend_trie [("/users/:id", 1%nat); ("/users/me", 2%nat)])
             (Some "/users/me") [])) = true ->
   fst (Legacy.trie_match
          (Sample.backend_trie [("/users/:id", 1%nat); ("/users/me", 2%nat)])
          (Some "/users/me") [] [])
   = fst (Backend.trie_match
            (Sample.backend_trie [("/users/:id", 1%nat); ("/users/me", 2%nat)])
            (Some "/users/me") [])).
Proof.
  split.
  - apply (backend_match_static_only nat
             (Sample.backend_trie [("/users/:id", 1%nat); ("/users/me", 2%nat)])
             "/users/42" []).
    repeat constructor.
  - apply (backend_match_static_only nat
             (Sample.backend_trie [("/users/:id", 1%nat); ("/users/me", 2%nat)])
             "/users/me" []).
    repeat constructor.
Defined.

End MatcherAgreement.

(** ** The route table and the trie under registration *)

Module TableInvariant.

Import Server.

Lemma same_route_key {H : Type} (m p : string) (l : list (RouteEntry H)) :
  existsb (same_route m p) l = false <-> ~ In (m, p) (map route_key l).
Proof.
  induction l as [|e rest IH]; simpl.
  - split; [intros _ [] | reflexivity].
  - unfold same_route at 1, CStr.streq, route_key at 1.
    destruct (String.eqb_spec (re_method e) m) as [Em|Em];
      destruct (String.eqb_spec (re_path e) p) as [Ep|Ep]; simpl.
    + subst. split; [discriminate|]. intros F. exfalso. apply F. left. reflexivity.
    + rewrite IH. split; intros F; [intros [E|E]; [inversion E; contradiction|auto]
                                   | intros E; apply F; right; exact E].
    + rewrite IH. split; intros F; [intros [E|E]; [inversion E; contradiction|auto]
                                   | intros E; apply F; right; exact E].
    + rewrite IH. split; intros F; [intros [E|E]; [inversion E; contradiction|auto]
                                   | intros E; apply F; right; exact E].
Qed.

Lemma NoDup_snoc {A : Type} (l : list A) (x : A) :
  NoDup l -> ~ In x l -> NoDup (l ++ [x]).
Proof.
  intros Hl Hx. induction Hl as [|y l Hy Hl IH]; simpl.
  - constructor; [intros [] | constructor].
  - constructor.
    + rewrite in_app_iff. intros [F|[F|[]]]; [contradiction|].
      subst. apply Hx. left. reflexivity.
    + apply IH. intros F. apply Hx. right. exact F.
Qed.

(** Whatever the arguments and the allocator, [reavix_route] called on a
    state that has a trie has an outcome, and every outcome, also one in
    which a failed [realloc] has cost the trie, keeps the table within
    [route_capacity] and free of two entries with the same method and
    path, and leaves the capacity, the plugins, the middleware and the
    clients as they were. *)
Theorem reavix_route_keeps_table (H : Type) (st : reavix_state H)
  (method path : option string) (h : option H) (o : oracle) :
  table_ok st ->
  (root_node st <> None ->
   exists ok st' o', reavix_route st method path h o = Some (ok, st', o')) /\
  (forall ok st' o',
     reavix_route st method path h o = Some (ok, st', o') ->
     table_ok st' /\
     route_capacity st' = route_capacity st /\
     plugins st' = plugins st /\
     middleware st' = middleware st /\
     clients st' = clients st).
Proof.
  intros [Hcap Hdup]. unfold reavix_route.
  destruct method as [m|], path as [p|], h as [f|];
    try (split; [intros _; do 3 eexists; reflexivity|];
         intros ok st' o' E; inversion E; subst; repeat split; assumption).
  destruct (Nat.leb_spec (route_capacity st) (List.length (routes st)));
    [split; [intros _; do 3 eexists; reflexivity|];
     intros ok st' o' E; inversion E; subst; repeat split; assumption|].
  destruct (existsb (same_route m p) (routes st)) eqn:E;
    [split; [intros _; do 3 eexists; reflexivity|];
     intros ok st' o' E'; inversion E'; subst; repeat split; assumption|].
  destruct (root_node st) as [root|].
  - destruct (Backend.trie_insert root p (Some f) o) as [[ok root'] o'].
    split; [intros _; do 3 eexists; reflexivity|].
    intros ok2 st' o2 E'. inversion E'; subst. repeat split.
    + simpl. rewrite length_app. simpl. lia.
    + simpl. rewrite map_app. simpl. apply NoDup_snoc; [exact Hdup|].
      now apply (same_route_key m p).
  - split; [intros F; contradiction|]. discriminate.
Qed.

Lemma reavix_route_keeps_table_witness :
  exists ok st' o',
    reavix_route
      (Sample.register_all (@init_state nat 2) [("/a", 1%nat); ("/b", 2%nat)])
      (Some "GET") (Some "/c") (Some 3%nat) []
    = Some (ok, st', o').
Proof.
  apply (reavix_route_keeps_table nat
           (Sample.register_all (@init_state nat 2) [("/a", 1%nat); ("/b", 2%nat)])
           (Some "GET") (Some "/c") (Some 3%nat) []).
  - split.
    + vm_compute. lia.
    + vm_compute. repeat constructor; simpl; intuition discriminate.
  - vm_compute. discriminate.
Defined.

Lemma trie_handlers_unfold {H : Type} (n : TrieNode H) :
  trie_handlers n
  = (match handler n with Some f => [f] | None => [] end
     ++ flat_map trie_handlers (children n)
     ++ match param_child n with Some q => trie_handlers q | None => [] end)%list.
Proof.
  destruct n as [s h cs p]. reflexivity.
Qed.

Lemma in_trie_handlers {H : Type} (n : TrieNode H) (f : H) :
  In f (trie_handlers n) <->
  handler n = Some f \/
  (exists c, In c (children n) /\ In f (trie_handlers c)) \/
  (exists q, param_child n = Some q /\ In f (trie_handlers q)).
Proof.
  rewrite trie_handlers_unfold, !in_app_iff, in_flat_map. split.
  - intros [Hh|[Hc|Hp]].
    + left. destruct (handler n); [|contradiction].
      destruct Hh as [->|[]]. reflexivity.
    + right. left. exact Hc.
    + right. right. destruct (param_child n) as [q|]; [|contradiction].
      exists q. split; [reflexivity | exact Hp].
  - intros [Hh|[Hc|(q & Hq & Hp)]].
    + left. rewrite Hh. left. reflexivity.
    + right. left. exact Hc.
    + right. right. rewrite Hq. exact Hp.
Qed.

#[local] Arguments trie_handlers {H} n : simpl never.

(** Insertion adds no handler but the one it is given. *)
Lemma backend_insert_handlers {H : Type} (segs : list string) (h : option H) :
  forall (cur cur' : TrieNode H) (o : oracle) (f : H),
    snd (fst (Backend.insert_loop segs h cur o)) = Some cur' ->
    In f (trie_handlers cur') ->
    h = Some f \/ In f (trie_handlers cur).
Proof.
  induction segs as [|seg rest IH]; intros cur cur' o f Hres Hin; simpl in Hres.
  - inversion Hres; subst cur'. apply in_trie_handlers in Hin. simpl in Hin.
    destruct Hin as [Hh|Hrest]; [left; exact Hh|].
    right. apply in_trie_handlers. right. exact Hrest.
  - destruct (if CStr.is_param_segment seg then None
              else find_child (children cur) seg)
      as [[[before hit] after]|] eqn:Hfind.
    + assert (Hkids : children cur = (before ++ hit :: after)%list).
      { destruct (CStr.is_param_segment seg); [discriminate|].
        exact (proj1 (Matching.find_child_first _ _ _ _ _ Hfind)). }
      destruct (Backend.insert_loop rest h hit o) as [[ok [hit'|]] o1] eqn:Hrec;
        [|discriminate].
      specialize (IH hit hit' o f). rewrite Hrec in IH. specialize (IH eq_refl).
      simpl in Hres. inversion Hres; subst cur'.
      apply in_trie_handlers in Hin. simpl in Hin.
      destruct Hin as [Hh|[(c & Hc & Hf)|Hp]].
      * right. apply in_trie_handlers. left. exact Hh.
      * apply in_app_iff in Hc. destruct Hc as [Hc|[Hc|Hc]].
        -- right. apply in_trie_handlers. right. left. exists c.
           rewrite Hkids, in_app_iff. auto.
        -- subst c. destruct (IH Hf) as [Hh|Hhit]; [left; exact Hh|].
           right. apply in_trie_handlers. right. left. exists hit.
           rewrite Hkids, in_app_iff. simpl. auto.
        -- right. apply in_trie_handlers. right. left. exists c.
           rewrite Hkids, in_app_iff. simpl. auto.
      * right. apply in_trie_handlers. right. right. exact Hp.
    + destruct (create_trie_node seg o) as [[n|] o1] eqn:Hnew;
        [|inversion Hres; subst cur'; right; exact Hin].
      apply TrieRoundTrip.create_trie_node_some in Hnew. subst n.
      assert (Hfresh : forall g, ~ In g (trie_handlers (mkTrieNode seg (@None H) [] None)))
        by (intros g []).
      destruct (CStr.is_param_segment seg).
      * destruct (Backend.insert_loop rest h (mkTrieNode seg None [] None) o1)
          as [[ok [n'|]] o2] eqn:Hrec; [|discriminate].
        specialize (IH (mkTrieNode seg None [] None) n' o1 f).
        rewrite Hrec in IH. specialize (IH eq_refl).
        simpl in Hres. inversion Hres; subst cur'.
        apply in_trie_handlers in Hin. simpl in Hin.
        destruct Hin as [Hh|[Hc|(q & Hq & Hf)]].
        -- right. apply in_trie_handlers. left. exact Hh.
        -- right. apply in_trie_handlers. right. left. exact Hc.
        -- inversion Hq; subst q. destruct (IH Hf) as [Hh|Hn]; [left; exact Hh|].
           exfalso. exact (Hfresh f Hn).
      * destruct (alloc o1) as [a o2]. destruct a; [|discriminate].
        destruct (Backend.insert_loop rest h (mkTrieNode seg None [] None) o2)
          as [[ok [n'|]] o3] eqn:Hrec; [|discriminate].
        specialize (IH (mkTrieNode seg None [] None) n' o2 f).
        rewrite Hrec in IH. specialize (IH eq_refl).
        simpl in Hres. inversion Hres; subst cur'.
        apply in_trie_handlers in Hin. simpl in Hin.
        destruct Hin as [Hh|[(c & Hc & Hf)|Hp]].
        -- right. apply in_trie_handlers. left. exact Hh.
        -- apply in_app_iff in Hc. destruct Hc as [Hc|[Hc|[]]].
           ++ right. apply in_trie_handlers. right. left. exists c. auto.
           ++ subst c. destruct (IH Hf) as [Hh|Hn]; [left; exact Hh|].
              exfalso. exact (Hfresh f Hn).
        -- right. apply in_trie_handlers. right. right. exact Hp.
Qed.

(** Right after [reavix_init] the trie holds no handler.  After any call
    of [reavix_route], also one that returns false, every handler in the
    trie is the handler of an entry of the table; the one exception is a
    call that returns false after a failed [realloc] of a [children]
    array, which leaves no trie that could be walked. *)
Theorem reavix_route_trie_within_table (H : Type) (st : reavix_state H)
  (method path : option string) (h : option H) (o : oracle) (capacity : nat) :
  trie_within_table (@init_state H capacity) /\
  (trie_within_table st ->
   exists ok st' o',
     reavix_route st method path h o = Some (ok, st', o') /\
     (trie_within_table st' \/ (ok = false /\ root_node st' = None))).
Proof.
  split; [exists empty_root; split; [reflexivity | intros f []]|].
  intros (root & Hroot & Hinv). unfold reavix_route.
  assert (Hsame : exists ok st' o',
             Some (false, st, o) = Some (ok, st', o') /\
             (trie_within_table st' \/ (ok = false /\ root_node st' = None))).
  { exists false, st, o. split; [reflexivity|]. left. exists root. auto. }
  destruct method as [m|], path as [p|], h as [f|]; try exact Hsame.
  destruct (route_capacity st <=? List.length (routes st))%nat; [exact Hsame|].
  destruct (existsb (same_route m p) (routes st)); [exact Hsame|].
  rewrite Hroot. cbv beta iota.
  pose proof (backend_insert_handlers (CStr.path_segments p) (Some f) root)
    as Hins.
  unfold Backend.trie_insert. destruct (alloc o) as [a o1]. destruct a.
  - specialize (fun cur' => Hins cur' o1).
    destruct (Backend.insert_loop (CStr.path_segments p) (Some f) root o1)
      as [[ok [root'|]] o2] eqn:Hloop.
    + do 3 eexists. split; [reflexivity|]. left.
      exists root'. split; [reflexivity|].
      intros g Hg. cbn [routes]. cbn [snd fst] in Hins.
      destruct (Hins root' g eq_refl Hg) as [Hnew|Hold].
      * inversion Hnew; subst g. exists (mkRouteEntry m p f).
        rewrite in_app_iff. simpl. auto.
      * destruct (Hinv g Hold) as (e & He & Hh). exists e.
        rewrite in_app_iff. auto.
    + do 3 eexists. split; [reflexivity|]. right. split; [|reflexivity].
      clear Hins. revert Hloop. generalize (CStr.path_segments p), root, o1.
      intros segs. induction segs as [|seg rest IH]; intros cur oc Hloop;
        simpl in Hloop; [discriminate|].
      destruct (if CStr.is_param_segment seg then None
                else find_child (children cur) seg) as [[[before hit] after]|].
      * destruct (Backend.insert_loop rest (Some f) hit oc)
          as [[ok1 [hit'|]] oc1] eqn:Hrec; [discriminate|].
        inversion Hloop; subst. exact (IH _ _ Hrec).
      * destruct (create_trie_node seg oc) as [[n|] oc1]; [|discriminate].
        destruct (CStr.is_param_segment seg).
        -- destruct (Backend.insert_loop rest (Some f) n oc1)
             as [[ok1 [n'|]] oc2] eqn:Hrec; [discriminate|].
           inversion Hloop; subst. exact (IH _ _ Hrec).
        -- destruct (alloc oc1) as [b oc2]. destruct b.
           ++ destruct (Backend.insert_loop rest (Some f) n oc2)
                as [[ok1 [n'|]] oc3] eqn:Hrec; [discriminate|].
              inversion Hloop; subst. exact (IH _ _ Hrec).
           ++ inversion Hloop. reflexivity.
  - do 3 eexists. split; [reflexivity|]. left.
    exists root. split; [reflexivity|].
    intros g Hg. cbn [routes].
    destruct (Hinv g Hg) as (e & He & Hh). exists e. rewrite in_app_iff. auto.
Qed.

Lemma reavix_route_trie_within_table_witness :
  exists ok st' o',
    reavix_route (@init_state nat 4) (Some "GET") (Some "/a/:x")
      (Some 1%nat) [true; true; true; true; false]
    = Some (ok, st', o') /\
    (trie_within_table st' \/ (ok = false /\ root_node st' = None)).
Proof.
  apply (proj2 (reavix_route_trie_within_table nat (@init_state nat 4) (Some "GET")
                  (Some "/a/:x") (Some 1%nat) [true; true; true; true; false] 4)).
  exists empty_root. split; [reflexivity | intros f []].
Defined.

End TableInvariant.

(** ** The flat router of backend/include/libreavix.c *)

Module FlatRouter.

Import LegacyRouter.

Lemma find_none_existsb {A : Type} (f : A -> bool) (l : list A) :
  existsb f l = false -> find f l = None.
Proof.
  induction l as [|x rest IH]; simpl; [reflexivity|].
  destruct (f x); [discriminate | exact IH].
Qed.

Lemma find_snoc {A : Type} (f : A -> bool) (l : list A) (x : A) :
  find f (l ++ [x])
  = match find f l with
    | Some y => Some y
    | None => if f x then Some x else None
    end.
Proof.
  induction l as [|y rest IH]; simpl; [reflexivity|].
  destruct (f y); [reflexivity | exact IH].
Qed.

Lemma same_route_refl {H : Type} (m p : string) (f : H) :
  same_route m p (mkRouteEntry m p f) = true.
Proof. unfold same_route, CStr.streq. simpl. now rewrite !String.eqb_refl. Qed.

Lemma same_route_other {H : Type} (m p m' p' : string) (f : H) :
  m' <> m \/ p' <> p -> same_route m' p' (mkRouteEntry m p f) = false.
Proof.
  intros Hne. unfold same_route, CStr.streq. simpl.
  destruct (String.eqb_spec m m'); destruct (String.eqb_spec p p');
    try reflexivity.
  subst. destruct Hne; contradiction.
Qed.

(** After [reavix_route] has returned true for a method, path and handler,
    [dispatch_request] for that method and path invokes that handler, and
    for any other method or path it does what it did before. *)
Theorem route_then_dispatch (H : Type) (t t' : RouteTable H) (m p : string)
  (h : H) (o o' : oracle) :
  reavix_route t (Some m) (Some p) (Some h) o = (true, t', o') ->
  dispatch_request t' m p = Some h /\
  (forall m' p', m' <> m \/ p' <> p ->
                 dispatch_request t' m' p' = dispatch_request t m' p').
Proof.
  unfold reavix_route. intros Hreg.
  destruct (lt_capacity t <=? List.length (entries t))%nat; [discriminate|].
  destruct (existsb (same_route m p) (entries t)) eqn:Hnew; [discriminate|].
  destruct (alloc o) as [a o1]. destruct (alloc o1) as [b o2].
  destruct (a && b); [|discriminate].
  inversion Hreg; subst. unfold dispatch_request, entries at 1 3. simpl.
  split.
  - rewrite find_snoc, (find_none_existsb _ _ Hnew), same_route_refl. reflexivity.
  - intros m' p' Hne. rewrite find_snoc, (same_route_other _ _ _ _ _ Hne).
    destruct (find (same_route m' p') (entries t)); reflexivity.
Qed.

Lemma route_then_dispatch_witness :
  dispatch_request
    (snd (fst (reavix_route
                 (snd (fst (reavix_init (@no_table nat) 4 [])))
                 (Some "GET") (Some "/api/users") (Some 7%nat) [])))
    "GET" "/api/users" = Some 7%nat.
Proof.
  apply (route_then_dispatch nat (snd (fst (reavix_init (@no_table nat) 4 [])))
           _ "GET" "/api/users" 7%nat [] []).
  reflexivity.
Defined.

(** A false return of [reavix_init] or of [reavix_route] leaves the table
    exactly as it was, whatever the cause (bad argument, second
    initialisation, table full, duplicate, failed allocation); and before
    [reavix_init] every registration returns false. *)
Theorem flat_router_failure_is_clean (H : Type) (t : RouteTable H)
  (max_routes : nat) (method path : option string) (h : option H) (o : oracle) :
  (fst (fst (reavix_init t max_routes o)) = false ->
   snd (fst (reavix_init t max_routes o)) = t) /\
  (fst (fst (reavix_route t method path h o)) = false ->
   snd (fst (reavix_route t method path h o)) = t) /\
  fst (fst (reavix_route no_table method path h o)) = false.
Proof.
  split; [|split].
  - unfold reavix_init. destruct max_routes; [reflexivity|].
    destruct (lt_routes t); [reflexivity|].
    destruct (alloc o) as [a o1]. destruct a; [discriminate | reflexivity].
  - unfold reavix_route. destruct method, path, h; try reflexivity.
    destruct (lt_capacity t <=? List.length (entries t))%nat; [reflexivity|].
    destruct (existsb _ _); [reflexivity|].
    destruct (alloc o) as [a o1]. destruct (alloc o1) as [b o2].
    destruct (a && b); [discriminate | reflexivity].
  - unfold reavix_route. destruct method, path, h; reflexivity.
Qed.

Lemma flat_router_failure_is_clean_witness :
  snd (fst (reavix_route (mkRouteTable (Some [mkRouteEntry "GET" "/a" 1%nat]) 4)
              (Some "GET") (Some "/b") (Some 2%nat) [true; false]))
  = mkRouteTable (Some [mkRouteEntry "GET" "/a" 1%nat]) 4.
Proof.
  apply (proj1 (proj2 (flat_router_failure_is_clean nat
           (mkRouteTable (Some [mkRouteEntry "GET" "/a" 1%nat]) 4) 4
           (Some "GET") (Some "/b") (Some 2%nat) [true; false]))).
  reflexivity.
Defined.

End FlatRouter.

(** ** The order of the pipeline stages *)

Module StageOrder.

Import Server.

Lemma sent_stage_excluded (tr pre : Trace) (s : StageId) (e : Exchange) :
  none_sent tr -> tr = (pre ++ [(s, e)])%list -> before_routing s ->
  headers_sent (ex_res e) = true -> False.
Proof.
  intros Htr -> Hs He. apply Forall_app in Htr as [_ Htr].
  inversion Htr as [|? ? Hx _]; subst. simpl in Hx.
  rewrite (Hx Hs) in He. discriminate.
Qed.

Lemma last_cons {A : Type} (l : list A) :
  forall a d, last (a :: l) d = last l a.
Proof.
  induction l as [|b l IH]; intros a d; [reflexivity|].
  change (last (a :: b :: l) d) with (last (b :: l) d).
  rewrite (IH b d), (IH b a). reflexivity.
Qed.

Lemma last_of_cons (id : StageId) (e : Exchange) (tr : Trace) (ex : Exchange) :
  last_of ((id, e) :: tr) ex = last_of tr e.
Proof. unfold last_of. cbn [map snd]. apply last_cons. Qed.

Lemma last_of_app (tr1 tr2 : Trace) (ex : Exchange) :
  last_of (tr1 ++ tr2)%list ex = last_of tr2 (last_of tr1 ex).
Proof.
  revert ex. induction tr1 as [|[id e] tr1 IH]; intros ex; [reflexivity|].
  cbn [app]. rewrite !last_of_cons. apply IH.
Qed.

Lemma chain_app (a b : list (StageId * Stage)) :
  forall ex, chain (a ++ b)%list ex
             = (chain a ex ++ chain b (last_of (chain a ex) ex))%list.
Proof.
  induction a as [|[id f] a IH]; intros ex; [reflexivity|].
  cbn [app chain]. rewrite IH, last_of_cons. reflexivity.
Qed.

(** The middleware loop, when it runs to its end, has applied every
    middleware in turn, each to what the one before it left. *)
Lemma run_middleware_chain (ms : list Stage) :
  forall i ex tr c ex' tr',
    run_middleware ms i ex tr = (c, ex', tr') ->
    (c = true /\
     tr' = (tr ++ chain (combine (map MiddlewareAt (seq i (List.length ms))) ms)
                    ex)%list /\
     ex' = last_of
             (chain (combine (map MiddlewareAt (seq i (List.length ms))) ms) ex)
             ex)
    \/ (c = false /\ exists pre s, tr' = (pre ++ [(s, ex')])%list /\
                                   before_routing s /\
                                   headers_sent (ex_res ex') = true).
Proof.
  induction ms as [|m rest IH]; intros i ex tr c ex' tr' Hrun; simpl in Hrun.
  - inversion Hrun; subst. left. cbn. rewrite app_nil_r. repeat split.
  - destruct (headers_sent (ex_res (m ex))) eqn:E.
    + inversion Hrun; subst. right. split; [reflexivity|].
      exists tr, (MiddlewareAt i). repeat split. exact E.
    + destruct (IH _ _ _ _ _ _ Hrun) as [(Hc & Htr & Hex)|Hstop];
        [|right; exact Hstop].
      left. split; [exact Hc|].
      cbn [List.length seq map combine chain]. rewrite last_of_cons.
      split; [|exact Hex]. rewrite Htr, <- app_assoc. reflexivity.
Qed.

Lemma run_pre_handlers_chain (ps : list Plugin) :
  forall i ex tr c ex' tr',
    run_pre_handlers ps i ex tr = (c, ex', tr') ->
    (c = true /\
     tr' = (tr ++ chain (hook_stages PreHandlerAt pre_handler ps i) ex)%list /\
     ex' = last_of (chain (hook_stages PreHandlerAt pre_handler ps i) ex) ex)
    \/ (c = false /\ exists pre s, tr' = (pre ++ [(s, ex')])%list /\
                                   before_routing s /\
                                   headers_sent (ex_res ex') = true).
Proof.
  induction ps as [|p rest IH]; intros i ex tr c ex' tr' Hrun; simpl in Hrun.
  - inversion Hrun; subst. left. cbn. rewrite app_nil_r. repeat split.
  - cbn [hook_stages].
    destruct (pre_handler p) as [hook|]; [|exact (IH _ _ _ _ _ _ Hrun)].
    destruct (headers_sent (ex_res (hook ex))) eqn:E.
    + inversion Hrun; subst. right. split; [reflexivity|].
      exists tr, (PreHandlerAt i). repeat split. exact E.
    + destruct (IH _ _ _ _ _ _ Hrun) as [(Hc & Htr & Hex)|Hstop];
        [|right; exact Hstop].
      left. split; [exact Hc|]. cbn [chain]. rewrite last_of_cons.
      split; [|exact Hex]. rewrite Htr, <- app_assoc. reflexivity.
Qed.

Lemma run_post_handlers_chain (ps : list Plugin) :
  forall i ex tr,
    run_post_handlers ps i ex tr
    = (last_of (chain (hook_stages PostHandlerAt post_handler ps i) ex) ex,
       (tr ++ chain (hook_stages PostHandlerAt post_handler ps i) ex)%list).
Proof.
  induction ps as [|p rest IH]; intros i ex tr; simpl.
  - rewrite app_nil_r. reflexivity.
  - destruct (post_handler p) as [hook|]; [|apply IH].
    rewrite IH. cbn [chain]. rewrite last_of_cons, <- app_assoc. reflexivity.
Qed.

(** The route step records one stage, and does not depend on what was
    recorded before. *)
Lemma route_step_entry
  (deflate : CompressionType -> string -> option string)
  (st : reavix_state Stage) (ex ex' : Exchange) (tr tr' : Trace) :
  route_step deflate st ex tr = Some (ex', tr') ->
  exists r, (r = RouteHandlerCall \/ r = NotFoundReply) /\
            tr' = (tr ++ [(r, ex')])%list /\
            route_step deflate st ex [] = Some (ex', [(r, ex')]).
Proof.
  unfold route_step. destruct (root_node st) as [root|]; [|discriminate].
  destruct (Backend.trie_match _ _ _) as [m o1].
  destruct (matched m); [destruct (out_handler m)|].
  - intros E; inversion E; subst. exists RouteHandlerCall.
    split; [left; reflexivity|]. split; reflexivity.
  - destruct (res_send_error deflate (clients st) (ex_res ex) 404
                (Some "Not Found") (ex_wire ex) o1) as [[[r w] o2]|];
      [|discriminate].
    intros E; inversion E; subst. exists NotFoundReply.
    split; [right; reflexivity|]. split; reflexivity.
  - destruct (res_send_error deflate (clients st) (ex_res ex) 404
                (Some "Not Found") (ex_wire ex) o1) as [[[r w] o2]|];
      [|discriminate].
    intros E; inversion E; subst. exists NotFoundReply.
    split; [right; reflexivity|]. split; reflexivity.
Qed.

(** The record of the route step is appended to what was recorded
    before. *)
Lemma route_step_after
  (deflate : CompressionType -> string -> option string)
  (st : reavix_state Stage) (ex routed : Exchange) (tr step : Trace) :
  route_step deflate st ex [] = Some (routed, step) ->
  route_step deflate st ex tr = Some (routed, (tr ++ step)%list).
Proof.
  unfold route_step. destruct (root_node st) as [root|]; [|discriminate].
  destruct (Backend.trie_match _ _ _) as [m o1].
  destruct (matched m); [destruct (out_handler m)|];
    try (destruct (res_send_error deflate (clients st) (ex_res ex) 404
                     (Some "Not Found") (ex_wire ex) o1) as [[[r w] o2]|];
         [|discriminate]);
    intros E; inversion E; subst; reflexivity.
Qed.

(** The loops run to their end when no stage leaves [headers_sent] set. *)
Lemma run_middleware_unsent (ms : list Stage) :
  forall i ex tr,
    Forall (fun se => headers_sent (ex_res (snd se)) = false)
      (chain (combine (map MiddlewareAt (seq i (List.length ms))) ms) ex) ->
    run_middleware ms i ex tr
    = (true,
       last_of (chain (combine (map MiddlewareAt (seq i (List.length ms))) ms) ex)
         ex,
       (tr ++ chain (combine (map MiddlewareAt (seq i (List.length ms))) ms)
                ex)%list).
Proof.
  induction ms as [|m rest IH]; intros i ex tr Hall.
  - cbn. rewrite app_nil_r. reflexivity.
  - cbn [List.length seq map combine chain] in Hall |- *.
    inversion Hall as [|? ? Hm Hrest]; subst. cbn [snd] in Hm.
    cbn [run_middleware]. rewrite Hm, (IH _ _ _ Hrest), last_of_cons,
      <- app_assoc. reflexivity.
Qed.

Lemma run_pre_handlers_unsent (ps : list Plugin) :
  forall i ex tr,
    Forall (fun se => headers_sent (ex_res (snd se)) = false)
      (chain (hook_stages PreHandlerAt pre_handler ps i) ex) ->
    run_pre_handlers ps i ex tr
    = (true,
       last_of (chain (hook_stages PreHandlerAt pre_handler ps i) ex) ex,
       (tr ++ chain (hook_stages PreHandlerAt pre_handler ps i) ex)%list).
Proof.
  induction ps as [|p rest IH]; intros i ex tr Hall.
  - cbn. rewrite app_nil_r. reflexivity.
  - cbn [hook_stages run_pre_handlers] in Hall |- *.
    destruct (pre_handler p) as [hook|]; [|exact (IH _ _ _ Hall)].
    cbn [chain] in Hall |- *.
    inversion Hall as [|? ? Hm Hrest]; subst. cbn [snd] in Hm.
    rewrite Hm, (IH _ _ _ Hrest), last_of_cons, <- app_assoc. reflexivity.
Qed.

(** When no middleware and no pre-handler hook leaves [headers_sent] set,
    [handle_request] runs every middleware once in registration order,
    then the pre-handler of every plugin that has one, in plugin order,
    then exactly one of the route handler and the not-found reply, then
    the post-handler of every plugin that has one, in plugin order: each
    stage is applied to the exchange the stage before it left, the record
    holds what each stage returned, and the result is what the last stage
    returned.  The run has an outcome whenever the route step has one. *)
Theorem stages_run_in_order
  (deflate : CompressionType -> string -> option string)
  (st : reavix_state Stage) (ex : Exchange) :
  let before :=
    chain (middleware_stages st
           ++ hook_stages PreHandlerAt pre_handler (plugins st) 0)%list ex in
  (forall final tr,
     handle_request deflate st ex = Some (final, tr) ->
     none_sent tr ->
     exists r routed,
       (r = RouteHandlerCall \/ r = NotFoundReply) /\
       route_step deflate st (last_of before ex) []
       = Some (routed, [(r, routed)]) /\
       tr = (before
             ++ (r, routed)
                :: chain (hook_stages PostHandlerAt post_handler (plugins st) 0)
                     routed)%list /\
       final = last_of tr ex) /\
  (Forall (fun se => headers_sent (ex_res (snd se)) = false) before ->
   forall routed step,
     route_step deflate st (last_of before ex) [] = Some (routed, step) ->
     handle_request deflate st ex
     = Some (last_of
               (chain (hook_stages PostHandlerAt post_handler (plugins st) 0)
                  routed) routed,
             (before ++ step
              ++ chain (hook_stages PostHandlerAt post_handler (plugins st) 0)
                   routed)%list)).
Proof.
  intros before. subst before. split.
  - intros final tr Hrun Hnone. unfold handle_request in Hrun.
    destruct (run_middleware (middleware st) 0 ex []) as [[c1 ex1] tr1] eqn:E1.
    destruct (run_middleware_chain _ _ _ _ _ _ _ E1)
      as [(-> & Htr1 & Hex1)|[-> Hstop]].
    + destruct (run_pre_handlers (plugins st) 0 ex1 tr1) as [[c2 ex2] tr2] eqn:E2.
      destruct (run_pre_handlers_chain _ _ _ _ _ _ _ E2)
        as [(-> & Htr2 & Hex2)|[-> Hstop]].
      * destruct (route_step deflate st ex2 tr2) as [[ex3 tr3]|] eqn:E3;
          [|discriminate].
        destruct (route_step_entry _ _ _ _ _ _ E3) as (r & Hr & Htr3 & Hstep).
        rewrite run_post_handlers_chain in Hrun.
        inversion Hrun as [[Hfinal Htr]].
        exists r, ex3. split; [exact Hr|].
        cbn [app] in Htr1.
        assert (Hb1 :
                  chain (middleware_stages st
                         ++ hook_stages PreHandlerAt pre_handler (plugins st) 0)%list
                    ex
                  = tr2).
        { rewrite chain_app. unfold middleware_stages.
          rewrite <- Hex1, <- Htr1. symmetry. exact Htr2. }
        assert (Hb2 : last_of tr2 ex = ex2).
        { rewrite Htr2, last_of_app, Htr1, <- Hex1. symmetry. exact Hex2. }
        rewrite Hb1, Hb2.
        split; [exact Hstep|].
        rewrite Htr3, <- app_assoc. split; [reflexivity|].
        rewrite last_of_app. cbn [app]. rewrite last_of_cons. reflexivity.
      * exfalso. inversion Hrun; subst.
        destruct Hstop as (pre & s & Heq & Hs & He).
        exact (sent_stage_excluded _ _ _ _ Hnone Heq Hs He).
    + exfalso. inversion Hrun; subst.
      destruct Hstop as (pre & s & Heq & Hs & He).
      exact (sent_stage_excluded _ _ _ _ Hnone Heq Hs He).
  - intros Hall routed step Hstep.
    rewrite chain_app in Hall, Hstep |- *.
    apply Forall_app in Hall as [Hmw Hpre].
    rewrite last_of_app in Hstep.
    unfold middleware_stages in *.
    unfold handle_request.
    rewrite (run_middleware_unsent _ _ _ _ Hmw).
    rewrite (run_pre_handlers_unsent _ _ _ _ Hpre).
    cbn [app].
    rewrite (route_step_after _ _ _ _ _ _ Hstep).
    rewrite run_post_handlers_chain, <- !app_assoc. reflexivity.
Qed.

Lemma stages_run_in_order_witness :
  exists r routed,
    (r = RouteHandlerCall \/ r = NotFoundReply) /\
    route_step Sample.no_zlib Sample.open_state
      (last_of
         (chain (middleware_stages Sample.open_state
                 ++ hook_stages PreHandlerAt pre_handler
                      (plugins Sample.open_state) 0)%list
            (Sample.request_for "/x")) (Sample.request_for "/x"))
      []
    = Some (routed, [(r, routed)]) /\
    snd (Sample.outcome Sample.open_state (Sample.request_for "/x"))
    = (chain (middleware_stages Sample.open_state
              ++ hook_stages PreHandlerAt pre_handler
                   (plugins Sample.open_state) 0)%list
         (Sample.request_for "/x")
       ++ (r, routed)
          :: chain (hook_stages PostHandlerAt post_handler
                      (plugins Sample.open_state) 0) routed)%list /\
    fst (Sample.outcome Sample.open_state (Sample.request_for "/x"))
    = last_of (snd (Sample.outcome Sample.open_state (Sample.request_for "/x")))
        (Sample.request_for "/x").
Proof.
  apply (proj1 (stages_run_in_order Sample.no_zlib Sample.open_state
                  (Sample.request_for "/x"))
           (fst (Sample.outcome Sample.open_state (Sample.request_for "/x")))
           (snd (Sample.outcome Sample.open_state (Sample.request_for "/x")))).
  - vm_compute. reflexivity.
  - vm_compute. repeat constructor.
Defined.

(** An insertion that returns true leaves a trie. *)
Lemma backend_insert_true {H : Type} (segs : list string) (h : option H) :
  forall (cur : TrieNode H) (o o' : oracle) (result : option (TrieNode H)),
    Backend.insert_loop segs h cur o = (true, result, o') ->
    exists cur', result = Some cur'.
Proof.
  induction segs as [|seg rest IH]; intros cur o o' result Hins; simpl in Hins.
  - inversion Hins. eexists. reflexivity.
  - destruct (if CStr.is_param_segment seg then None
              else find_child (children cur) seg) as [[[before hit] after]|].
    + destruct (Backend.insert_loop rest h hit o) as [[ok hit'] o1] eqn:Hrec.
      inversion Hins; subst. destruct (IH _ _ _ _ Hrec) as [n ->].
      eexists. reflexivity.
    + destruct (create_trie_node seg o) as [[n|] o1]; [|discriminate].
      destruct (CStr.is_param_segment seg).
      * destruct (Backend.insert_loop rest h n o1) as [[ok n'] o2] eqn:Hrec.
        inversion Hins; subst. destruct (IH _ _ _ _ Hrec) as [k ->].
        eexists. reflexivity.
      * destruct (alloc o1) as [a o2]. destruct a; [|discriminate].
        destruct (Backend.insert_loop rest h n o2) as [[ok n'] o3] eqn:Hrec.
        inversion Hins; subst. destruct (IH _ _ _ _ Hrec) as [k ->].
        eexists. reflexivity.
Qed.

(** After [reavix_route] has returned true for a path with at most
    [MAX_PARAMS] parameter segments on a server without middleware and
    plugins, [handle_request] for that very path runs the registered
    handler and nothing else, on a request that carries the parameters of
    the pattern bound to their own text. *)
Theorem registered_route_is_dispatched
  (deflate : CompressionType -> string -> option string)
  (st st' : reavix_state Stage)
  (m p : string) (h : Stage) (o o' : oracle) (ex : Exchange) :
  reavix_route st (Some m) (Some p) (Some h) o = Some (true, st', o') ->
  (param_count (CStr.path_segments p) <= MAX_PARAMS)%nat ->
  middleware st = [] -> plugins st = [] ->
  req_path (ex_req ex) = Some p ->
  fst (alloc (ex_oracle ex)) = true ->
  handle_request deflate st' ex
  = Some
      (h (mkExchange
            (set_params (ex_req ex)
               (map (fun b => (pp_name b, pp_value b))
                  (bindings (CStr.path_segments p) (CStr.path_segments p))))
            (ex_res ex) (ex_wire ex) (snd (alloc (ex_oracle ex)))),
       [(RouteHandlerCall,
         h (mkExchange
              (set_params (ex_req ex)
                 (map (fun b => (pp_name b, pp_value b))
                    (bindings (CStr.path_segments p) (CStr.path_segments p))))
              (ex_res ex) (ex_wire ex) (snd (alloc (ex_oracle ex)))))]).
Proof.
  intros Hreg Hcap Hmw Hpl Hpath Hok. unfold reavix_route in Hreg.
  destruct (route_capacity st <=? List.length (routes st))%nat; [discriminate|].
  destruct (existsb (same_route m p) (routes st)); [discriminate|].
  destruct (root_node st) as [root|]; [|discriminate].
  destruct (Backend.trie_insert root p (Some h) o) as [[ok root'] o1] eqn:Hins.
  inversion Hreg; subst. clear Hreg.
  unfold Backend.trie_insert in Hins.
  destruct (alloc o) as [a o2]. destruct a; [|discriminate].
  destruct (backend_insert_true _ _ _ _ _ _ Hins) as [root2 ->].
  destruct (TrieRoundTrip.backend_loop_roundtrip _ (Some h) _ _ _ _ [] Hins)
    as (last & Hm & Hh); [simpl; exact Hcap|].
  unfold handle_request. cbn [middleware plugins]. rewrite Hmw, Hpl.
  cbn [run_middleware run_pre_handlers].
  unfold route_step, Backend.trie_match. cbn [root_node]. rewrite Hpath.
  destruct (alloc (ex_oracle ex)) as [b o3]. simpl in Hok. subst b.
  rewrite Hm, Hh. reflexivity.
Qed.

Lemma registered_route_is_dispatched_witness :
  handle_request Sample.no_zlib
    (Sample.register_all Sample.fresh_state [("/health", Sample.mark)])
    (Sample.request_for "/health")
  = Some (Sample.mark (Sample.request_for "/health"),
          [(RouteHandlerCall, Sample.mark (Sample.request_for "/health"))]).
Proof.
  apply (registered_route_is_dispatched Sample.no_zlib Sample.fresh_state _
           "GET" "/health" Sample.mark [] [] (Sample.request_for "/health"));
    try reflexivity.
  vm_compute. lia.
Defined.

End StageOrder.

(** ** Response helpers *)

Module ResponseFacts.

Import LegacyHttp LegacyFile.




(** [req_get_header] returns NULL for a NULL request or key, and otherwise
    the value of the first header whose name equals the key up to ASCII
    case, NULL when there is none. *)
Theorem req_get_header_first_nocase (q : Request) (key : string) :
  CStr.nul_free key ->
  Forall (fun nv => CStr.nul_free (fst nv)) (req_headers q) ->
  req_get_header None (Some key) = None /\
  req_get_header (Some q) None = None /\
  match req_get_header (Some q) (Some key) with
  | Some v =>
      exists before name after,
        req_headers q = (before ++ (name, v) :: after)%list /\
        eq_nocase name key /\ no_name_matches key before
  | None => no_name_matches key (req_headers q)
  end.
Proof.
  intros Hkey Hall. split; [reflexivity|]. split; [reflexivity|].
  simpl. apply ParamLookup.lookup_nocase_spec; assumption.
Qed.

Lemma req_get_header_first_nocase_witness :
  req_get_header
    (Some (mkRequest (Some "GET") (Some "/") None None
             [("Host", "a"); ("Accept", "x"); ("ACCEPT", "y")] []))
    (Some "accept") = Some "x".
Proof.
  pose proof (req_get_header_first_nocase
                (mkRequest (Some "GET") (Some "/") None None
                   [("Host", "a"); ("Accept", "x"); ("ACCEPT", "y")] [])
                "accept"
                ltac:(simpl; repeat split; discriminate)
                ltac:(repeat constructor; simpl; repeat split; discriminate))
    as (_ & _ & _).
  reflexivity.
Defined.

Lemma str_write_length (off : nat) :
  forall block bytes block',
    str_write block off bytes = Some block' ->
    (off + String.length bytes <= String.length block)%nat /\
    String.length block' = String.length block.
Proof.
  assert (Hover : forall bytes block block',
             str_overwrite block bytes = Some block' ->
             (String.length bytes <= String.length block)%nat /\
             String.length block' = String.length block).
  { induction bytes as [|b bs IH]; intros block block' Hw; simpl in Hw.
    - inversion Hw; subst. simpl. split; [lia | reflexivity].
    - destruct block as [|c t]; [discriminate|].
      destruct (str_overwrite t bs) as [t'|] eqn:E; [|discriminate].
      inversion Hw; subst. destruct (IH _ _ E). simpl. split; lia. }
  induction off as [|off IH]; intros block bytes block' Hw; simpl in Hw.
  - destruct (Hover _ _ _ Hw). split; [simpl; lia | assumption].
  - destruct block as [|c t]; [discriminate|].
    destruct (str_write t off bytes) as [t'|] eqn:E; [|discriminate].
    inversion Hw; subst. destruct (IH _ _ _ E). simpl. split; lia.
Qed.

(** A response whose first [content_length] bytes exist in its block
    keeps that property under [res_set_header] and under every [res_write]
    that has an outcome, whether it returns true or false. *)
Theorem body_helpers_keep_wf (r : Response) (o : oracle) :
  wf_response r ->
  (forall name value r' o',
     res_set_header r name value o = Some (r', o') -> wf_response r') /\
  (forall data len ok r' o',
     res_write (Some r) data len o = Some (ok, Some r', o') ->
     wf_response r').
Proof.
  intros [Hcl Hwf]. split.
  - intros name value r' o' Hset.
    destruct (Pipeline.res_set_header_keeps _ _ _ _ _ _ Hset) as (_ & Hc & Hl & _).
    unfold wf_response. rewrite Hc, Hl. split; assumption.
  - intros data len ok r' o' Hw. unfold res_write in Hw.
    destruct data as [d|]; [|inversion Hw; subst; split; assumption].
    destruct (alloc o) as [a o1].
    destruct a; [|inversion Hw; subst; split; assumption].
    destruct (Z.of_nat (String.length d) <? len); [discriminate|].
    destruct (str_write _ _ (str_take (Z.to_nat len) d)) as [block1|] eqn:E1;
      [|discriminate].
    destruct (str_write block1 _ _) as [block2|] eqn:E2; [|discriminate].
    inversion Hw; subst. clear Hw.
    destruct (str_write_length _ _ _ _ E2) as [Hin Hlen2].
    simpl in Hin. unfold wf_response. simpl.
    assert (Hw0 : 0 <= wrap_size (content_length r + len))
      by (apply Z.mod_pos_bound; reflexivity).
    split; [exact Hw0 | lia].
Qed.

Lemma body_helpers_keep_wf_witness :
  wf_response
    (mkResponse 200 (Some (strdup_block "okay!")) 5 [] None false
       COMPRESSION_NONE).
Proof.
  apply (proj2 (body_helpers_keep_wf
           (mkResponse 200 (Some (strdup_block "ok")) 2 [] None false
              COMPRESSION_NONE) []
           ltac:(unfold wf_response; simpl; lia))
           (Some "ay!") 3 true _ []).
  vm_compute. reflexivity.
Defined.

(** [res_send_error] of [backend/include/libreavix.c] has an outcome
    whenever the two reallocations of the header arrays agree, and
    whatever the code and the message, every outcome has the status 200
    and a body of at most 511 bytes: the formatted JSON text when it fits,
    otherwise its first 511 bytes. *)
Theorem res_send_error_body (r : Response) (code : Z) (message : string)
  (o : oracle) :
  (reallocs_agree o ->
   exists r', res_send_error r code (Some message) o
              = Some (r', snd (alloc (snd (alloc o))))) /\
  (forall r' o',
     res_send_error r code (Some message) o = Some (r', o') ->
     status_code r' = 200 /\
     (String.length (body r') <= 511)%nat /\
     body r' = str_take 511 (error_json code message) /\
     ((String.length (error_json code message) <= 511)%nat ->
      body r' = error_json code message)).
Proof.
  split; [apply Pipeline.res_send_error_defined|].
  intros r' o' Hres.
  destruct (Pipeline.res_send_error_result _ _ _ _ _ _ Hres) as [Hs Hb].
  split; [exact Hs|]. rewrite Hb. unfold snprintf_fit.
  change (512 - 1)%nat with 511%nat.
  split; [rewrite BodyWrite.length_take; lia|]. split; [reflexivity|].
  intros Hfit. apply BodyWrite.take_all. exact Hfit.
Qed.

Lemma res_send_error_body_witness :
  exists r',
    res_send_error (mkResponse 0 None 0 [] None false COMPRESSION_NONE) 418
      (Some "teapot") []
    = Some (r', snd (alloc (snd (alloc [])))).
Proof.
  apply (proj1 (res_send_error_body
           (mkResponse 0 None 0 [] None false COMPRESSION_NONE) 418
           "teapot" [])).
  reflexivity.
Defined.

(** [send_response] sends at most once: after a call that was defined, a
    second call changes neither the response nor the bytes written; a call
    only appends to what was written, and changes nothing of the response
    but the [headers_sent] flag. *)
Theorem send_response_once (cs : list ClientContext) (r r1 : Response)
  (w w1 : Wire) :
  Server.send_response cs r w = Some (r1, w1) ->
  Server.send_response cs r1 w1 = Some (r1, w1) /\
  (exists added, w1 = (w ++ added)%list) /\
  set_headers_sent r1 true = set_headers_sent r true.
Proof.
  unfold Server.send_response. intros Hsend.
  destruct (headers_sent r) eqn:Hsent.
  - inversion Hsend; subst. rewrite Hsent. split; [reflexivity|].
    split; [exists []; now rewrite app_nil_r | reflexivity].
  - destruct (Server.find_client_context cs (client r)) as [ctx|] eqn:Hctx.
    + destruct (Server.header_bytes r) as [hb|]; [|discriminate].
      inversion Hsend; subst. simpl. split; [reflexivity|]. split; [|reflexivity].
      destruct (content r); [destruct (0 <? content_length r)|];
        eexists; try rewrite <- app_assoc; reflexivity.
    + inversion Hsend; subst. rewrite Hsent, Hctx. split; [reflexivity|].
      split; [exists []; now rewrite app_nil_r | reflexivity].
Qed.

Lemma send_response_once_witness :
  Server.send_response Sample.one_client
    (ex_res (Sample.reject (Sample.request_for "/x")))
    (ex_wire (Sample.reject (Sample.request_for "/x")))
  = Some (ex_res (Sample.reject (Sample.request_for "/x")),
          ex_wire (Sample.reject (Sample.request_for "/x"))).
Proof.
  apply (send_response_once Sample.one_client
           (set_content
              (set_status (ex_res (Sample.request_for "/x")) 403)
              (Some (strdup_block "denied")) 6)
           _ [] _).
  vm_compute. reflexivity.
Defined.

End ResponseFacts.

(** ** Serving a file *)

Module FileReply.

Import LegacyHttp LegacyFile.


Lemma append_assoc (a b c : string) : (a ++ b) ++ c = a ++ (b ++ c).
Proof. induction a as [|x a IH]; simpl; [reflexivity | now rewrite IH]. Qed.


Lemma strrchr_app (base ext : string) (c : ascii) (suffix : string) :
  strrchr ext c = Some suffix -> strrchr (base ++ ext) c = Some suffix.
Proof.
  intros Hext. induction base as [|a base IH]; simpl; [exact Hext|].
  rewrite IH. reflexivity.
Qed.

Lemma strrchr_none (s : string) (c : ascii) :
  has_char c s = false -> strrchr s c = None.
Proof.
  induction s as [|a t IH]; [reflexivity|]. cbn [has_char strrchr].
  intros Hno. apply orb_false_iff in Hno. destruct Hno as [Ha Ht].
  rewrite (IH Ht), Ha. reflexivity.
Qed.



(** Every failure of [res_send_file] leaves status 200 and a JSON error
    body: 404 when the file cannot be opened, 500 when [fstat] fails, 413
    when the file is larger than 10 MiB, 500 when the buffer cannot be
    allocated and 500 when a read delivers nothing before the buffer is
    full.  Before the first read is attempted no read is consumed. *)
Theorem res_send_file_errors (r : Response) (path : string)
  (world : FileWorld) (o : oracle) :
  let out := res_send_file r (Some path) world o in
  (forall r' o', fst out = Some (r', o') -> status_code r' = 200) /\
  (fw_open world = false ->
   error_reply (fst out) o 404 "File not found" /\
   snd out = fw_reads world) /\
  (fw_open world = true -> fw_stat world = None ->
   error_reply (fst out) o 500 "File stat failed" /\
   snd out = fw_reads world) /\
  (forall size,
     fw_open world = true -> fw_stat world = Some size ->
     (MAX_FILE_SIZE < size ->
      error_reply (fst out) o 413 "File too large" /\
      snd out = fw_reads world) /\
     (size <= MAX_FILE_SIZE -> fst (alloc o) = false ->
      error_reply (fst out) (snd (alloc o)) 500 "Memory allocation failed" /\
      snd out = fw_reads world) /\
     (size <= MAX_FILE_SIZE -> fst (alloc o) = true ->
      fst (read_loop (fw_reads world) (Z.to_nat size) EmptyString) = None ->
      error_reply (fst out) (snd (alloc o)) 500 "File read failed")).
Proof.
  assert (Herr : forall code message o0,
             (String.length (error_json code message) <= 511)%nat ->
             error_reply (res_send_error r code (Some message) o0) o0 code
               message).
  { intros code message o0 Hfit. split.
    - intros Hagree.
      destruct (Pipeline.res_send_error_defined r code message o0 Hagree)
        as [r' ->]. discriminate.
    - intros r' o' Hres.
      destruct (Pipeline.res_send_error_result _ _ _ _ _ _ Hres) as [Hs Hb].
      split; [exact Hs|]. rewrite Hb. unfold snprintf_fit.
      apply BodyWrite.take_all. exact Hfit. }
  intros out. subst out. unfold res_send_file.
  destruct world as [opened stat reads]. cbn [fw_open fw_stat fw_reads].
  destruct opened; cbn [negb].
  2:{ pose proof (Herr 404 "File not found" o ltac:(vm_compute; lia)) as He.
      cbn [fst snd].
      split; [intros r' o' Hres; exact (proj1 (proj2 He r' o' Hres))|].
      split; [intros _; split; [exact He | reflexivity]|].
      split; [discriminate|]. intros size Ho; discriminate. }
  destruct stat as [size|].
  2:{ pose proof (Herr 500 "File stat failed" o ltac:(vm_compute; lia)) as He.
      cbn [fst snd].
      split; [intros r' o' Hres; exact (proj1 (proj2 He r' o' Hres))|].
      split; [discriminate|].
      split; [intros _ _; split; [exact He | reflexivity]|].
      intros size _ Hst; discriminate. }
  destruct (MAX_FILE_SIZE <? size) eqn:Hbig.
  { apply Z.ltb_lt in Hbig.
    pose proof (Herr 413 "File too large" o ltac:(vm_compute; lia)) as He.
    cbn [fst snd].
    split; [intros r' o' Hres; exact (proj1 (proj2 He r' o' Hres))|].
    split; [discriminate|].
    split; [discriminate|]. intros size' _ Hst. inversion Hst; subst size'.
    split; [intros _; split; [exact He | reflexivity]|]. split; intros; lia. }
  apply Z.ltb_ge in Hbig.
  destruct (alloc o) as [ok o1]. cbn [fst snd].
  destruct ok; cbn [negb].
  2:{ pose proof (Herr 500 "Memory allocation failed" o1 ltac:(vm_compute; lia))
        as He.
      cbn [fst snd].
      split; [intros r' o' Hres; exact (proj1 (proj2 He r' o' Hres))|].
      split; [discriminate|].
      split; [discriminate|]. intros size' _ Hst. inversion Hst; subst size'.
      split; [intros; lia|].
      split; [intros _ _; split; [exact He | reflexivity] | discriminate]. }
  destruct (read_loop reads (Z.to_nat size) EmptyString) as [[data|] unread] eqn:Hread;
    cbn [fst snd].
  - split.
    { intros r' o' Hset.
      destruct (Pipeline.res_set_header_keeps _ _ _ _ _ _ Hset) as (Hs & _).
      rewrite Hs. reflexivity. }
    split; [discriminate|].
    split; [discriminate|]. intros size' _ Hst. inversion Hst; subst size'.
    split; [intros; lia|]. split; [discriminate|].
    rewrite Hread. discriminate.
  - pose proof (Herr 500 "File read failed" o1 ltac:(vm_compute; lia)) as He.
    split; [intros r' o' Hres; exact (proj1 (proj2 He r' o' Hres))|].
    split; [discriminate|].
    split; [discriminate|]. intros size' _ Hst. inversion Hst; subst size'.
    split; [intros; lia|]. split; [discriminate|]. intros _ _ _. exact He.
Qed.

Lemma res_send_file_errors_witness :
  error_reply
    (fst (res_send_file
            (mkResponse 0 None 0 [] None false COMPRESSION_NONE)
            (Some "big.bin")
            (mkFileWorld true (Some (MAX_FILE_SIZE + 1)) [Some "x"]) []))
    [] 413 "File too large" /\
  snd (res_send_file
         (mkResponse 0 None 0 [] None false COMPRESSION_NONE)
         (Some "big.bin")
         (mkFileWorld true (Some (MAX_FILE_SIZE + 1)) [Some "x"]) [])
  = [Some "x"].
Proof.
  refine (proj1 (proj2 (proj2 (proj2 (res_send_file_errors
            (mkResponse 0 None 0 [] None false COMPRESSION_NONE) "big.bin"
            (mkFileWorld true (Some (MAX_FILE_SIZE + 1)) [Some "x"]) [])))
            (MAX_FILE_SIZE + 1) eq_refl eq_refl) _).
  unfold MAX_FILE_SIZE. lia.
Defined.

(** The content type depends on the text from the last dot of the whole
    path on, compared exactly: [.html], [.css] and [.js] are recognised
    after any prefix, another spelling such as [.HTML] is not, a path
    without a dot is served as [application/octet-stream], and so is
    every path whose last dot is followed by a slash further on, that is,
    lies in a directory name. *)
Theorem content_type_by_extension (base : string) :
  content_type_of (base ++ ".html") = "text/html" /\
  content_type_of (base ++ ".css") = "text/css" /\
  content_type_of (base ++ ".js") = "text/javascript" /\
  content_type_of (base ++ ".HTML") = "application/octet-stream" /\
  (strrchr base "."%char = None ->
   content_type_of base = "application/octet-stream") /\
  (forall tail,
     has_char "."%char tail = false -> has_char "/"%char tail = true ->
     content_type_of (base ++ "." ++ tail) = "application/octet-stream").
Proof.
  unfold content_type_of.
  rewrite (strrchr_app base ".html" "." ".html" eq_refl).
  rewrite (strrchr_app base ".css" "." ".css" eq_refl).
  rewrite (strrchr_app base ".js" "." ".js" eq_refl).
  rewrite (strrchr_app base ".HTML" "." ".HTML" eq_refl).
  do 4 (split; [reflexivity|]).
  split; [intros Hnone; rewrite Hnone; reflexivity|].
  intros tail Hdot Hslash.
  rewrite (strrchr_app base ("." ++ tail) "." ("." ++ tail)).
  - unfold CStr.streq.
    destruct (String.eqb_spec ("." ++ tail) ".html") as [E|_];
      [inversion E; subst tail; discriminate|].
    destruct (String.eqb_spec ("." ++ tail) ".css") as [E|_];
      [inversion E; subst tail; discriminate|].
    destruct (String.eqb_spec ("." ++ tail) ".js") as [E|_];
      [inversion E; subst tail; discriminate|].
    reflexivity.
  - cbn [append strrchr]. rewrite (strrchr_none tail "." Hdot). reflexivity.
Qed.

Lemma content_type_by_extension_witness :
  content_type_of "LICENSE" = "application/octet-stream" /\
  content_type_of "site.d/index" = "application/octet-stream".
Proof.
  split.
  - apply (proj1 (proj2 (proj2 (proj2 (proj2
             (content_type_by_extension "LICENSE")))))).
    reflexivity.
  - apply (proj2 (proj2 (proj2 (proj2 (proj2
             (content_type_by_extension "site")))))
             "d/index"); reflexivity.
Defined.

End FileReply.

(** ** Middleware registration *)

Module MiddlewareLimit.

Import Registry.

Lemma reavix_use_fields {H : Type} (st : reavix_state H) (m : Stage) :
  routes (reavix_use st m) = routes st /\
  route_capacity (reavix_use st m) = route_capacity st /\
  root_node (reavix_use st m) = root_node st /\
  plugins (reavix_use st m) = plugins st /\
  clients (reavix_use st m) = clients st /\
  (middleware (reavix_use st m)
   = firstn MAX_MIDDLEWARE (middleware st ++ [m]) \/
   (MAX_MIDDLEWARE < List.length (middleware st))%nat).
Proof.
  unfold reavix_use.
  destruct (MAX_MIDDLEWARE <=? List.length (middleware st))%nat eqn:E.
  - apply Nat.leb_le in E. repeat split.
    destruct (Nat.eq_dec (List.length (middleware st)) MAX_MIDDLEWARE) as [Heq|Hne].
    + left. rewrite <- Heq. rewrite firstn_app, Nat.sub_diag, firstn_all.
      cbn [firstn]. rewrite app_nil_r. reflexivity.
    + right. lia.
  - apply Nat.leb_gt in E. repeat split. left. cbn [middleware].
    symmetry. apply firstn_all2. rewrite length_app. cbn [List.length]. lia.
Qed.

(** Registering any list of middleware on a state that holds at most
    [MAX_MIDDLEWARE] keeps, in order, the first [MAX_MIDDLEWARE] of those
    already held followed by the new ones; the later ones are dropped
    without notice, and routes, trie, plugins and clients are untouched. *)
Theorem reavix_use_keeps_first_ten {H : Type} (ms : list Stage) :
  forall st : reavix_state H,
    (List.length (middleware st) <= MAX_MIDDLEWARE)%nat ->
    middleware (use_all st ms) = firstn MAX_MIDDLEWARE (middleware st ++ ms) /\
    routes (use_all st ms) = routes st /\
    root_node (use_all st ms) = root_node st /\
    plugins (use_all st ms) = plugins st /\
    clients (use_all st ms) = clients st.
Proof.
  unfold use_all. induction ms as [|m ms IH]; intros st Hlen.
  - cbn [fold_left]. rewrite app_nil_r. split; [|repeat split].
    symmetry. apply firstn_all2. exact Hlen.
  - cbn [fold_left].
    destruct (reavix_use_fields st m) as (Hr & _ & Ht & Hp & Hc & Hm).
    destruct Hm as [Hm|Hm]; [|lia].
    assert (Hlen' : (List.length (middleware (reavix_use st m)) <= MAX_MIDDLEWARE)%nat).
    { rewrite Hm. rewrite length_firstn. lia. }
    destruct (IH _ Hlen') as (Im & Ir & It & Ip & Ic).
    rewrite Im, Ir, It, Ip, Ic, Hr, Ht, Hp, Hc, Hm. repeat split.
    replace (middleware st ++ m :: ms)%list
      with ((middleware st ++ [m]) ++ ms)%list
      by (rewrite <- app_assoc; reflexivity).
    set (l := (middleware st ++ [m])%list).
    rewrite !firstn_app, length_firstn.
    rewrite firstn_firstn, Nat.min_id.
    destruct (Nat.le_gt_cases MAX_MIDDLEWARE (List.length l)) as [Hge|Hlt].
    + rewrite Nat.min_l by exact Hge. rewrite Nat.sub_diag.
      replace (MAX_MIDDLEWARE - List.length l)%nat with O by lia.
      reflexivity.
    + rewrite Nat.min_r by lia. reflexivity.
Qed.

Lemma reavix_use_keeps_first_ten_witness :
  List.length
    (middleware (use_all (Sample.fresh_state)
                   (repeat (fun e : Exchange => e) 12)))
  = 10%nat.
Proof.
  rewrite (proj1 (reavix_use_keeps_first_ten (repeat (fun e : Exchange => e) 12)
                    (Sample.fresh_state)
                    ltac:(simpl; unfold MAX_MIDDLEWARE; lia))).
  reflexivity.
Defined.

End MiddlewareLimit.

(** ** Layout of the arena *)

Module ArenaLayout.

Import Ipc.

(** What a call that has an outcome does to the offset: nothing when it
    returns NULL; otherwise the header and the payload lie inside the
    array, the pointer is 16 past the old offset, the new offset is the old
    one plus the rounded size plus 16, and no byte below the old offset
    has changed. *)
Lemma allocate_step (XXH32 : list Z -> Z -> Z) (arena : IPCArena) (size : Z)
  (a : Allocation) :
  ipc_arena_allocate XXH32 arena size = Some a ->
  (ret_ptr a = None /\ arena_after a = arena) \/
  (ret_ptr a = Some (write_offset arena + 16) /\
   0 <= write_offset arena /\ 0 <= size /\
   write_offset arena + 16 + size <= IPC_BUFFER_SIZE /\
   size <= aligned size /\ aligned size mod 16 = 0 /\
   write_offset arena + aligned size <= IPC_BUFFER_SIZE /\
   write_offset (arena_after a) = write_offset arena + aligned size + 16 /\
   forall i, i < write_offset arena ->
             buffer (arena_after a) i = buffer arena i).
Proof.
  intros Ha.
  destruct (Arena.allocate_spec XXH32 arena size a Ha)
    as [[_ ->]|(Hpass & Hoff & Hsize & Hfit & Hptr & Hnew & _ & Hbelow & _)];
    [left; split; reflexivity|].
  right.
  assert (HB : IPC_BUFFER_SIZE = 4194304) by reflexivity.
  rewrite HB in *.
  assert (Hs63 : 0 <= size < 2 ^ 63)
    by (change (2 ^ 63) with 9223372036854775808; lia).
  pose proof (Arena.aligned_round_up size Hs63) as Hal.
  pose proof (Arena.aligned_multiple size Hs63) as Hmul.
  unfold refused in Hpass. apply Z.ltb_ge in Hpass. rewrite HB in Hpass.
  unfold wrap_size, SIZE_MOD in Hpass, Hnew.
  change (2 ^ 64) with 18446744073709551616 in Hpass, Hnew.
  rewrite Z.mod_small in Hpass by lia.
  rewrite Z.mod_small in Hnew by lia.
  split; [exact Hptr|]. split; [exact Hoff|]. split; [exact Hsize|].
  split; [exact Hfit|]. split; [lia|].
  split; [rewrite Hmul, Z.mul_comm; apply Z.mod_mul; lia|].
  split; [exact Hpass|]. split; [exact Hnew | exact Hbelow].
Qed.

(** The layout a sequence of calls that has an outcome produces. *)
Lemma allocate_all_layout (XXH32 : list Z -> Z -> Z) (sizes : list Z) :
  forall arena got final,
    allocate_all XXH32 arena sizes = Some (got, final) ->
    pairwise_disjoint got /\
    Forall (fun ps => write_offset arena + 16 <= fst ps /\ in_buffer ps) got /\
    write_offset arena <= write_offset final /\
    (forall i, i < write_offset arena -> buffer final i = buffer arena i) /\
    (write_offset arena mod 16 = 0 ->
     Forall (fun ps => fst ps mod 16 = 0) got /\
     write_offset final mod 16 = 0).
Proof.
  induction sizes as [|s rest IH]; intros arena got final Hall.
  - inversion Hall. subst. split; [constructor|]. split; [constructor|].
    split; [lia|]. split; [reflexivity|]. intros Hmod. split; [constructor|].
    exact Hmod.
  - cbn [allocate_all] in Hall.
    destruct (ipc_arena_allocate XXH32 arena s) as [a|] eqn:Ha; [|discriminate].
    destruct (allocate_all XXH32 (arena_after a) rest) as [[got' final']|]
      eqn:Hrest; [|discriminate].
    inversion Hall. subst final'. clear Hall.
    destruct (IH _ _ _ Hrest) as (Hdis & Hlow & Hmono & Hkeep & Hmods).
    destruct (allocate_step XXH32 arena s a Ha)
      as [[Hnone Hsame]|(Hptr & Hoff & Hsize & Hfit & Hle & Hmul & Hcap & Hnew
                          & Hbelow)].
    + rewrite Hnone. rewrite Hsame in *.
      repeat (split; [assumption|]). exact Hmods.
    + rewrite Hptr. rewrite Hnew in *.
      split.
      { constructor; [|exact Hdis].
        rewrite Forall_forall in *. intros ps Hps.
        destruct (Hlow ps Hps) as [Hge _]. left. cbn [fst snd]. lia. }
      split.
      { constructor.
        - cbn [fst]. split; [lia|]. unfold in_buffer. cbn [fst snd]. lia.
        - rewrite Forall_forall in *. intros ps Hps.
          destruct (Hlow ps Hps) as [Hge Hin]. split; [lia | exact Hin]. }
      split; [lia|].
      split.
      { intros i Hi. rewrite Hkeep by lia. apply Hbelow. exact Hi. }
      intros Hmod.
      assert (Hmod' : (write_offset arena + aligned s + 16) mod 16 = 0).
      { clear - Hmod Hmul. Z.to_euclidean_division_equations. lia. }
      destruct (Hmods Hmod') as [Hal Hfin].
      split; [|exact Hfin].
      constructor; [|exact Hal]. cbn [fst]. clear - Hmod.
      Z.to_euclidean_division_equations. lia.
Qed.

(** A sequence of calls whose headers and rounded sizes fit in what is
    left of the array has an outcome, and none of the calls is refused. *)
Lemma allocate_all_fits (XXH32 : list Z -> Z -> Z) (sizes : list Z) :
  forall arena,
    0 <= write_offset arena ->
    Forall (fun s => 0 <= s < 2 ^ 63) sizes ->
    write_offset arena + total_need sizes <= IPC_BUFFER_SIZE ->
    exists got final,
      allocate_all XXH32 arena sizes = Some (got, final) /\
      map snd got = sizes /\
      write_offset final = write_offset arena + total_need sizes.
Proof.
  assert (HB : IPC_BUFFER_SIZE = 4194304) by reflexivity.
  induction sizes as [|s rest IH]; intros arena Hoff Hall Hfit.
  - exists [], arena. cbn [total_need fold_right allocate_all map].
    split; [reflexivity|]. split; [reflexivity | lia].
  - inversion Hall as [|? ? Hs Hrest]; subst.
    assert (Hneed : 0 <= total_need rest).
    { clear - Hrest. induction Hrest as [|x l Hx _ IHl]; [cbn; lia|].
      change (total_need (x :: l)) with (16 + aligned x + total_need l).
      pose proof (Arena.aligned_round_up x Hx). lia. }
    change (total_need (s :: rest)) with (16 + aligned s + total_need rest)
      in Hfit |- *.
    pose proof (Arena.aligned_round_up s Hs) as Hal.
    change (2 ^ 63) with 9223372036854775808 in Hs.
    assert (Hpass : refused arena s = false).
    { unfold refused. apply Z.ltb_ge. unfold wrap_size, SIZE_MOD.
      change (2 ^ 64) with 18446744073709551616.
      rewrite Z.mod_small by lia. lia. }
    destruct (Arena.allocate_granted XXH32 arena s Hpass Hoff ltac:(lia)
                ltac:(lia)) as (a & Ha & Hptr).
    destruct (allocate_step XXH32 arena s a Ha)
      as [[Hnone _]|(_ & _ & _ & _ & _ & _ & _ & Hnew & _)];
      [rewrite Hptr in Hnone; discriminate|].
    destruct (IH (arena_after a) ltac:(lia) Hrest ltac:(lia))
      as (got & final & Hrun & Hmap & Hfinal).
    cbn [allocate_all]. rewrite Ha, Hrun, Hptr.
    eexists. eexists. split; [reflexivity|].
    cbn [map snd]. rewrite Hmap. split; [reflexivity|]. lia.
Qed.

(** A call whose header and payload fit in what is left of the array
    returns a pointer.  A call that returns a pointer has written inside
    the array: the sixteen bytes before the pointer and the [size] bytes
    from it on lie in the buffer, the sixteen hold the magic number, the
    size as a 32-bit number, the 32-bit checksum of [size] zero bytes and
    zero flags, and the [size] bytes from the pointer on are zero. *)
Theorem allocation_header_fields (XXH32 : list Z -> Z -> Z)
  (arena : IPCArena) (size : Z) :
  (0 <= write_offset arena -> 0 <= size ->
   write_offset arena + 16 + size <= IPC_BUFFER_SIZE ->
   exists arena',
     ipc_arena_allocate XXH32 arena size
     = Some (mkAllocation (Some (write_offset arena + 16)) arena')) /\
  (forall ptr arena',
     ipc_arena_allocate XXH32 arena size
     = Some (mkAllocation (Some ptr) arena') ->
     ptr = write_offset arena + 16 /\
     in_buffer (ptr - 16, 16 + size) /\
     0 <= size /\
     load32 (buffer arena') (ptr - 16) = Some IPC_MAGIC /\
     load32 (buffer arena') (ptr - 12) = Some (size mod 2 ^ 32) /\
     load32 (buffer arena') (ptr - 8)
     = Some (XXH32 (repeat 0 (Z.to_nat size)) IPC_MAGIC mod 2 ^ 32) /\
     load32 (buffer arena') (ptr - 4) = Some 0 /\
     read_bytes (buffer arena') ptr size = Some (repeat 0 (Z.to_nat size))).
Proof.
  split.
  { intros Hoff Hsize Hfit.
    assert (HB : IPC_BUFFER_SIZE = 4194304) by reflexivity.
    assert (Hs63 : 0 <= size < 2 ^ 63)
      by (change (2 ^ 63) with 9223372036854775808; lia).
    pose proof (Arena.aligned_round_up size Hs63) as Hal.
    assert (Hpass : refused arena size = false).
    { unfold refused. apply Z.ltb_ge. unfold wrap_size, SIZE_MOD.
      change (2 ^ 64) with 18446744073709551616.
      rewrite Z.mod_small by lia. lia. }
    destruct (Arena.allocate_granted XXH32 arena size Hpass Hoff Hsize Hfit)
      as ([p arena'] & Ha & Hptr).
    cbn [ret_ptr] in Hptr. subst p. exists arena'. exact Ha. }
  intros ptr arena' Ha.
  destruct (Arena.allocate_spec XXH32 arena size _ Ha)
    as [[_ Hno]|(_ & Hoff & Hsize & Hfit & Hptr & _ & _ & _ & Hmagic & Hlen
                 & Hsum & Hflags & Hzero)]; [discriminate|].
  cbn [ret_ptr arena_after] in *. inversion Hptr as [Hp]. clear Hptr.
  set (h := write_offset arena) in *.
  replace (h + 16 - 16) with h by lia.
  replace (h + 16 - 12) with (h + 4) by lia.
  replace (h + 16 - 8) with (h + 8) by lia.
  replace (h + 16 - 4) with (h + 12) by lia.
  unfold load32, read_bytes.
  rewrite (proj2 (Arena.within_spec h 4)) by lia.
  rewrite (proj2 (Arena.within_spec (h + 4) 4)) by lia.
  rewrite (proj2 (Arena.within_spec (h + 8) 4)) by lia.
  rewrite (proj2 (Arena.within_spec (h + 12) 4)) by lia.
  rewrite (proj2 (Arena.within_spec (h + 16) size)) by lia.
  rewrite Hmagic, Hlen, Hsum, Hflags, Hzero.
  split; [reflexivity|].
  split; [unfold in_buffer; cbn [fst snd]; lia|].
  split; [exact Hsize|]. repeat split.
Qed.

Lemma allocation_header_fields_witness :
  load32 (buffer (after_call XXHash.XXH32 ipc_arena_init 40)) (16 - 12)
  = Some (40 mod 2 ^ 32).
Proof.
  exact (proj1 (proj2 (proj2 (proj2 (proj2
           (proj2 (allocation_header_fields XXHash.XXH32 ipc_arena_init 40)
              16 (after_call XXHash.XXH32 ipc_arena_init 40) eq_refl)))))).
Defined.

(** From an offset that is a multiple of 16, as after [ipc_arena_init],
    every sequence of calls that has an outcome hands out regions that lie
    in the buffer, are pairwise disjoint and start at multiples of 16, 16
    or more past the first offset; the write offset stays a multiple of 16
    and never decreases.  There is an outcome, with every call granted,
    when the sizes are below [2^63] and their headers and rounded sizes
    fit in what is left of the array. *)
Theorem allocations_aligned_disjoint (XXH32 : list Z -> Z -> Z)
  (sizes : list Z) (arena : IPCArena) :
  write_offset arena mod 16 = 0 ->
  (forall got final,
     allocate_all XXH32 arena sizes = Some (got, final) ->
     pairwise_disjoint got /\
     Forall (fun ps => fst ps mod 16 = 0 /\ write_offset arena + 16 <= fst ps
                       /\ in_buffer ps) got /\
     write_offset final mod 16 = 0 /\
     write_offset arena <= write_offset final) /\
  (0 <= write_offset arena ->
   Forall (fun s => 0 <= s < 2 ^ 63) sizes ->
   write_offset arena + total_need sizes <= IPC_BUFFER_SIZE ->
   exists got final,
     allocate_all XXH32 arena sizes = Some (got, final) /\
     map snd got = sizes /\
     write_offset final = write_offset arena + total_need sizes).
Proof.
  intros Hmod. split; [|apply allocate_all_fits].
  intros got final Hall.
  destruct (allocate_all_layout XXH32 sizes arena got final Hall)
    as (Hdis & Hlow & Hmono & _ & Hmods).
  destruct (Hmods Hmod) as [Hal Hfin].
  split; [exact Hdis|]. split; [|split; assumption].
  rewrite Forall_forall in *. intros ps Hps.
  destruct (Hlow ps Hps) as [Hge Hin]. split; [exact (Hal ps Hps)|].
  split; assumption.
Qed.

Lemma allocations_aligned_disjoint_witness :
  exists final,
    allocate_all XXHash.XXH32 ipc_arena_init [40; 1; 16]
    = Some ([(16, 40); (80, 1); (112, 16)], final) /\
    pairwise_disjoint [(16, 40); (80, 1); (112, 16)].
Proof.
  eexists. split; [reflexivity|].
  exact (proj1 (proj1 (allocations_aligned_disjoint XXHash.XXH32 [40; 1; 16]
                         ipc_arena_init eq_refl) _ _ eq_refl)).
Defined.

(** What the caller stores in a region it was given lies inside the array
    and is still there after any later sequence of calls that has an
    outcome, and none of the regions those calls hand out shares a byte
    with it. *)
Theorem later_allocations_keep_payload (XXH32 : list Z -> Z -> Z)
  (arena arena' : IPCArena) (payload : list Z) (ptr : Z) :
  ipc_arena_allocate XXH32 arena (Z.of_nat (List.length payload))
  = Some (mkAllocation (Some ptr) arena') ->
  exists written,
    write_bytes (buffer arena') ptr payload = Some written /\
    forall sizes got final,
      allocate_all XXH32
        (mkIPCArena (write_offset arena') (read_offset arena') written) sizes
      = Some (got, final) ->
      read_bytes (buffer final) ptr (Z.of_nat (List.length payload))
      = Some payload /\
      Forall (disjoint (ptr, Z.of_nat (List.length payload))) got.
Proof.
  intros Ha.
  destruct (allocate_step XXH32 arena _ _ Ha)
    as [[Hnone _]|(Hptr & Hoff & Hsize & Hfit & Hle & _ & _ & Hnew & _)];
    [discriminate|].
  cbn [ret_ptr arena_after] in *.
  assert (Hp : ptr = write_offset arena + 16) by congruence. clear Hptr.
  assert (Hin : within ptr (Z.of_nat (List.length payload)) = true)
    by (apply Arena.within_spec; lia).
  unfold write_bytes. rewrite Hin. eexists. split; [reflexivity|].
  intros sizes got final Hall.
  destruct (allocate_all_layout XXH32 sizes _ got final Hall)
    as (_ & Hlow & _ & Hkeep & _).
  cbn [write_offset buffer] in Hlow, Hkeep.
  split.
  - unfold read_bytes. rewrite Hin, Nat2Z.id. f_equal.
    rewrite (Arena.bytes_at_ext (with_bytes (buffer arena') ptr payload)).
    + apply Arena.payload_roundtrip.
    + intros i Hi. apply Hkeep. lia.
  - rewrite Forall_forall in *. intros ps Hps.
    destruct (Hlow ps Hps) as [Hge _]. left. cbn [fst snd]. lia.
Qed.

Lemma later_allocations_keep_payload_witness :
  exists written,
    write_bytes (buffer (after_call XXHash.XXH32 ipc_arena_init 3)) 16 [7; 8; 9]
    = Some written /\
    forall sizes got final,
      allocate_all XXHash.XXH32 (mkIPCArena 32 0 written) sizes
      = Some (got, final) ->
      read_bytes (buffer final) 16 3 = Some [7; 8; 9] /\
      Forall (disjoint (16, 3)) got.
Proof.
  exact (later_allocations_keep_payload XXHash.XXH32 ipc_arena_init
           (after_call XXHash.XXH32 ipc_arena_init 3) [7; 8; 9] 16 eq_refl).
Defined.

End ArenaLayout.

(** ** What reaches the client *)

Module WireFormat.

Lemma send_response_fields (cs : list ClientContext) (r r1 : Response)
  (w w1 : Wire) :
  Server.send_response cs r w = Some (r1, w1) ->
  status_code r1 = status_code r /\ content r1 = content r /\
  content_length r1 = content_length r /\ res_headers r1 = res_headers r /\
  body r1 = body r.
Proof.
  unfold Server.send_response. intros Hsend.
  destruct (headers_sent r);
    [inversion Hsend; subst; repeat split; reflexivity|].
  destruct (Server.find_client_context cs (client r));
    [|inversion Hsend; subst; repeat split; reflexivity].
  destruct (Server.header_bytes r); [|discriminate].
  inversion Hsend; subst. repeat split; reflexivity.
Qed.

(** For a response not yet sent, of a known client, whose header block
    fits the 4096-byte array and whose [content_length] bytes exist,
    [send_response] writes the header block, whose last line announces
    [content_length], and then, unless that is zero, exactly that many
    bytes of body; and it sets the latch. *)
Theorem send_response_announces_body (cs : list ClientContext) (r : Response)
  (w : Wire) (ctx : ClientContext) :
  headers_sent r = false ->
  Server.find_client_context cs (client r) = Some ctx ->
  (String.length (Server.header_text r) < 4096)%nat ->
  wf_response r ->
  exists sent,
    Server.send_response cs r w
    = Some (set_headers_sent r true,
            (w ++ (stream ctx, Server.header_text r) :: sent)%list) /\
    (exists start,
       Server.header_text r
       = start ++ "Content-Length: " ++ decimal (content_length r)
           ++ CRLF ++ CRLF) /\
    (content_length r = 0 -> sent = []) /\
    (0 < content_length r ->
     sent = [(stream ctx, body r)] /\
     Z.of_nat (String.length (body r)) = content_length r).
Proof.
  intros Hsent Hctx Hfit [Hpos Hwf].
  unfold Server.send_response, Server.header_bytes.
  rewrite Hsent, Hctx. apply Nat.ltb_lt in Hfit. rewrite Hfit.
  assert (Hline : exists start,
             Server.header_text r
             = start ++ "Content-Length: " ++ decimal (content_length r)
                 ++ CRLF ++ CRLF).
  { eexists. unfold Server.header_text.
    rewrite <- !FileReply.append_assoc. reflexivity. }
  destruct (content r) as [block|] eqn:Hblock.
  - destruct (Z.ltb_spec 0 (content_length r)) as [Hlt|Hge].
    + exists [(stream ctx, body r)]. split.
      { rewrite <- app_assoc. reflexivity. }
      split; [exact Hline|]. split; [lia|]. intros _. split; [reflexivity|].
      unfold body. rewrite Hblock, BodyWrite.length_take. lia.
    + exists []. split; [reflexivity|]. split; [exact Hline|].
      split; [reflexivity | lia].
  - exists []. split; [reflexivity|]. split; [exact Hline|].
    split; [reflexivity | lia].
Qed.

Lemma send_response_announces_body_witness :
  exists sent,
    Server.send_response Sample.one_client
      (mkResponse 200 (Some (strdup_block "hello")) 5 [("X-A", "b")]
         (Some 7%nat) false COMPRESSION_NONE) []
    = Some (set_headers_sent
              (mkResponse 200 (Some (strdup_block "hello")) 5 [("X-A", "b")]
                 (Some 7%nat) false COMPRESSION_NONE) true,
            ([] ++ (7%nat,
                    Server.header_text
                      (mkResponse 200 (Some (strdup_block "hello")) 5
                         [("X-A", "b")] (Some 7%nat) false COMPRESSION_NONE))
               :: sent)%list) /\
    sent = [(7%nat, "hello")].
Proof.
  destruct (send_response_announces_body Sample.one_client
              (mkResponse 200 (Some (strdup_block "hello")) 5 [("X-A", "b")]
                 (Some 7%nat) false COMPRESSION_NONE) []
              (mkClientContext 7 false false))
    as (sent & Hsend & _ & _ & Hbody).
  - reflexivity.
  - reflexivity.
  - vm_compute. lia.
  - unfold wf_response. simpl. lia.
  - exists sent. split; [exact Hsend|].
    apply Hbody. simpl. lia.
Defined.

(** When no allocation fails, [res_send_json] of the server leaves the
    status as it was and adds the JSON content type: the body is the JSON
    text when no compression is set or [compress_data] fails, with no
    [Content-Encoding] added; otherwise the body is the compressed bytes
    and the encoding token follows the content type. *)
Theorem res_send_json_compression
  (deflate : CompressionType -> string -> option string)
  (cs : list ClientContext) (r r4 : Response) (json : string) (w w4 : Wire)
  (o4 : oracle) :
  Server.res_send_json deflate cs r (Some json) w [] = Some (r4, w4, o4) ->
  status_code r4 = status_code r /\
  match
    match compression r with
    | COMPRESSION_NONE => None
    | type => deflate type json
    end
  with
  | None =>
      body r4 = json /\
      res_headers r4
      = (res_headers r ++ [("Content-Type", "application/json")])%list
  | Some packed =>
      body r4 = packed /\
      res_headers r4
      = (res_headers r ++
         [("Content-Type", "application/json");
          ("Content-Encoding", Server.encoding_token (compression r))])%list
  end.
Proof.
  intros Hres.
  destruct (Pipeline.backend_res_send_json_result _ _ _ _ _ _ _ _ _ Hres)
    as (Hs & _ & Hb).
  split; [exact Hs|].
  assert (Hin : str_take (Z.to_nat (strlen json)) (strdup_block json) = json).
  { unfold strlen, strdup_block. rewrite Nat2Z.id.
    apply BodyWrite.take_app_exact. }
  assert (Hsent : forall r3 : Response,
             match Server.send_response cs r3 w with
             | Some (r5, w5) => Some (r5, w5, @nil bool)
             | None => None
             end = Some (r4, w4, o4) ->
             res_headers r4 = res_headers r3).
  { intros r3 Hr3.
    destruct (Server.send_response cs r3 w) as [[r5 w5]|] eqn:Hsend;
      [|discriminate].
    inversion Hr3; subst r5 w5 o4.
    exact (proj1 (proj2 (proj2 (proj2 (send_response_fields _ _ _ _ _ Hsend))))). }
  revert Hres. unfold Server.res_send_json.
  rewrite Pipeline.res_set_header_defined by reflexivity.
  cbn [alloc fst snd].
  unfold Server.compress_body, Server.compress_data.
  cbn [compression content content_length set_headers set_content res_headers].
  rewrite Hin.
  destruct (compression r) eqn:Hcomp;
    [|destruct (deflate _ json) as [packed|]..];
    try rewrite Pipeline.res_set_header_defined by reflexivity;
    cbn [alloc fst snd];
    intros Hres; apply Hsent in Hres; rewrite Hres, Hb;
    cbn [res_headers set_headers set_content];
    rewrite <- ?app_assoc; split; reflexivity.
Qed.

Lemma res_send_json_compression_witness :
  body (fst (fst
    (match Server.res_send_json (fun _ _ => None) Sample.one_client
             (mkResponse 201 None 0 [] (Some 7%nat) false COMPRESSION_GZIP)
             (Some "{}") [] [] with
     | Some out => out
     | None => (mkResponse 0 None 0 [] None false COMPRESSION_NONE, [], [])
     end))) = "{}".
Proof.
  destruct (Server.res_send_json (fun _ _ => None) Sample.one_client
              (mkResponse 201 None 0 [] (Some 7%nat) false COMPRESSION_GZIP)
              (Some "{}") [] []) as [[[r4 w4] o4]|] eqn:Hres.
  - exact (proj1 (proj2 (res_send_json_compression (fun _ _ => None)
                           Sample.one_client _ r4 "{}" [] w4 o4 Hres))).
  - vm_compute in Hres. discriminate.
Defined.

End WireFormat.

